(** * podenv: the command line entrypoint (podenv/main.py)

    A shallow embedding of [podenv.main]: the override resolution
    ([applyCommandLineOverride]), the environment listing ([listEnv]) and
    the lifecycle driven by [run], together with the properties the
    specification states about them.

    Python objects mutated in place are modelled by explicit state
    passing, exceptions by a [result] type, and every call that leaves
    [main.py] (config loader, runtime adapter, standard output) is
    recorded in a trace. *)

From stdpp Require Import gmap strings list sorting.
From Stdlib Require Import ZArith Lia Ascii String.

Local Open Scope Z_scope.

(* ===================================================================== *)
(** ** Exceptions and results *)
(* ===================================================================== *)

(** The exception classes that matter to [main.py].  [RuntimeError]
    stands for the class and its subclasses: it is what the
    [except RuntimeError] clauses catch.  [SystemExit] is what the
    builtin [exit(code)] raises. *)
Inductive exn : Type :=
| RuntimeError (msg : string)
| ValueError (msg : string)
| FileNotFoundError (msg : string)
| KeyboardInterrupt
| SystemExit (code : Z)
| OtherError (cls msg : string).

Definition isRuntimeError (e : exn) : bool :=
  match e with RuntimeError _ => true | _ => false end.

Inductive result (A : Type) : Type :=
| Ret (a : A)
| Raise (e : exn).
Arguments Ret {A} a.
Arguments Raise {A} e.

(** State and exception monad: a Python block working on a mutable
    object of type [S]; the state is returned also when the block
    raises, as the object keeps the mutations done so far. *)
Definition M (S A : Type) : Type := S -> result A * S.

Definition ret {S A} (a : A) : M S A := fun s => (Ret a, s).
Definition raise {S A} (e : exn) : M S A := fun s => (Raise e, s).
Definition bind {S A B} (m : M S A) (k : A -> M S B) : M S B :=
  fun s => match m s with
           | (Ret a, s') => k a s'
           | (Raise e, s') => (Raise e, s')
           end.
Definition modify {S} (f : S -> S) : M S unit := fun s => (Ret tt, f s).
Definition when {S} (b : bool) (m : M S unit) : M S unit :=
  if b then m else ret tt.

(** [try: body except RuntimeError as e: handler(str(e))] *)
Definition exceptRuntimeError {S A} (body : M S A) (handler : string -> M S A)
  : M S A :=
  fun s => match body s with
           | (Raise (RuntimeError msg), s') => handler msg s'
           | r => r
           end.

(** [try: body except ...]: [handlers e] is the clause that matches
    [e], if any; what a clause raises is not handled by its siblings. *)
Definition tryExcept {S A} (body : M S A) (handlers : exn -> option (M S A))
  : M S A :=
  fun s => match body s with
           | (Raise e, s') =>
               match handlers e with
               | Some handler => handler s'
               | None => (Raise e, s')
               end
           | r => r
           end.

Declare Scope py_scope.
Delimit Scope py_scope with py.
Notation "x <- m ;; k" := (bind m (fun x => k))
  (at level 100, m at next level, right associativity) : py_scope.
Notation "m ;;; k" := (bind m (fun _ => k))
  (at level 100, right associativity) : py_scope.

(** [for x in xs: body x] *)
Fixpoint forEach {S A} (xs : list A) (body : A -> M S unit) : M S unit :=
  match xs with
  | [] => ret tt
  | x :: xs' => bind (body x) (fun _ => forEach xs' body)
  end.

(* ===================================================================== *)
(** ** Python string helpers *)
(* ===================================================================== *)

(** [s.replace(a, b)] for one-character [a] and [b]. *)
Fixpoint replace (a b : ascii) (s : string) : string :=
  match s with
  | EmptyString => EmptyString
  | String c s' =>
      String (if Ascii.eqb c a then b else c) (replace a b s')
  end.

(** [s.split(sep, 1)]: the list has two elements when [sep] occurs in
    [s] (the text before and after its first occurrence), one
    otherwise. *)
Fixpoint split1 (sep : ascii) (s : string) : list string :=
  match s with
  | EmptyString => [EmptyString]
  | String c s' =>
      if Ascii.eqb c sep then [EmptyString; s']
      else match split1 sep s' with
           | k :: rest => String c k :: rest
           | [] => [String c EmptyString]
           end
  end.

Fixpoint contains (c : ascii) (s : string) : bool :=
  match s with
  | EmptyString => false
  | String d s' => Ascii.eqb d c || contains c s'
  end.

(** [key, val = xs]: unpacking into exactly two names. *)
Definition unpack2 {S} (xs : list string) : M S (string * string) :=
  match xs with
  | [k; v] => ret (k, v)
  | [] => raise (ValueError "not enough values to unpack (expected 2, got 0)")
  | [_] => raise (ValueError "not enough values to unpack (expected 2, got 1)")
  | _ => raise (ValueError "too many values to unpack (expected 2)")
  end.

(** Truthiness of an [Optional[str]]: [None] and the empty string are
    false. *)
Definition truthy (o : option string) : bool :=
  match o with
  | Some s => negb (String.eqb s EmptyString)
  | None => false
  end.

(** Truthiness of an optional dict: [None] and [{}] are false. *)
Definition truthyDict {V} (o : option (gmap string V)) : bool :=
  match o with
  | Some m => negb (bool_decide (m = ∅))
  | None => false
  end.

(** [s.startswith(p)] *)
Definition startswith (p s : string) : bool := String.prefix p s.

(** [s.strip()]: remove leading and trailing white space (the
    characters below 256 for which [str.isspace] holds). *)
Definition isspace (c : ascii) : bool :=
  let n := nat_of_ascii c in
  ((9 <=? n) && (n <=? 13) || (28 <=? n) && (n <=? 32)
   || (n =? 133) || (n =? 160))%nat.

Fixpoint lstrip (s : string) : string :=
  match s with
  | EmptyString => EmptyString
  | String c s' => if isspace c then lstrip s' else s
  end.

Definition strip (s : string) : string :=
  String.rev (lstrip (String.rev (lstrip s))).

(** [s.ljust(n)], which is what the format field [{:<ns}] does to a
    string: pad with spaces on the right up to width [n]. *)
Fixpoint spaces (n : nat) : string :=
  match n with
  | O => EmptyString
  | S n' => String " " (spaces n')
  end.

Definition ljust (n : nat) (s : string) : string :=
  s +:+ spaces (n - String.length s).

(* ===================================================================== *)
(** ** Data model *)
(* ===================================================================== *)

(** Modelled from the spec: the class [Env] of [podenv.env] (section 3,
    Environment Model).  [environ] may be [None]. *)
Record Env : Type := mkEnv {
  envName : string;
  description : string;
  image : string;
  command : list string;
  capabilities : gmap string bool;
  environ : option (gmap string string);
  network : option string;
  home : option string;
  original : option string;
  containerFile : option string;
}.

Definition set_capability (name : string) (b : bool) (e : Env) : Env :=
  mkEnv (envName e) (description e) (image e) (command e)
        (<[name := b]> (capabilities e)) (environ e) (network e) (home e)
        (original e) (containerFile e).
Definition set_environ (m : option (gmap string string)) (e : Env) : Env :=
  mkEnv (envName e) (description e) (image e) (command e)
        (capabilities e) m (network e) (home e)
        (original e) (containerFile e).
Definition set_command (c : list string) (e : Env) : Env :=
  mkEnv (envName e) (description e) (image e) c
        (capabilities e) (environ e) (network e) (home e)
        (original e) (containerFile e).
Definition set_image (i : string) (e : Env) : Env :=
  mkEnv (envName e) (description e) i (command e)
        (capabilities e) (environ e) (network e) (home e)
        (original e) (containerFile e).
Definition set_network (n : string) (e : Env) : Env :=
  mkEnv (envName e) (description e) (image e) (command e)
        (capabilities e) (environ e) (Some n) (home e)
        (original e) (containerFile e).
Definition set_home (h : string) (e : Env) : Env :=
  mkEnv (envName e) (description e) (image e) (command e)
        (capabilities e) (environ e) (network e) (Some h)
        (original e) (containerFile e).
Definition set_original (o : option string) (e : Env) : Env :=
  mkEnv (envName e) (description e) (image e) (command e)
        (capabilities e) (environ e) (network e) (home e)
        o (containerFile e).
Definition set_containerFile (c : option string) (e : Env) : Env :=
  mkEnv (envName e) (description e) (image e) (command e)
        (capabilities e) (environ e) (network e) (home e)
        (original e) c.

(** The [argparse.Namespace] built by [usageParser]: one attribute per
    option.  The [store_true] attributes generated from the capability
    table ([--<name>] and [--no-<name>], stored under the name with
    [-] replaced by [_]) are kept as the set of those that are [True]. *)
Record Namespace : Type := mkNamespace {
  args_verbose : bool;
  args_debug : bool;
  args_config : string;
  args_expr : option string;
  args_show : bool;
  args_list : bool;
  args_shell : bool;
  args_net : option string;
  args_home : option string;
  args_environ : option (list string);
  args_image : option string;
  args_rebuild : bool;
  args_update : bool;
  args_flags : gset string;
  args_env : option string;
  args_args : list string;
}.

(** Assignments to the attributes of the namespace. *)
Definition set_verbose (b : bool) (a : Namespace) : Namespace :=
  mkNamespace b (args_debug a) (args_config a) (args_expr a)
    (args_show a) (args_list a) (args_shell a) (args_net a) (args_home a)
    (args_environ a) (args_image a) (args_rebuild a) (args_update a)
    (args_flags a) (args_env a) (args_args a).
Definition set_config (c : string) (a : Namespace) : Namespace :=
  mkNamespace (args_verbose a) (args_debug a) c (args_expr a)
    (args_show a) (args_list a) (args_shell a) (args_net a) (args_home a)
    (args_environ a) (args_image a) (args_rebuild a) (args_update a)
    (args_flags a) (args_env a) (args_args a).
Definition set_env (e : string) (a : Namespace) : Namespace :=
  mkNamespace (args_verbose a) (args_debug a) (args_config a) (args_expr a)
    (args_show a) (args_list a) (args_shell a) (args_net a) (args_home a)
    (args_environ a) (args_image a) (args_rebuild a) (args_update a)
    (args_flags a) (Some e) (args_args a).
Definition set_flags (f : gset string) (a : Namespace) : Namespace :=
  mkNamespace (args_verbose a) (args_debug a) (args_config a) (args_expr a)
    (args_show a) (args_list a) (args_shell a) (args_net a) (args_home a)
    (args_environ a) (args_image a) (args_rebuild a) (args_update a)
    f (args_env a) (args_args a).
Definition set_shell (b : bool) (a : Namespace) : Namespace :=
  mkNamespace (args_verbose a) (args_debug a) (args_config a) (args_expr a)
    (args_show a) (args_list a) b (args_net a) (args_home a)
    (args_environ a) (args_image a) (args_rebuild a) (args_update a)
    (args_flags a) (args_env a) (args_args a).
Definition set_args_environ (l : option (list string)) (a : Namespace)
  : Namespace :=
  mkNamespace (args_verbose a) (args_debug a) (args_config a) (args_expr a)
    (args_show a) (args_list a) (args_shell a) (args_net a) (args_home a)
    l (args_image a) (args_rebuild a) (args_update a)
    (args_flags a) (args_env a) (args_args a).
Definition set_args_home (h : option string) (a : Namespace) : Namespace :=
  mkNamespace (args_verbose a) (args_debug a) (args_config a) (args_expr a)
    (args_show a) (args_list a) (args_shell a) (args_net a) h
    (args_environ a) (args_image a) (args_rebuild a) (args_update a)
    (args_flags a) (args_env a) (args_args a).
Definition set_list (b : bool) (a : Namespace) : Namespace :=
  mkNamespace (args_verbose a) (args_debug a) (args_config a) (args_expr a)
    (args_show a) b (args_shell a) (args_net a) (args_home a)
    (args_environ a) (args_image a) (args_rebuild a) (args_update a)
    (args_flags a) (args_env a) (args_args a).
Definition set_debug (b : bool) (a : Namespace) : Namespace :=
  mkNamespace (args_verbose a) b (args_config a) (args_expr a)
    (args_show a) (args_list a) (args_shell a) (args_net a) (args_home a)
    (args_environ a) (args_image a) (args_rebuild a) (args_update a)
    (args_flags a) (args_env a) (args_args a).
Definition set_update_rebuild (u r : bool) (a : Namespace) : Namespace :=
  mkNamespace (args_verbose a) (args_debug a) (args_config a) (args_expr a)
    (args_show a) (args_list a) (args_shell a) (args_net a) (args_home a)
    (args_environ a) (args_image a) r u
    (args_flags a) (args_env a) (args_args a).

(** [getattr(args, attr)] for a capability flag. *)
Definition getattr (args : Namespace) (attr : string) : bool :=
  bool_decide (attr ∈ args_flags args).

(** What [applyCommandLineOverride] needs from outside [main.py]: the
    capability table of [podenv.capabilities] (name and documentation of
    each entry, in table order; the third component is not used here)
    and the two [pathlib] operations on the host file system. *)
Record Host : Type := mkHost {
  Capabilities : list (string * string);
  expanduser : string -> result string;
  resolve_strict : string -> result string;
}.

Definition liftResult {S A} (r : result A) : M S A :=
  fun s => (r, s).

(* ===================================================================== *)
(** ** Override resolution: [applyCommandLineOverride] *)
(* ===================================================================== *)

Section Override.
Variable host : Host.
Variable args : Namespace.
Local Open Scope py_scope.

(** Body of the loop over the capability table (lines 87-91). *)
Definition overrideCapability (name : string) : M Env unit :=
  let argName := replace "-" "_" name in
  when (getattr args argName)
       (modify (set_capability name true)) ;;;
  when (getattr args ("no_" +:+ argName))
       (modify (set_capability name false)).

(** Body of the loop over [args.environ] (lines 94-97). *)
Definition overrideEnviron (argsEnviron : string) : M Env unit :=
  kv <- unpack2 (split1 "=" argsEnviron) ;;
  modify (fun env =>
    if truthyDict (environ env) then env else set_environ (Some ∅) env) ;;;
  modify (fun env =>
    set_environ (Some (<[kv.1 := kv.2]> (default ∅ (environ env)))) env).

(** Lines 86-91: the loop over the capability table. *)
Definition overrideCapabilities : M Env unit :=
  forEach (Capabilities host) (fun c => overrideCapability c.1).

(** Lines 92-97: [None] and the empty list are false. *)
Definition environStep : M Env unit :=
  match args_environ args with
  | Some ((_ :: _) as l) => forEach l overrideEnviron
  | _ => ret tt
  end.

(** Lines 92-106: the additional overrides. *)
Definition overrideOthers : M Env unit :=
  environStep ;;;
  when (args_shell args)
       (modify (set_capability "terminal" true) ;;;
        modify (set_command ["/bin/bash"])) ;;;
  match args_image args with
  | Some i => when (truthy (Some i)) (modify (set_image i))
  | None => ret tt
  end ;;;
  match args_net args with
  | Some n => when (truthy (Some n)) (modify (set_network n))
  | None => ret tt
  end ;;;
  match args_home args with
  | Some h =>
      when (truthy (Some h))
           (p <- liftResult (expanduser host h) ;;
            q <- liftResult (resolve_strict host p) ;;
            modify (set_home q))
  | None => ret tt
  end.

Definition applyCommandLineOverride : M Env unit :=
  overrideCapabilities ;;; overrideOthers.
End Override.

(* ===================================================================== *)
(** ** The outside of [main.py] *)
(* ===================================================================== *)

(** Modelled from the spec: a [Task] is an opaque host-side action
    (section 3); it is named here by its description. *)
Definition Task : Type := string.

(** Modelled from the spec: the class [ExecContext] of [podenv.context]
    (section 3, Execution Context); [getArgs] is the value of the method
    of that name, the accumulated runtime arguments. *)
Record ExecContext : Type := mkExecContext {
  name : string;
  imageName : string;
  getArgs : list string;
  commandArgs : list string;
  ctx_containerFile : option string;
  containerUpdate : option string;
  hostPreTasks : list Task;
  hostPostTasks : list Task;
}.

(** The loaded configuration, a [Dict[str, Env]]: the items in insertion
    order, with pairwise distinct keys. *)
Definition Conf : Type := list (string * Env).

(** The three notification callables [getUserNotificationProc] chooses
    from. *)
Inductive UserNotif : Type :=
| desktopNotification
| logInfo
| printStderr.

(** Calls into the other modules of podenv. *)
Inductive call : Type :=
| LoadConfig (skipLocal : bool) (configStr : option string)
             (configFile : string) (debug : bool)
| GetEnv (conf : Conf) (envName : string)
| PrepareEnv (env : Env) (cliArgs : list string)
| UpdateImage (notify : UserNotif) (ctx : ExecContext) (cacheDir : string)
| SetupImage (notify : UserNotif) (ctx : ExecContext) (rebuild : bool)
             (cacheDir : string)
| SetupPod (notify : UserNotif) (ctx : ExecContext) (rebuild : bool)
| ExecuteHostTasks (tasks : list Task)
| ExecutePod (name : string) (args : list string) (image : string)
             (cmd : list string)
| KillPod (name : string)
| DesktopNotification (msg : string).

(** What a run leaves behind, oldest event first: the calls with their
    outcome ([None]: the call returned), the lines printed on standard
    output and the log records. *)
Inductive event : Type :=
| Called (c : call) (outcome : option exn)
| Print (line : string)
| Log (level msg : string).

Definition trace : Type := list event.

(** Everything [run] gets from outside [main.py].  The config loader and
    [prepareEnv] are called once and perform no IO (comment at line 177):
    they are functions of their arguments.  The outcome of the other
    calls of [podenv.pod] may depend on all that happened before. *)
Record World : Type := mkWorld {
  host : Host;
  os_environ : gmap string string;
  stdout_isatty : bool;
  bus_exists : string -> bool;
  format_help : string;
  loadConfig : bool -> option string -> string -> bool -> result Conf;
  getEnv : Conf -> string -> result Env;
  prepareEnv : Env -> list string -> result ExecContext;
  pod : call -> trace -> option exn;
  safe_dump : option string -> string;
  repr : Env -> string;
  prettyCmd : list string -> string;
}.

Definition outcome {A} (r : result A) : option exn :=
  match r with Ret _ => None | Raise e => Some e end.

Definition emit (ev : event) : M trace unit :=
  fun tr => (Ret tt, tr ++ [ev]).

(** A call whose result is a function of its arguments. *)
Definition invoke {A} (c : call) (r : result A) : M trace A :=
  fun tr => (r, tr ++ [Called c (outcome r)]).

(** A call of [podenv.pod] that returns nothing. *)
Definition perform (w : World) (c : call) : M trace unit :=
  fun tr => match pod w c tr with
            | None => (Ret tt, tr ++ [Called c None])
            | Some e => (Raise e, tr ++ [Called c (Some e)])
            end.

(** Run a block that mutates an object held in a local variable. *)
Definition mutating {S A} (m : M S A) (s : S) : M trace (A * S) :=
  fun tr => match m s with
            | (Ret a, s') => (Ret (a, s'), tr)
            | (Raise e, _) => (Raise e, tr)
            end.

Definition esc : string := String (ascii_of_nat 27) EmptyString.
Definition red (msg : string) : string :=
  esc +:+ "[91m" +:+ msg +:+ esc +:+ "[m".

(** Exit status of the process for the way [run] ends: normal return,
    [exit(code)], or an exception nobody caught (the interpreter prints
    the traceback and exits with 1; an uncaught [KeyboardInterrupt]
    ends the process as the interrupt signal does, status 130). *)
Definition exitStatus (r : result unit) : Z :=
  match r with
  | Ret _ => 0
  | Raise (SystemExit code) => code
  | Raise KeyboardInterrupt => 130
  | Raise _ => 1
  end.

(* ===================================================================== *)
(** ** [listEnv], [showEnv] and [run] *)
(* ===================================================================== *)

(** Order of the items of a dict with distinct keys: by key. *)
Definition item_le (a b : string * Env) : Prop := String.le a.1 b.1.

Global Instance item_le_dec a b : Decision (item_le a b).
Proof. unfold item_le, String.le. apply _. Defined.

Definition sorted (envs : Conf) : Conf := merge_sort item_le envs.

Definition lineFmt (width : nat) (a b : string) : string :=
  ljust width a +:+ b.

Definition listEnv (envs : Conf) : M trace unit :=
  match envs with
  | [] => raise (ValueError "max() arg is an empty sequence")
  | _ =>
      let maxEnvNameLen :=
        (max_list (map (fun kv => String.length kv.1) envs) + 3)%nat in
      bind (emit (Print (lineFmt maxEnvNameLen "NAME" "DESCRIPTION")))
        (fun _ =>
           forEach (sorted envs) (fun kv =>
             emit (Print (lineFmt maxEnvNameLen
                            (envName kv.2) (description kv.2)))))
  end.

Section Run.
Variable w : World.
Local Open Scope py_scope.

Definition applyEnvironOverride (args : Namespace) : M trace Namespace :=
  let podenvConfig := os_environ w !! "PODENV_CONFIG" in
  match podenvConfig with
  | Some v =>
      if truthy (Some v) then
        when (negb (String.eqb (args_config args)
                      "~/.config/podenv/config.dhall")
              && negb (String.eqb (args_config args) v))
             (emit (Print (args_config args
                             +:+ " is overriden by environ PODENV_CONFIG="
                             +:+ v))) ;;;
        ret (set_config v args)
      else ret args
  | None => ret args
  end.

Definition getUserNotificationProc (verbose : bool) : UserNotif :=
  if negb (stdout_isatty w) then
    if truthy (os_environ w !! "DBUS_SESSION_BUS_ADDRESS")
       || (truthy (os_environ w !! "XDG_RUNTIME_DIR")
           && bus_exists w (default EmptyString
                                (os_environ w !! "XDG_RUNTIME_DIR")))
    then desktopNotification
    else printStderr
  else if verbose then logInfo
  else printStderr.

(** [exit] never returns, whence the arbitrary result type. *)
Definition fail {A} (userNotif : UserNotif) (msg : string) (code : Z)
  : M trace A :=
  match userNotif with
  | desktopNotification => perform w (DesktopNotification msg)
  | _ => emit (Print (red msg))
  end ;;;
  raise (SystemExit code).

Definition showEnv (verbose debug : bool) (env : Env) (ctx : ExecContext)
  : M trace unit :=
  let containerFile := ctx_containerFile ctx in
  let localImage := startswith "localhost/" (image env) in
  env <- (if debug then
            emit (Log "debug" "Schema:") ;;;
            emit (Print (safe_dump w (original env))) ;;;
            ret (set_original None env)
          else ret env) ;;
  env <- (if verbose then
            emit (Log "debug" "Environment:") ;;;
            let env := set_containerFile None env in
            emit (Print (repr w env +:+ String "010" EmptyString)) ;;;
            ret env
          else ret env) ;;
  when (localImage && truthy containerFile)
       (emit (Log "info" "Containerfile:") ;;;
        emit (Print (strip (default EmptyString containerFile)
                       +:+ String "010" EmptyString))) ;;;
  when (verbose && localImage && truthy (containerUpdate ctx))
       (emit (Log "info" "Containerfile for update:") ;;;
        emit (Print (strip (default EmptyString (containerUpdate ctx))
                       +:+ String "010" EmptyString))) ;;;
  emit (Log "info" "Command line:") ;;;
  emit (Print ("podman run "
                 +:+ prettyCmd w
                       (getArgs ctx ++ [imageName ctx] ++ commandArgs ctx))).
End Run.

Section Lifecycle.
Variable w : World.
Local Open Scope py_scope.

(** Lines 168-174 of [run], after the arguments are parsed;
    [setupLogging] only configures the [logging] module and is left
    out. *)
Definition startup (args : Namespace)
  : M trace (Namespace * UserNotif * string) :=
  let args := if args_debug args then set_verbose true args else args in
  let notifyUserProc := getUserNotificationProc w (args_verbose args) in
  cacheDir <- liftResult (expanduser (host w) "~/.cache/podenv") ;;
  args <- applyEnvironOverride w args ;;
  ret (args, notifyUserProc, cacheDir).

(** Lines 178-191: load the configuration and pick the environment.
    [None] is the early [return listEnv(conf)].  [skipLocal] receives
    [args.list or args.env], of which only the truth value is kept. *)
Definition resolveEnv (args : Namespace)
  : M trace (option (Namespace * Env)) :=
  let skipLocal := args_list args || truthy (args_env args) in
  conf <- invoke (LoadConfig skipLocal (args_expr args)
                             (args_config args) (args_debug args))
                 (loadConfig w skipLocal (args_expr args)
                             (args_config args) (args_debug args)) ;;
  if args_list args && negb (args_show args) then
    listEnv conf ;;; ret None
  else
    args <- (if negb (truthy (args_env args)) then
               match conf with
               | [(k, _)] => ret (set_env k args)
               | _ => emit (Print (format_help w)) ;;;
                      raise (SystemExit 1)
               end
             else ret args) ;;
    let envName := default EmptyString (args_env args) in
    env <- invoke (GetEnv conf envName) (getEnv w conf envName) ;;
    ret (Some (args, env)).

(** The handler shared by the [try] blocks of lines 176-220. *)
Definition reportFailure {A} (args : Namespace) (notifyUserProc : UserNotif)
    (msg : string) : M trace A :=
  if args_debug args then raise (RuntimeError msg)
  else fail w notifyUserProc msg 1.

(** Lines 176-197. *)
Definition prelude (args : Namespace) (notifyUserProc : UserNotif)
  : M trace (option (Namespace * Env * ExecContext)) :=
  exceptRuntimeError
    (r <- resolveEnv args ;;
     match r with
     | None => ret None
     | Some (args, env) =>
         r <- mutating (applyCommandLineOverride (host w) args) env ;;
         let env := r.2 in
         ctx <- invoke (PrepareEnv env (args_args args))
                       (prepareEnv w env (args_args args)) ;;
         ret (Some (args, env, ctx))
     end)
    (reportFailure args notifyUserProc).

(** Lines 202-211. *)
Definition updatePhase (args : Namespace) (notifyUserProc : UserNotif)
    (cacheDir : string) (ctx : ExecContext) : M trace unit :=
  exceptRuntimeError
    (when (args_update args)
       (when (args_rebuild args)
          (raise (RuntimeError "Invalid action --update --rebuild")) ;;;
        perform w (UpdateImage notifyUserProc ctx cacheDir)))
    (reportFailure args notifyUserProc).

(** Lines 213-220. *)
Definition setupPhase (args : Namespace) (notifyUserProc : UserNotif)
    (cacheDir : string) (ctx : ExecContext) : M trace unit :=
  exceptRuntimeError
    (perform w (SetupImage notifyUserProc ctx (args_rebuild args) cacheDir) ;;;
     perform w (SetupPod notifyUserProc ctx (args_rebuild args)))
    (reportFailure args notifyUserProc).

(** Lines 222-233: the value is [podResult]. *)
Definition executePhase (ctx : ExecContext) : M trace Z :=
  tryExcept
    (perform w (ExecuteHostTasks (hostPreTasks ctx)) ;;;
     perform w (ExecutePod (name ctx) (getArgs ctx) (imageName ctx)
                           (commandArgs ctx)) ;;;
     ret 0)
    (fun e =>
       match e with
       | KeyboardInterrupt =>
           Some (exceptRuntimeError (perform w (KillPod (name ctx)))
                                    (fun _ => ret tt) ;;;
                 ret 1)
       | RuntimeError _ => Some (ret 1)
       | _ => None
       end).

(** Lines 235-250; the body of the cleanup [try] is empty. *)
Definition postPhase (args : Namespace) (notifyUserProc : UserNotif)
    (ctx : ExecContext) (podResult : Z) : M trace unit :=
  exceptRuntimeError
    (perform w (ExecuteHostTasks (hostPostTasks ctx)))
    (fun msg => if args_debug args then raise (RuntimeError msg)
                else emit (Print msg)) ;;;
  exceptRuntimeError (ret tt) (fun msg => fail w notifyUserProc msg 1) ;;;
  emit (Log "debug" "Complete") ;;;
  raise (SystemExit podResult).

(** Lines 202-250. *)
Definition lifecycle (args : Namespace) (notifyUserProc : UserNotif)
    (cacheDir : string) (ctx : ExecContext) : M trace unit :=
  updatePhase args notifyUserProc cacheDir ctx ;;;
  setupPhase args notifyUserProc cacheDir ctx ;;;
  podResult <- executePhase ctx ;;
  postPhase args notifyUserProc ctx podResult.

Definition run (args : Namespace) : M trace unit :=
  s <- startup args ;;
  let '(args, notifyUserProc, cacheDir) := s in
  r <- prelude args notifyUserProc ;;
  match r with
  | None => ret tt
  | Some (args, env, ctx) =>
      if args_show args then
        showEnv w (args_verbose args) (args_debug args) env ctx
      else lifecycle args notifyUserProc cacheDir ctx
  end.
End Lifecycle.

(** The operations of the runtime adapter, and the host tasks run around
    the pod. *)
Definition isAdapterCall (ev : event) : bool :=
  match ev with
  | Called (UpdateImage _ _ _) _ | Called (SetupImage _ _ _ _) _
  | Called (SetupPod _ _ _) _ | Called (ExecutePod _ _ _ _) _
  | Called (KillPod _) _ | Called (ExecuteHostTasks _) _ => true
  | _ => false
  end.

Definition isKill (ev : event) : bool :=
  match ev with Called (KillPod _) _ => true | _ => false end.

(* ===================================================================== *)
(** ** Vocabulary of the properties *)
(* ===================================================================== *)

(** An [-e] entry is well formed when it has a [=]. *)
Definition wellFormed (entry : string) : Prop := contains "=" entry = true.

Definition environEntries (args : Namespace) : list string :=
  default [] (args_environ args).

(** State of a capability after its two flags were looked at. *)
Definition flagState (args : Namespace) (name : string) (old : option bool)
  : option bool :=
  let argName := replace "-" "_" name in
  if getattr args ("no_" +:+ argName) then Some false
  else if getattr args argName then Some true
  else old.

(** [emitsOnly P m]: whatever the trace so far, [m] only appends to it,
    and only events that satisfy [P]. *)
Definition emitsOnly {A} (P : event -> Prop) (m : M trace A) : Prop :=
  forall tr, exists evs, (m tr).2 = tr ++ evs /\ Forall P evs.

Definition quiet (ev : event) : Prop := isAdapterCall ev = false.

Definition anyEvent (ev : event) : Prop := True.

(** Events that resolve an environment: [getEnv] and [prepareEnv]. *)
Definition isEnvResolution (ev : event) : bool :=
  match ev with
  | Called (GetEnv _ _) _ | Called (PrepareEnv _ _) _ => true
  | _ => false
  end.

(** The image-mutating operations: update, setup-image, setup-pod. *)
Definition isImageCall (ev : event) : bool :=
  match ev with
  | Called (UpdateImage _ _ _) _ | Called (SetupImage _ _ _ _) _
  | Called (SetupPod _ _ _) _ => true
  | _ => false
  end.

(** How [fail] ends: the message goes to the user and the process exits
    with 1, unless the desktop notification itself raises. *)
Definition reportedFailure (msg : string) (r : result unit)
    (evs : list event) : Prop :=
  (r = Raise (SystemExit 1)
   /\ (evs = [Print (red msg)]
       \/ evs = [Called (DesktopNotification msg) None]))
  \/ (exists e, r = Raise e
                /\ evs = [Called (DesktopNotification msg) (Some e)]).

(** [emitsAtMost n f m]: [m] appends at most [n] events that satisfy
    [f]. *)
Definition emitsAtMost {A} (n : nat) (f : event -> bool) (m : M trace A)
  : Prop :=
  forall tr, exists evs,
    (m tr).2 = tr ++ evs /\ (List.length (List.filter f evs) <= n)%nat.

(** [reachesExecute w args a notify ctx tr]: the run of [args] gets past
    the image update and the image and pod setup, and enters the [try]
    block of line 222 with the namespace [a], the context [ctx] and the
    trace [tr]. *)
Definition reachesExecute (w : World) (args a : Namespace)
    (notify : UserNotif) (ctx : ExecContext) (tr : trace) : Prop :=
  exists a1 cacheDir tr0 env tr1 tr2,
    startup w args [] = (Ret (a1, notify, cacheDir), tr0)
    /\ prelude w a1 notify tr0 = (Ret (Some (a, env, ctx)), tr1)
    /\ args_show args = false
    /\ updatePhase w a notify cacheDir ctx tr1 = (Ret tt, tr2)
    /\ setupPhase w a notify cacheDir ctx tr2 = (Ret tt, tr).

(** Events that only tell the user something. *)
Definition isOutput (ev : event) : bool :=
  match ev with
  | Print _ | Log _ _ | Called (DesktopNotification _) _ => true
  | _ => false
  end.


(** [run] rewrites three attributes of the namespace ([verbose],
    [config], [env]); the others stay as parsed. *)
Record sameRequest (a b : Namespace) : Prop := {
  same_debug : args_debug b = args_debug a;
  same_expr : args_expr b = args_expr a;
  same_show : args_show b = args_show a;
  same_list : args_list b = args_list a;
  same_shell : args_shell b = args_shell a;
  same_net : args_net b = args_net a;
  same_home : args_home b = args_home a;
  same_environ : args_environ b = args_environ a;
  same_image : args_image b = args_image a;
  same_rebuild : args_rebuild b = args_rebuild a;
  same_update : args_update b = args_update a;
  same_flags : args_flags b = args_flags a;
  same_args : args_args b = args_args a;
}.

(* ===================================================================== *)
(** ** Concrete inputs *)
(* ===================================================================== *)

(** A host with a three-entry capability table, a home directory that
    exists and nothing under [/does]. *)
Definition exampleHost : Host := {|
  Capabilities := [("terminal", "interactive mode");
                   ("network", "enable network");
                   ("large-shm", "mount a 4gb shm")];
  expanduser := fun p =>
    Ret (match p with
         | String "~" rest => "/home/user" +:+ rest
         | _ => p
         end);
  resolve_strict := fun p =>
    if startswith "/home/user" p then Ret p
    else Raise (FileNotFoundError
                  ("[Errno 2] No such file or directory: '" +:+ p +:+ "'"));
|}.

(** The environment of the end-to-end example of the specification. *)
Definition exampleEnv : Env := {|
  envName := "dev"; description := "development shell";
  image := "localhost/dev"; command := ["/bin/sh"];
  capabilities := ∅; environ := None; network := None; home := None;
  original := None; containerFile := None;
|}.

(** The namespace [argparse] builds for an empty command line. *)
Definition noArgs : Namespace := {|
  args_verbose := false; args_debug := false;
  args_config := "~/.config/podenv/config.dhall"; args_expr := None;
  args_show := false; args_list := false; args_shell := false;
  args_net := None; args_home := None; args_environ := None;
  args_image := None; args_rebuild := false; args_update := false;
  args_flags := ∅; args_env := None; args_args := [];
|}.

(** [--terminal --no-terminal] *)
Definition argsConflict : Namespace :=
  set_flags {["terminal"; "no_terminal"]} noArgs.

(** [--no-terminal --shell] *)
Definition argsNoTerminalShell : Namespace :=
  set_shell true (set_flags {["no_terminal"]} noArgs).

(** [--shell -e LANG=C] *)
Definition argsShell : Namespace :=
  set_shell true (set_args_environ (Some ["LANG=C"]) noArgs).

(** [-e LANG=C -e DEBUG] *)
Definition argsBadEnviron : Namespace :=
  set_args_environ (Some ["LANG=C"; "DEBUG"]) noArgs.

(** [--list] *)
Definition argsList : Namespace := set_list true noArgs.

(** [--update --rebuild] *)
Definition argsUpdateRebuild : Namespace := set_update_rebuild true true noArgs.

(** [--debug] *)
Definition argsDebug : Namespace := set_debug true noArgs.

(** [--home /does/not/exist] *)
Definition argsBadHome : Namespace :=
  set_args_home (Some "/does/not/exist") noArgs.

Definition exampleConf : Conf := [("dev", exampleEnv)].

Definition webEnv : Env := {|
  envName := "web"; description := "browser";
  image := "registry.example.org/web"; command := ["firefox"];
  capabilities := ∅; environ := None; network := None; home := None;
  original := None; containerFile := None;
|}.

Definition twoEnvConf : Conf := [("web", webEnv); ("dev", exampleEnv)].

Definition lookupEnv (conf : Conf) (n : string) : result Env :=
  match List.find (fun kv => String.eqb kv.1 n) conf with
  | Some kv => Ret kv.2
  | None => Raise (RuntimeError (n +:+ ": couldn't find environment"))
  end.

Definition compileEnv (env : Env) (cliArgs : list string)
  : result ExecContext :=
  Ret {| name := envName env; imageName := image env;
         getArgs := ["--rm"; "--name"; envName env];
         commandArgs := command env ++ cliArgs;
         ctx_containerFile := containerFile env; containerUpdate := None;
         hostPreTasks := ["mkdir -p ~/.cache/podenv"];
         hostPostTasks := ["rm -f /tmp/podenv.sock"] |}.

(** A world where everything succeeds. *)
Definition exampleWorld : World := {|
  host := exampleHost;
  os_environ := ∅;
  stdout_isatty := true;
  bus_exists := fun _ => false;
  format_help := "usage: podenv [-h] [--verbose] [--debug] [env] [args ...]";
  loadConfig := fun _ _ _ _ => Ret exampleConf;
  getEnv := lookupEnv;
  prepareEnv := compileEnv;
  pod := fun _ _ => None;
  safe_dump := fun o => default "null" o;
  repr := fun env => "Env(" +:+ envName env +:+ ")";
  prettyCmd := String.concat " ";
|}.

Definition withConf (conf : Conf) (w : World) : World :=
  mkWorld (host w) (os_environ w) (stdout_isatty w) (bus_exists w)
    (format_help w) (fun _ _ _ _ => Ret conf) (getEnv w) (prepareEnv w)
    (pod w) (safe_dump w) (repr w) (prettyCmd w).
Definition withPod (p : call -> trace -> option exn) (w : World) : World :=
  mkWorld (host w) (os_environ w) (stdout_isatty w) (bus_exists w)
    (format_help w) (loadConfig w) (getEnv w) (prepareEnv w)
    p (safe_dump w) (repr w) (prettyCmd w).

(** The pod is interrupted, and is gone when [killPod] looks for it. *)
Definition interruptedWorld : World :=
  withPod (fun c _ =>
             match c with
             | ExecutePod _ _ _ _ => Some KeyboardInterrupt
             | KillPod n =>
                 Some (RuntimeError ("failed: podman kill " +:+ n))
             | _ => None
             end) exampleWorld.

(** The pod runs fine and the host post-task fails. *)
Definition postFailWorld : World :=
  withPod (fun c _ =>
             match c with
             | ExecuteHostTasks t =>
                 if bool_decide (t = ["rm -f /tmp/podenv.sock"])
                 then Some (RuntimeError "failed: rm -f /tmp/podenv.sock")
                 else None
             | _ => None
             end) exampleWorld.

(* ===================================================================== *)
(** ** The argument parser: [usageParser] *)
(* ===================================================================== *)

(** How an argument fills its attribute. *)
Inductive Action : Type :=
| action_help
| action_store
| action_store_true
| action_append
| action_positional (nargs : string).

(** The values the declarations give as defaults. *)
Inductive PyValue : Type :=
| PyNone
| PyBool (b : bool)
| PyStr (s : string).

(** What [add_argument] records: the option strings (none for a
    positional), the attribute that is filled, the action and the
    default. *)
Record Argument : Type := mkArgument {
  option_strings : list string;
  dest : string;
  action : Action;
  arg_default : PyValue;
}.

(** The parser under construction: its arguments, oldest first.
    [ArgumentParser(...)] starts with the help option. *)
Definition Parser : Type := list Argument.

Definition newParser : Parser :=
  [mkArgument ["-h"; "--help"] "help" action_help PyNone].

(** [s.lstrip("-")] *)
Fixpoint lstripDash (s : string) : string :=
  match s with
  | String "-" s' => lstripDash s'
  | _ => s
  end.

(** An option string is long when it has a second character and this
    is a dash. *)
Definition isLongOption (s : string) : bool :=
  match s with
  | String _ (String "-" _) => true
  | _ => false
  end.

(** The attribute of an optional argument when no [dest] is given: from
    the first long option string, or else the first option string, with
    the leading dashes stripped and the others replaced by [_]. *)
Definition optionalDest (flags : list string) : result string :=
  let dest_option_string :=
    match List.filter isLongOption flags with
    | l :: _ => l
    | [] => hd EmptyString flags
    end in
  let d := lstripDash dest_option_string in
  if String.eqb d EmptyString then
    Raise (ValueError ("dest= is required for options like '"
                         +:+ dest_option_string +:+ "'"))
  else Ret (replace "-" "_" d).

Definition registeredOptions (p : Parser) : list string :=
  flat_map option_strings p.

(** [parser.add_argument] with option strings, an action and a default,
    that is for an optional argument: an option string that is already
    taken is an [ArgumentError]. *)
Definition add_argument (flags : list string) (act : Action)
    (default : PyValue) : M Parser unit :=
  bind (liftResult (optionalDest flags)) (fun d =>
  fun p =>
    match List.find (fun f => bool_decide (f ∈ registeredOptions p)) flags with
    | Some f =>
        (Raise (OtherError "ArgumentError"
                  ("argument " +:+ String.concat "/" flags
                     +:+ ": conflicting option string: " +:+ f)), p)
    | None => (Ret tt, p ++ [mkArgument flags d act default])
    end).

(** [parser.add_argument] with a name and [nargs], that is for a
    positional argument. *)
Definition add_positional (n nargs : string) : M Parser unit :=
  modify (fun p => p ++ [mkArgument [] n (action_positional nargs) PyNone]).

(** Lines 38-59 of [usageParser]: the options every invocation has. *)
Definition declareOptions : M Parser unit :=
  bind (add_argument ["--verbose"] action_store_true (PyBool false)) (fun _ =>
  bind (add_argument ["--debug"] action_store_true (PyBool false)) (fun _ =>
  bind (add_argument ["-c"; "--config"] action_store
          (PyStr "~/.config/podenv/config.dhall")) (fun _ =>
  bind (add_argument ["-E"; "--expr"] action_store PyNone) (fun _ =>
  bind (add_argument ["--show"] action_store_true (PyBool false)) (fun _ =>
  bind (add_argument ["--list"] action_store_true (PyBool false)) (fun _ =>
  bind (add_argument ["--shell"] action_store_true (PyBool false)) (fun _ =>
  bind (add_argument ["--net"] action_store PyNone) (fun _ =>
  bind (add_argument ["--home"] action_store PyNone) (fun _ =>
  bind (add_argument ["-e"; "--environ"] action_append PyNone) (fun _ =>
  bind (add_argument ["-i"; "--image"] action_store PyNone) (fun _ =>
  bind (add_argument ["--rebuild"] action_store_true (PyBool false)) (fun _ =>
  add_argument ["--update"] action_store_true (PyBool false))))))))))))).

(** Lines 60-64: the two flags of each capability, in table order. *)
Definition declareCapability (c : string * string) : M Parser unit :=
  bind (add_argument ["--" +:+ c.1] action_store_true (PyBool false)) (fun _ =>
  add_argument ["--no-" +:+ c.1] action_store_true (PyBool false)).

(** The body of [usageParser], lines 38-66. *)
Definition declareArguments (caps : list (string * string)) : M Parser unit :=
  bind declareOptions (fun _ =>
  bind (forEach caps declareCapability) (fun _ =>
  bind (add_positional "env" "?") (fun _ =>
  add_positional "args" "*"))).

Definition usageParser (caps : list (string * string)) : result Parser :=
  match declareArguments caps newParser with
  | (Ret _, p) => Ret p
  | (Raise e, _) => Raise e
  end.

(* ===================================================================== *)
(** ** Vocabulary of the further properties *)
(* ===================================================================== *)

(** The variable an [-e] entry names: the text before its first [=]. *)
Definition entryKey (entry : string) : string :=
  hd EmptyString (split1 "=" entry).

(** [env.environ.get(k)], where the absent dict has no variable. *)
Definition lookupEnviron (env : Env) (k : string) : option string :=
  match environ env with
  | Some m => m !! k
  | None => None
  end.

(** No flag of the capability table is set. *)
Definition noCapabilityFlag (host : Host) (args : Namespace) : Prop :=
  forall n, n ∈ (Capabilities host).*1 ->
    getattr args (replace "-" "_" n) = false
    /\ getattr args ("no_" +:+ replace "-" "_" n) = false.

(** The parser once the options of lines 38-59 are declared. *)
Definition optionsParser : Parser :=
  Eval vm_compute in (declareOptions newParser).2.

(** The option strings and the arguments the loop of lines 60-64
    declares for a capability table. *)
Definition capabilityFlags (caps : list (string * string)) : list string :=
  flat_map (fun c => ["--" +:+ c.1; "--no-" +:+ c.1]) caps.

Definition capabilityArguments (caps : list (string * string))
  : list Argument :=
  flat_map (fun c =>
              [mkArgument ["--" +:+ c.1] (replace "-" "_" (lstripDash c.1))
                          action_store_true (PyBool false);
               mkArgument ["--no-" +:+ c.1] ("no_" +:+ replace "-" "_" c.1)
                          action_store_true (PyBool false)]) caps.

(** The option strings of lines 38-59, with those of the help option. *)
Definition reservedOptions : list string :=
  ["-h"; "--help"; "--verbose"; "--debug"; "-c"; "--config"; "-E"; "--expr";
   "--show"; "--list"; "--shell"; "--net"; "--home"; "-e"; "--environ";
   "-i"; "--image"; "--rebuild"; "--update"].

(** The two positional arguments of lines 65-66. *)
Definition positionalArguments : list Argument :=
  [mkArgument [] "env" (action_positional "?") PyNone;
   mkArgument [] "args" (action_positional "*") PyNone].

(** What [showEnv] writes before the command line, section by section. *)
Definition showSections (w : World) (verbose debug : bool) (env : Env)
    (ctx : ExecContext) : list event :=
  (if debug then [Log "debug" "Schema:"; Print (safe_dump w (original env))]
   else [])
  ++ (if verbose then
        [Log "debug" "Environment:";
         Print (repr w (set_containerFile None
                          (if debug then set_original None env else env))
                  +:+ String "010" EmptyString)]
      else [])
  ++ (if startswith "localhost/" (image env) && truthy (ctx_containerFile ctx)
      then [Log "info" "Containerfile:";
            Print (strip (default EmptyString (ctx_containerFile ctx))
                     +:+ String "010" EmptyString)]
      else [])
  ++ (if verbose && startswith "localhost/" (image env)
         && truthy (containerUpdate ctx)
      then [Log "info" "Containerfile for update:";
            Print (strip (default EmptyString (containerUpdate ctx))
                     +:+ String "010" EmptyString)]
      else []).

(** [keeps f m]: the block [m] leaves the view [f] of the state as it
    was, however it ends. *)
Definition keeps {S A B} (f : S -> B) (m : M S A) : Prop :=
  forall s, f (m s).2 = f s.

(** [reachesLifecycle w args a notify cacheDir ctx tr]: the first [try]
    block of the run of [args] yields the context [ctx] with the trace
    [tr], and [--show] is not set. *)
Definition reachesLifecycle (w : World) (args a : Namespace)
    (notify : UserNotif) (cacheDir : string) (ctx : ExecContext)
    (tr : trace) : Prop :=
  exists a1 tr0 env,
    startup w args [] = (Ret (a1, notify, cacheDir), tr0)
    /\ prelude w a1 notify tr0 = (Ret (Some (a, env, ctx)), tr)
    /\ args_show args = false.

(** The two calls at the start of the execution phase. *)
Definition preTasksCall (ctx : ExecContext) : call :=
  ExecuteHostTasks (hostPreTasks ctx).
Definition podCall (ctx : ExecContext) : call :=
  ExecutePod (name ctx) (getArgs ctx) (imageName ctx) (commandArgs ctx).
Definition postTasksCall (ctx : ExecContext) : call :=
  ExecuteHostTasks (hostPostTasks ctx).

(* ===================================================================== *)
(** ** Concrete inputs of the further properties *)
(* ===================================================================== *)

(** An environment that already has variables and a capability. *)
Definition envWithVars : Env := {|
  envName := "dev"; description := "development shell";
  image := "localhost/dev"; command := ["/bin/sh"];
  capabilities := {["network" := true]};
  environ := Some {["TERM" := "xterm"; "LANG" := "en_US"]};
  network := None; home := None;
  original := None; containerFile := None;
|}.

(** [-e LANG=C -e PATH=/bin -e LANG=fr_FR] *)
Definition argsThreeEnviron : Namespace :=
  set_args_environ (Some ["LANG=C"; "PATH=/bin"; "LANG=fr_FR"]) noArgs.

(** [--terminal --x11]: [x11] is not in the table of [exampleHost]. *)
Definition argsTerminalX11 : Namespace :=
  set_flags {["terminal"; "x11"]} noArgs.

Definition set_args_image (i : option string) (a : Namespace) : Namespace :=
  mkNamespace (args_verbose a) (args_debug a) (args_config a) (args_expr a)
    (args_show a) (args_list a) (args_shell a) (args_net a) (args_home a)
    (args_environ a) i (args_rebuild a) (args_update a)
    (args_flags a) (args_env a) (args_args a).
Definition set_args_net (n : option string) (a : Namespace) : Namespace :=
  mkNamespace (args_verbose a) (args_debug a) (args_config a) (args_expr a)
    (args_show a) (args_list a) (args_shell a) n (args_home a)
    (args_environ a) (args_image a) (args_rebuild a) (args_update a)
    (args_flags a) (args_env a) (args_args a).
Definition set_show (b : bool) (a : Namespace) : Namespace :=
  mkNamespace (args_verbose a) (args_debug a) (args_config a) (args_expr a)
    b (args_list a) (args_shell a) (args_net a) (args_home a)
    (args_environ a) (args_image a) (args_rebuild a) (args_update a)
    (args_flags a) (args_env a) (args_args a).

(** [-i fedora --net host --home ~/work] *)
Definition argsImageNetHome : Namespace :=
  set_args_home (Some "~/work")
    (set_args_net (Some "host") (set_args_image (Some "fedora") noArgs)).

(** [--update --rebuild --show] *)
Definition argsUpdateRebuildShow : Namespace :=
  set_show true argsUpdateRebuild.

(** [--home /does/not/exist --list] *)
Definition argsBadHomeList : Namespace := set_list true argsBadHome.


(** The configuration file cannot be loaded. *)
Definition brokenConfigWorld : World :=
  mkWorld (host exampleWorld) (os_environ exampleWorld)
    (stdout_isatty exampleWorld) (bus_exists exampleWorld)
    (format_help exampleWorld)
    (fun _ _ f _ => Raise (RuntimeError (f +:+ ": No such file or directory")))
    (getEnv exampleWorld) (prepareEnv exampleWorld)
    (pod exampleWorld) (safe_dump exampleWorld) (repr exampleWorld)
    (prettyCmd exampleWorld).

(** [prod]: an environment name the configuration does not define. *)
Definition argsProd : Namespace := set_env "prod" noArgs.

(** A host where [~nobody] has no home directory. *)
Definition noHomeHost : Host := {|
  Capabilities := Capabilities exampleHost;
  expanduser := fun p =>
    if startswith "~nobody" p
    then Raise (RuntimeError "Could not determine home directory.")
    else expanduser exampleHost p;
  resolve_strict := resolve_strict exampleHost;
|}.

Definition noHomeWorld : World :=
  mkWorld noHomeHost (os_environ exampleWorld)
    (stdout_isatty exampleWorld) (bus_exists exampleWorld)
    (format_help exampleWorld) (loadConfig exampleWorld)
    (getEnv exampleWorld) (prepareEnv exampleWorld)
    (pod exampleWorld) (safe_dump exampleWorld) (repr exampleWorld)
    (prettyCmd exampleWorld).

(** [--home ~nobody/work] *)
Definition argsNobodyHome : Namespace :=
  set_args_home (Some "~nobody/work") noArgs.

(** [PODENV_CONFIG=/etc/podenv.dhall] in the environment of the process. *)
Definition podenvConfigWorld : World :=
  mkWorld (host exampleWorld) {["PODENV_CONFIG" := "/etc/podenv.dhall"]}
    (stdout_isatty exampleWorld) (bus_exists exampleWorld)
    (format_help exampleWorld) (loadConfig exampleWorld)
    (getEnv exampleWorld) (prepareEnv exampleWorld)
    (pod exampleWorld) (safe_dump exampleWorld) (repr exampleWorld)
    (prettyCmd exampleWorld).

(** [-c ./my.dhall] *)
Definition argsMyConfig : Namespace := set_config "./my.dhall" noArgs.

(** [--show] *)
Definition argsShow : Namespace := set_show true noArgs.

(** The context [compileEnv] gives for [exampleEnv]. *)
Definition exampleCtx : ExecContext := {|
  name := "dev"; imageName := "localhost/dev";
  getArgs := ["--rm"; "--name"; "dev"];
  commandArgs := ["/bin/sh"];
  ctx_containerFile := None; containerUpdate := None;
  hostPreTasks := ["mkdir -p ~/.cache/podenv"];
  hostPostTasks := ["rm -f /tmp/podenv.sock"];
|}.

(** A world where the adapter operations selected by [f] fail with a
    [RuntimeError], and all others succeed. *)
Definition failingWorld (f : call -> bool) (msg : string) : World :=
  withPod (fun c _ => if f c then Some (RuntimeError msg) else None)
          exampleWorld.

Definition isUpdateImage (c : call) : bool :=
  match c with UpdateImage _ _ _ => true | _ => false end.
Definition isSetupPod (c : call) : bool :=
  match c with SetupPod _ _ _ => true | _ => false end.
Definition isPreTasks (c : call) : bool :=
  match c with
  | ExecuteHostTasks t => bool_decide (t = hostPreTasks exampleCtx)
  | _ => false
  end.
Definition isExecutePod (c : call) : bool :=
  match c with ExecutePod _ _ _ _ => true | _ => false end.

(** [--update] *)
Definition argsUpdate : Namespace := set_update_rebuild true false noArgs.

(** The disk is full when the pod starts. *)
Definition diskFullWorld : World :=
  withPod (fun c _ =>
             match c with
             | ExecutePod _ _ _ _ =>
                 Some (OtherError "OSError"
                                  "[Errno 28] No space left on device")
             | _ => None
             end) exampleWorld.

(** The host pre-tasks are interrupted. *)
Definition interruptedPreTasksWorld : World :=
  withPod (fun c _ =>
             if isPreTasks c then Some KeyboardInterrupt else None)
          exampleWorld.

(** The pod is interrupted, and so is [killPod]. *)
Definition interruptedTwiceWorld : World :=
  withPod (fun c _ =>
             match c with
             | ExecutePod _ _ _ _ | KillPod _ => Some KeyboardInterrupt
             | _ => None
             end) exampleWorld.

(* ===================================================================== *)
(** ** Override resolution: properties *)
(* ===================================================================== *)

Section OverrideFacts.
Variable host : Host.
Variable args : Namespace.

Lemma split1_wellFormed s :
  contains "=" s = true -> exists k v, split1 "=" s = [k; v].
Proof.
  induction s as [|c s IH]; simpl; [discriminate|].
  destruct (Ascii.eqb c "=") eqn:E; simpl; [eauto|].
  intros H. destruct (IH H) as (k & v & ->). eauto.
Qed.

Lemma split1_malformed s :
  contains "=" s = false -> split1 "=" s = [s].
Proof.
  induction s as [|c s IH]; simpl; [done|].
  destruct (Ascii.eqb c "=") eqn:E; simpl; [discriminate|].
  intros H. by rewrite (IH H).
Qed.

Lemma overrideCapability_spec n env :
  exists env',
    overrideCapability args n env = (Ret tt, env')
    /\ capabilities env' !! n = flagState args n (capabilities env !! n)
    /\ (forall m, m <> n -> capabilities env' !! m = capabilities env !! m)
    /\ command env' = command env.
Proof.
  unfold overrideCapability, flagState, bind, when, modify, ret.
  destruct (getattr args (replace "-" "_" n));
    destruct (getattr args ("no_" +:+ replace "-" "_" n));
    eexists; (split; [reflexivity|]); simpl;
    repeat split; try done; intros;
    rewrite ?lookup_insert_eq; rewrite ?lookup_insert_ne by done; done.
Qed.

Lemma flagState_idem n old :
  flagState args n (flagState args n old) = flagState args n old.
Proof. unfold flagState. repeat case_match; done. Qed.

Lemma forEach_capabilities (l : list (string * string)) env :
  exists env',
    forEach l (fun c => overrideCapability args c.1) env = (Ret tt, env')
    /\ (forall n, capabilities env' !! n =
                  if bool_decide (n ∈ l.*1)
                  then flagState args n (capabilities env !! n)
                  else capabilities env !! n)
    /\ command env' = command env.
Proof.
  revert env. induction l as [|[c d] l IH]; intros env; simpl.
  - by exists env.
  - destruct (overrideCapability_spec c env) as (e1 & E1 & Hc & Ho & Hcmd).
    destruct (IH e1) as (e2 & E2 & H2 & Hcmd2).
    exists e2. unfold bind. rewrite E1. split; [done|].
    split; [|congruence]. intros n. rewrite H2.
    destruct (decide (n = c)) as [->|Hne].
    + rewrite Hc, flagState_idem.
      assert (c ∈ ((c, d) :: l).*1)
        by (rewrite fmap_cons; apply elem_of_cons; by left).
      rewrite (bool_decide_eq_true_2 _ H). by case_bool_decide.
    + rewrite Ho by done.
      assert (n ∈ ((c, d) :: l).*1 <-> n ∈ l.*1)
        by (rewrite fmap_cons, elem_of_cons; simpl; tauto).
      by rewrite (bool_decide_ext _ _ H).
Qed.

Lemma overrideCapabilities_spec env :
  exists env',
    overrideCapabilities host args env = (Ret tt, env')
    /\ (forall n, capabilities env' !! n =
                  if bool_decide (n ∈ (Capabilities host).*1)
                  then flagState args n (capabilities env !! n)
                  else capabilities env !! n)
    /\ command env' = command env.
Proof. apply forEach_capabilities. Qed.

Lemma overrideEnviron_wellFormed s env :
  wellFormed s ->
  exists env', overrideEnviron s env = (Ret tt, env')
               /\ capabilities env' = capabilities env
               /\ command env' = command env.
Proof.
  intros H. destruct (split1_wellFormed s H) as (k & v & E).
  unfold overrideEnviron, bind, unpack2, modify, ret. rewrite E.
  eexists. split; [reflexivity|]. by destruct (truthyDict (environ env)).
Qed.

Lemma overrideEnviron_malformed s env :
  contains "=" s = false ->
  overrideEnviron s env =
    (Raise (ValueError "not enough values to unpack (expected 2, got 1)"),
     env).
Proof.
  intros H. unfold overrideEnviron, bind, unpack2, raise.
  by rewrite (split1_malformed s H).
Qed.

Lemma forEach_environ_wellFormed l env :
  Forall wellFormed l ->
  exists env', forEach l overrideEnviron env = (Ret tt, env')
               /\ capabilities env' = capabilities env
               /\ command env' = command env.
Proof.
  intros H. revert env. induction H as [|s l Hs _ IH]; intros env; simpl.
  - by exists env.
  - destruct (overrideEnviron_wellFormed s env Hs) as (e1 & E1 & C1 & D1).
    destruct (IH e1) as (e2 & E2 & C2 & D2).
    exists e2. unfold bind. rewrite E1. repeat split; congruence.
Qed.

Lemma forEach_environ_malformed l env :
  Exists (fun s => contains "=" s = false) l ->
  exists env',
    forEach l overrideEnviron env =
      (Raise (ValueError "not enough values to unpack (expected 2, got 1)"),
       env')
    /\ capabilities env' = capabilities env.
Proof.
  intros H. revert env. induction H as [s l Hs|s l _ IH]; intros env; simpl.
  - exists env. unfold bind. by rewrite overrideEnviron_malformed.
  - destruct (contains "=" s) eqn:Hs.
    + destruct (overrideEnviron_wellFormed s env Hs) as (e1 & E1 & C1 & _).
      destruct (IH e1) as (e2 & E2 & C2).
      exists e2. unfold bind. rewrite E1. split; congruence.
    + exists env. unfold bind. by rewrite overrideEnviron_malformed.
Qed.

Lemma environStep_forEach :
  environStep args = forEach (environEntries args) overrideEnviron.
Proof.
  unfold environStep, environEntries.
  by destruct (args_environ args) as [[|]|].
Qed.
End OverrideFacts.

Section OverrideOthersFacts.
Variable host : Host.
Variable args : Namespace.

(** The last three overrides (image, network, home) touch neither the
    capabilities nor the command. *)
Lemma overrideOthers_spec env :
  Forall wellFormed (environEntries args) ->
  exists r env',
    overrideOthers host args env = (r, env')
    /\ capabilities env' =
         (if args_shell args then <["terminal" := true]> (capabilities env)
          else capabilities env)
    /\ command env' =
         (if args_shell args then ["/bin/bash"] else command env)
    /\ (args_home args = None -> r = Ret tt).
Proof.
  intros Hwf. unfold overrideOthers.
  rewrite environStep_forEach.
  destruct (forEach_environ_wellFormed _ env Hwf) as (e1 & E1 & C1 & D1).
  unfold bind at 1. rewrite E1.
  unfold bind, when, modify, ret, liftResult.
  destruct (args_shell args); simpl;
    destruct (args_image args) as [i|]; simpl;
    try destruct (negb (i =? EmptyString)%string); simpl;
    destruct (args_net args) as [n|]; simpl;
    try destruct (negb (n =? EmptyString)%string); simpl;
    destruct (args_home args) as [p|]; simpl;
    try destruct (negb (p =? EmptyString)%string); simpl;
    try destruct (expanduser host p) as [q|]; simpl;
    try destruct (resolve_strict host q); simpl;
    do 2 eexists; (split; [reflexivity|]); simpl;
    rewrite ?C1, ?D1; repeat split; done.
Qed.

(** Without the hypothesis on the [-e] entries: only [--shell] can
    change a capability, and only [terminal]. *)
Lemma overrideOthers_capabilities env n :
  n <> "terminal" \/ args_shell args = false ->
  capabilities (overrideOthers host args env).2 !! n = capabilities env !! n.
Proof.
  intros Hn. unfold overrideOthers.
  rewrite environStep_forEach.
  destruct (decide (Exists (fun s => contains "=" s = false)
                      (environEntries args))) as [Hex|Hall].
  - destruct (forEach_environ_malformed _ env Hex) as (e1 & E1 & C1).
    unfold bind at 1. rewrite E1. simpl. by rewrite C1.
  - assert (Forall wellFormed (environEntries args)) as Hwf.
    { apply Forall_forall. intros s Hs. unfold wellFormed.
      destruct (contains "=" s) eqn:E; [done|].
      exfalso. apply Hall. apply Exists_exists. eauto. }
    destruct (overrideOthers_spec env Hwf) as (r & e' & E & C & _).
    unfold overrideOthers in E.
    rewrite environStep_forEach in E. rewrite E. simpl. rewrite C.
    destruct Hn as [Hn| ->]; [|done].
    destruct (args_shell args); [|done]. by rewrite lookup_insert_ne.
Qed.

Lemma applyCommandLineOverride_split env :
  applyCommandLineOverride host args env =
    overrideOthers host args (overrideCapabilities host args env).2.
Proof.
  unfold applyCommandLineOverride, bind.
  by destruct (overrideCapabilities_spec host args env) as (e1 & -> & _).
Qed.
End OverrideOthersFacts.

(** *** Enable and disable flags of one capability *)

(** C1, as the specification has it, at [--terminal --no-terminal]: the
    call returns without any error and the capability is off. *)
Lemma conflicting_flags_resolve_silently :
  getattr argsConflict "terminal" = true
  /\ getattr argsConflict "no_terminal" = true
  /\ (applyCommandLineOverride exampleHost argsConflict exampleEnv).1 = Ret tt
  /\ capabilities
       (applyCommandLineOverride exampleHost argsConflict exampleEnv).2
       !! "terminal" = Some false.
Proof. vm_compute. done. Qed.

(** C1 (amended): when both [--<name>] and [--no-<name>] are set for a
    capability of the table, the loop over the table raises nothing and
    leaves the capability off, and so does the whole of
    [applyCommandLineOverride] unless the capability is [terminal] and
    [--shell] is set; the call returns normally when the [-e] entries are
    well formed and no [--home] is given. *)
Theorem conflicting_flags_disable_wins
    (host : Host) (args : Namespace) (env : Env) (name : string) :
  name ∈ (Capabilities host).*1 ->
  getattr args (replace "-" "_" name) = true ->
  getattr args ("no_" +:+ replace "-" "_" name) = true ->
  (overrideCapabilities host args env).1 = Ret tt
  /\ capabilities (overrideCapabilities host args env).2 !! name = Some false
  /\ (name <> "terminal" \/ args_shell args = false ->
      capabilities (applyCommandLineOverride host args env).2 !! name
        = Some false)
  /\ (Forall wellFormed (environEntries args) -> args_home args = None ->
      (applyCommandLineOverride host args env).1 = Ret tt).
Proof.
  intros Hin Hen Hno.
  destruct (overrideCapabilities_spec host args env) as (e1 & E1 & C1 & _).
  assert (capabilities e1 !! name = Some false) as Hoff.
  { rewrite C1, bool_decide_eq_true_2 by done.
    unfold flagState. by rewrite Hno. }
  rewrite applyCommandLineOverride_split, E1. simpl.
  repeat split; [done| |].
  - intros H. by rewrite overrideOthers_capabilities.
  - intros Hwf Hhome.
    destruct (overrideOthers_spec host args e1 Hwf)
      as (r & e2 & -> & _ & _ & Hr).
    simpl. auto.
Qed.

Lemma conflicting_flags_disable_wins_witness :
  (overrideCapabilities exampleHost argsConflict exampleEnv).1 = Ret tt
  /\ capabilities (overrideCapabilities exampleHost argsConflict exampleEnv).2
       !! "terminal" = Some false
  /\ ("terminal" <> "terminal" \/ args_shell argsConflict = false ->
      capabilities
        (applyCommandLineOverride exampleHost argsConflict exampleEnv).2
        !! "terminal" = Some false)
  /\ (Forall wellFormed (environEntries argsConflict) ->
      args_home argsConflict = None ->
      (applyCommandLineOverride exampleHost argsConflict exampleEnv).1
        = Ret tt).
Proof.
  apply (conflicting_flags_disable_wins exampleHost argsConflict exampleEnv
           "terminal").
  - simpl. apply list_elem_of_here.
  - vm_compute. reflexivity.
  - vm_compute. reflexivity.
Defined.

(** *** Precedence of [--shell] over the capability flags *)

(** C2, as the specification has it, at [--no-terminal --shell]: the
    flag loop leaves [terminal] off and the shell override turns it on. *)
Lemma shell_overrides_no_terminal :
  getattr argsNoTerminalShell "no_terminal" = true
  /\ args_shell argsNoTerminalShell = true
  /\ capabilities
       (overrideCapabilities exampleHost argsNoTerminalShell exampleEnv).2
       !! "terminal" = Some false
  /\ applyCommandLineOverride exampleHost argsNoTerminalShell exampleEnv
     = (Ret tt,
        set_command ["/bin/bash"]
          (set_capability "terminal" true
             (set_capability "terminal" false exampleEnv)))
  /\ capabilities
       (applyCommandLineOverride exampleHost argsNoTerminalShell exampleEnv).2
       !! "terminal" = Some true.
Proof. vm_compute. done. Qed.

(** C2 (amended): the additional overrides (environ entries, shell mode,
    image, network, home) leave every capability as the loop over the
    per-capability flags left it, except [terminal] when [--shell] is
    set: then [terminal] is on after [applyCommandLineOverride], also
    with [--no-terminal], provided the [-e] entries are well formed. *)
Theorem additional_overrides_keep_capabilities
    (host : Host) (args : Namespace) (env : Env) :
  let flagged := (overrideCapabilities host args env).2 in
  let final := (applyCommandLineOverride host args env).2 in
  (forall name : string,
      name <> "terminal" \/ args_shell args = false ->
      capabilities final !! name = capabilities flagged !! name)
  /\ (args_shell args = true ->
      Forall wellFormed (environEntries args) ->
      capabilities final !! "terminal" = Some true).
Proof.
  intros flagged final. subst flagged final.
  rewrite applyCommandLineOverride_split. split.
  - intros n Hn. by apply overrideOthers_capabilities.
  - intros Hs Hwf.
    destruct (overrideOthers_spec host args
                (overrideCapabilities host args env).2 Hwf)
      as (r & e2 & -> & C & _).
    simpl. rewrite C, Hs. apply lookup_insert_eq.
Qed.

Lemma additional_overrides_keep_capabilities_witness :
  capabilities
    (applyCommandLineOverride exampleHost argsNoTerminalShell exampleEnv).2
    !! "network"
  = capabilities
      (overrideCapabilities exampleHost argsNoTerminalShell exampleEnv).2
      !! "network"
  /\ capabilities
       (applyCommandLineOverride exampleHost argsNoTerminalShell exampleEnv).2
       !! "terminal" = Some true.
Proof.
  destruct (additional_overrides_keep_capabilities exampleHost
              argsNoTerminalShell exampleEnv) as [H1 H2].
  split.
  - apply H1. left. discriminate.
  - apply H2; [reflexivity|]. simpl. constructor.
Defined.

(** *** Shell mode *)

(** C3: with [--shell], whatever the environment and its command, the
    environment has [capabilities["terminal"] = True] and
    [command = ["/bin/bash"]] once its [-e] entries, which are unpacked
    before, are well formed; the call returns normally when no [--home]
    is given. *)
Theorem shell_forces_terminal_and_command
    (host : Host) (args : Namespace) (env : Env) :
  args_shell args = true ->
  Forall wellFormed (environEntries args) ->
  capabilities (applyCommandLineOverride host args env).2 !! "terminal"
    = Some true
  /\ command (applyCommandLineOverride host args env).2 = ["/bin/bash"]
  /\ (args_home args = None ->
      (applyCommandLineOverride host args env).1 = Ret tt).
Proof.
  intros Hs Hwf. rewrite applyCommandLineOverride_split.
  destruct (overrideOthers_spec host args
              (overrideCapabilities host args env).2 Hwf)
    as (r & e2 & -> & C & D & Hr).
  simpl. rewrite C, D, Hs. split; [apply lookup_insert_eq|]. auto.
Qed.

Lemma shell_forces_terminal_and_command_witness :
  capabilities (applyCommandLineOverride exampleHost argsShell exampleEnv).2
    !! "terminal" = Some true
  /\ command (applyCommandLineOverride exampleHost argsShell exampleEnv).2
     = ["/bin/bash"]
  /\ (args_home argsShell = None ->
      (applyCommandLineOverride exampleHost argsShell exampleEnv).1 = Ret tt).
Proof.
  apply (shell_forces_terminal_and_command exampleHost argsShell exampleEnv).
  - reflexivity.
  - simpl. repeat constructor.
Defined.

(** *** Malformed environ entries *)

(** C7, as the specification has it, at [-e LANG=C -e DEBUG]: what is
    raised is a [ValueError], which no [except RuntimeError] catches. *)
Lemma malformed_environ_not_config_error :
  (applyCommandLineOverride exampleHost argsBadEnviron exampleEnv).1
    = Raise (ValueError "not enough values to unpack (expected 2, got 1)")
  /\ isRuntimeError
       (ValueError "not enough values to unpack (expected 2, got 1)") = false.
Proof. vm_compute. done. Qed.

(* ===================================================================== *)
(** ** What a block adds to the trace *)
(* ===================================================================== *)

Section EmitsOnly.
Context (P : event -> Prop).

Lemma emitsOnly_ret {A} (a : A) : emitsOnly P (ret a).
Proof. intros tr. exists []. by rewrite app_nil_r. Qed.

Lemma emitsOnly_raise {A} e : emitsOnly P (@raise trace A e).
Proof. intros tr. exists []. by rewrite app_nil_r. Qed.

Lemma emitsOnly_liftResult {A} (r : result A) : emitsOnly P (liftResult r).
Proof. intros tr. exists []. by rewrite app_nil_r. Qed.

Lemma emitsOnly_emit ev : P ev -> emitsOnly P (emit ev).
Proof. intros H tr. exists [ev]. split; [done|]. by constructor. Qed.

Lemma emitsOnly_invoke {A} c (r : result A) :
  P (Called c (outcome r)) -> emitsOnly P (invoke c r).
Proof. intros H tr. eexists [_]. split; [done|]. by constructor. Qed.

Lemma emitsOnly_perform w c :
  (forall o, P (Called c o)) -> emitsOnly P (perform w c).
Proof.
  intros H tr. unfold perform.
  destruct (pod w c tr); eexists [_]; (split; [done|]); by constructor.
Qed.

Lemma emitsOnly_mutating {S A} (m : M S A) s : emitsOnly P (mutating m s).
Proof.
  intros tr. exists []. rewrite app_nil_r. unfold mutating.
  by destruct (m s) as [[]].
Qed.

Lemma emitsOnly_bind {A B} (m : M trace A) (k : A -> M trace B) :
  emitsOnly P m -> (forall a, emitsOnly P (k a)) -> emitsOnly P (bind m k).
Proof.
  intros Hm Hk tr. unfold bind.
  destruct (Hm tr) as (e1 & E1 & F1).
  destruct (m tr) as [[a|e] tr1]; simpl in E1; subst tr1.
  - destruct (Hk a (tr ++ e1)) as (e2 & E2 & F2).
    exists (e1 ++ e2). rewrite E2, app_assoc. split; [done|].
    by apply Forall_app.
  - by exists e1.
Qed.

Lemma emitsOnly_exceptRuntimeError {A} (body : M trace A) handler :
  emitsOnly P body -> (forall msg, emitsOnly P (handler msg)) ->
  emitsOnly P (exceptRuntimeError body handler).
Proof.
  intros Hm Hk tr. unfold exceptRuntimeError.
  destruct (Hm tr) as (e1 & E1 & F1).
  destruct (body tr) as [[a|e] tr1]; simpl in E1; subst tr1.
  - by exists e1.
  - destruct e; try by exists e1.
    destruct (Hk msg (tr ++ e1)) as (e2 & E2 & F2).
    exists (e1 ++ e2). rewrite E2, app_assoc. split; [done|].
    by apply Forall_app.
Qed.

Lemma emitsOnly_tryExcept {A} (body : M trace A) handlers :
  emitsOnly P body ->
  (forall e handler, handlers e = Some handler -> emitsOnly P handler) ->
  emitsOnly P (tryExcept body handlers).
Proof.
  intros Hm Hk tr. unfold tryExcept.
  destruct (Hm tr) as (e1 & E1 & F1).
  destruct (body tr) as [[a|e] tr1]; simpl in E1; subst tr1.
  - by exists e1.
  - destruct (handlers e) as [handler|] eqn:Hh; [|by exists e1].
    destruct (Hk e handler Hh (tr ++ e1)) as (e2 & E2 & F2).
    exists (e1 ++ e2). rewrite E2, app_assoc. split; [done|].
    by apply Forall_app.
Qed.

Lemma emitsOnly_when b (m : M trace unit) :
  emitsOnly P m -> emitsOnly P (when b m).
Proof. destruct b; [done|]. intros _. apply emitsOnly_ret. Qed.

Lemma emitsOnly_forEach {A} (l : list A) (body : A -> M trace unit) :
  (forall a, emitsOnly P (body a)) -> emitsOnly P (forEach l body).
Proof.
  intros H. induction l as [|a l IH]; simpl.
  - apply emitsOnly_ret.
  - apply emitsOnly_bind; auto.
Qed.

Lemma emitsOnly_mono {A} (Q : event -> Prop) (m : M trace A) :
  (forall ev, Q ev -> P ev) -> emitsOnly Q m -> emitsOnly P m.
Proof.
  intros H Hm tr. destruct (Hm tr) as (evs & E & F).
  exists evs. split; [done|]. eapply Forall_impl; eauto.
Qed.
End EmitsOnly.

Lemma emitsOnly_bind_post {A B} (P : event -> Prop) (Q : A -> Prop)
    (m : M trace A) (k : A -> M trace B) :
  (forall tr a tr', m tr = (Ret a, tr') -> Q a) ->
  emitsOnly P m -> (forall a, Q a -> emitsOnly P (k a)) ->
  emitsOnly P (bind m k).
Proof.
  intros HQ Hm Hk tr. unfold bind.
  destruct (Hm tr) as (e1 & E1 & F1).
  destruct (m tr) as [[a|e] tr1] eqn:Hmt; simpl in E1; subst tr1.
  - destruct (Hk a (HQ _ _ _ Hmt) (tr ++ e1)) as (e2 & E2 & F2).
    exists (e1 ++ e2). rewrite E2, app_assoc. split; [done|].
    by apply Forall_app.
  - by exists e1.
Qed.

(** Break the conditionals of a block and apply the rules above. *)
Ltac emits :=
  repeat first
    [ progress intros
    | apply emitsOnly_bind
    | apply emitsOnly_exceptRuntimeError
    | apply emitsOnly_when
    | apply emitsOnly_forEach
    | apply emitsOnly_ret
    | apply emitsOnly_raise
    | apply emitsOnly_liftResult
    | apply emitsOnly_mutating
    | apply emitsOnly_emit
    | apply emitsOnly_invoke
    | apply emitsOnly_perform
    | match goal with
      | |- emitsOnly _ (if ?b then _ else _) => destruct b
      | |- emitsOnly _ (match ?x with _ => _ end) => destruct x
      | |- emitsOnly _ (let '(_, _) := ?x in _) => destruct x
      end
    | reflexivity ].

Section PhaseTraces.
Variable w : World.

Lemma listEnv_quiet envs : emitsOnly quiet (listEnv envs).
Proof. unfold listEnv. emits. Qed.

Lemma applyEnvironOverride_quiet args :
  emitsOnly quiet (applyEnvironOverride w args).
Proof. unfold applyEnvironOverride. emits. Qed.

Lemma startup_quiet args : emitsOnly quiet (startup w args).
Proof.
  unfold startup. emits. apply applyEnvironOverride_quiet.
Qed.

Lemma fail_quiet {A} notify msg code :
  emitsOnly quiet (@fail w A notify msg code).
Proof. unfold fail. emits. Qed.

Lemma reportFailure_quiet {A} args notify msg :
  emitsOnly quiet (@reportFailure w A args notify msg).
Proof. unfold reportFailure. emits. Qed.

Lemma resolveEnv_quiet args : emitsOnly quiet (resolveEnv w args).
Proof. unfold resolveEnv. emits. apply listEnv_quiet. Qed.

Lemma prelude_quiet args notify : emitsOnly quiet (prelude w args notify).
Proof.
  unfold prelude. emits;
    first [apply listEnv_quiet | apply reportFailure_quiet].
Qed.

Lemma showEnv_quiet verbose debug env ctx :
  emitsOnly quiet (showEnv w verbose debug env ctx).
Proof. unfold showEnv. emits. Qed.

Lemma fail_raises {A} notify msg code tr :
  exists e tr', @fail w A notify msg code tr = (Raise e, tr').
Proof.
  unfold fail, bind, perform, emit, raise.
  destruct notify; try (by eauto).
  destruct (pod w (DesktopNotification msg) tr); eauto.
Qed.

Lemma fail_1_reported notify msg tr :
  exists r evs,
    @fail w unit notify msg 1 tr = (r, tr ++ evs) /\ reportedFailure msg r evs.
Proof.
  unfold fail, bind, perform, emit, raise, reportedFailure.
  destruct notify; try (do 2 eexists; split; [reflexivity|]; by eauto).
  destruct (pod w (DesktopNotification msg) tr);
    do 2 eexists; (split; [reflexivity|]); eauto.
Qed.

Lemma reportFailure_raises {A} args notify msg tr :
  exists e tr', @reportFailure w A args notify msg tr = (Raise e, tr').
Proof.
  unfold reportFailure. destruct (args_debug args); [by eauto|].
  apply fail_raises.
Qed.
End PhaseTraces.

(** Close a goal where the handler of a [try] block is assumed to have
    returned. *)
Ltac handler_never_returns :=
  match goal with
  | H : @reportFailure ?w ?A ?a ?n ?m ?t = (Ret _, _) |- _ =>
      let E := fresh "E" in
      destruct (@reportFailure_raises w A a n m t) as (? & ? & E);
      rewrite E in H; discriminate
  end.

(* ===================================================================== *)
(** ** From the command line to override resolution *)
(* ===================================================================== *)

Lemma sameRequest_refl a : sameRequest a a.
Proof. by constructor. Qed.

Lemma sameRequest_trans a b c :
  sameRequest a b -> sameRequest b c -> sameRequest a c.
Proof. intros [] []. constructor; congruence. Qed.

Lemma applyCommandLineOverride_ext host a b env :
  sameRequest a b ->
  applyCommandLineOverride host b env = applyCommandLineOverride host a env.
Proof. destruct a, b. intros []. simpl in *. by subst. Qed.

Section RunFacts.
Variable w : World.

Lemma startup_spec args tr a1 notify cacheDir tr0 :
  startup w args tr = (Ret (a1, notify, cacheDir), tr0) ->
  sameRequest args a1
  /\ args_env a1 = args_env args
  /\ expanduser (host w) "~/.cache/podenv" = Ret cacheDir
  /\ exists evs, tr0 = tr ++ evs /\ Forall quiet evs.
Proof.
  intros H.
  destruct (startup_quiet w args tr) as (evs & E & F).
  rewrite H in E. simpl in E. split; [|split; [|split; [|by eauto]]].
  - clear E F. revert H.
    unfold startup, applyEnvironOverride, bind, liftResult, ret, when, emit.
    destruct (args_debug args) eqn:Hd;
      repeat case_match; intros; simplify_eq; by constructor.
  - clear E F. revert H.
    unfold startup, applyEnvironOverride, bind, liftResult, ret, when, emit.
    destruct (args_debug args) eqn:Hd;
      repeat case_match; intros; by simplify_eq.
  - clear E F. revert H. unfold startup, bind, liftResult.
    destruct (expanduser (host w) "~/.cache/podenv"); [|done].
    unfold applyEnvironOverride, bind, ret, when, emit.
    repeat case_match; intros; by simplify_eq.
Qed.

Lemma resolveEnv_spec args tr a2 env tr1 :
  resolveEnv w args tr = (Ret (Some (a2, env)), tr1) ->
  sameRequest args a2
  /\ exists evs, tr1 = tr ++ evs /\ Forall quiet evs.
Proof.
  intros H.
  destruct (resolveEnv_quiet w args tr) as (evs & E & F).
  rewrite H in E. simpl in E. split; [|by eauto].
  clear E F. revert H.
  unfold resolveEnv, bind, invoke, ret, raise, emit.
  repeat case_match; intros; simplify_eq; by constructor.
Qed.

(** An exception of override resolution that is not a [RuntimeError]
    ends the run: no clause of [run] catches it. *)
Lemma run_override_raises args a1 notify cacheDir tr0 a2 env tr1 e :
  startup w args [] = (Ret (a1, notify, cacheDir), tr0) ->
  resolveEnv w a1 tr0 = (Ret (Some (a2, env)), tr1) ->
  (applyCommandLineOverride (host w) args env).1 = Raise e ->
  isRuntimeError e = false ->
  run w args [] = (Raise e, tr1) /\ Forall quiet tr1.
Proof.
  intros Hs Hr Ho He.
  destruct (startup_spec _ _ _ _ _ _ Hs) as (S1 & _ & _ & ev0 & -> & F0).
  destruct (resolveEnv_spec _ _ _ _ _ Hr) as (S2 & ev1 & -> & F1).
  split; [|by apply Forall_app].
  unfold run, bind at 1. rewrite Hs.
  unfold bind at 1, prelude, exceptRuntimeError, bind at 1. rewrite Hr.
  unfold bind at 1, mutating.
  rewrite (applyCommandLineOverride_ext _ args a2)
    by (eapply sameRequest_trans; eauto).
  destruct (applyCommandLineOverride (host w) args env) as [[[]|e'] env'];
    simpl in Ho; [done|]. simplify_eq. by destruct e.
Qed.
End RunFacts.

Section OverrideFailures.
Variable host : Host.
Variable args : Namespace.

Lemma overrideOthers_home_fails env h p e :
  Forall wellFormed (environEntries args) ->
  args_home args = Some h -> h <> EmptyString ->
  expanduser host h = Ret p ->
  resolve_strict host p = Raise e ->
  (overrideOthers host args env).1 = Raise e.
Proof.
  intros Hwf Hh Hne Hp He. unfold overrideOthers.
  rewrite environStep_forEach.
  destruct (forEach_environ_wellFormed _ env Hwf) as (e1 & E1 & _).
  unfold bind at 1. rewrite E1. rewrite Hh.
  assert (truthy (Some h) = true) as ->.
  { simpl. apply negb_true_iff. by apply String.eqb_neq. }
  unfold bind, when, modify, ret, liftResult. rewrite Hp, He.
  repeat case_match; by simplify_eq.
Qed.

Lemma overrideOthers_environ_fails env :
  Exists (fun s => contains "=" s = false) (environEntries args) ->
  (overrideOthers host args env).1
    = Raise (ValueError "not enough values to unpack (expected 2, got 1)").
Proof.
  intros Hex. unfold overrideOthers. rewrite environStep_forEach.
  destruct (forEach_environ_malformed _ env Hex) as (e1 & E1 & _).
  unfold bind at 1. by rewrite E1.
Qed.
End OverrideFailures.

Section OverrideNeverReturns.
Variable w : World.
Variable args : Namespace.
Variable e : exn.
Hypothesis override_raises :
  forall env, (applyCommandLineOverride (host w) args env).1 = Raise e.

(** When override resolution cannot succeed, the first [try] block of
    [run] yields no execution context. *)
Lemma prelude_without_context a1 notify tr r tr' :
  sameRequest args a1 ->
  prelude w a1 notify tr = (Ret r, tr') -> r = None.
Proof.
  intros S1. unfold prelude, exceptRuntimeError, bind at 1.
  destruct (resolveEnv w a1 tr) as [[[[a2 env]|]|e'] tr1] eqn:Hr.
  - destruct (resolveEnv_spec _ _ _ _ _ _ Hr) as [S2 _].
    unfold bind at 1, mutating.
    rewrite (applyCommandLineOverride_ext _ args a2)
      by (eapply sameRequest_trans; eauto).
    pose proof (override_raises env) as Ho.
    destruct (applyCommandLineOverride (host w) args env) as [[[]|e''] env'];
      simpl in Ho; [done|].
    destruct e''; intros; simplify_eq.
    handler_never_returns.
  - unfold ret. intros; by simplify_eq.
  - destruct e'; intros; simplify_eq.
    handler_never_returns.
Qed.

Lemma run_without_context_quiet : Forall quiet (run w args []).2.
Proof.
  assert (emitsOnly quiet (run w args)) as H.
  { unfold run.
    apply (emitsOnly_bind_post _ (fun s => sameRequest args s.1.1)).
    { intros tr [[a1 n] c] tr' H. by apply startup_spec in H as [? _]. }
    { apply startup_quiet. }
    intros [[a1 notify] cacheDir] S1. simpl in S1.
    apply (emitsOnly_bind_post _ (fun r => r = None)).
    { intros tr r tr' H. by eapply prelude_without_context. }
    { apply prelude_quiet. }
    intros r ->. apply emitsOnly_ret. }
  by destruct (H []) as (evs & -> & F).
Qed.
End OverrideNeverReturns.

(** C7 (amended): when an [-e] entry has no [=], applying the command
    line overrides fails with the [ValueError] of the tuple unpacking.
    It is not a [RuntimeError]: no clause of [run] catches it, and a run
    that reaches override resolution ends with this exception uncaught,
    exit status 1; no adapter operation is called in the invocation. *)
Theorem malformed_environ_raises_ValueError
    (w : World) (args : Namespace) :
  let err := ValueError "not enough values to unpack (expected 2, got 1)" in
  Exists (fun s => contains "=" s = false) (environEntries args) ->
  (forall env, (applyCommandLineOverride (host w) args env).1 = Raise err)
  /\ isRuntimeError err = false
  /\ Forall quiet (run w args []).2
  /\ (forall a1 notify cacheDir tr0 a2 env tr1,
        startup w args [] = (Ret (a1, notify, cacheDir), tr0) ->
        resolveEnv w a1 tr0 = (Ret (Some (a2, env)), tr1) ->
        run w args [] = (Raise err, tr1)
        /\ exitStatus (run w args []).1 = 1).
Proof.
  intros err Hex.
  assert (forall env,
             (applyCommandLineOverride (host w) args env).1 = Raise err) as H.
  { intros env. rewrite applyCommandLineOverride_split.
    by apply overrideOthers_environ_fails. }
  split; [done|]. split; [done|].
  split; [by eapply run_without_context_quiet|].
  intros a1 notify cacheDir tr0 a2 env tr1 Hs Hr.
  destruct (run_override_raises w args _ _ _ _ _ _ _ err Hs Hr (H env) eq_refl)
    as [-> F].
  done.
Qed.

Lemma malformed_environ_raises_ValueError_witness :
  (applyCommandLineOverride exampleHost argsBadEnviron exampleEnv).1
    = Raise (ValueError "not enough values to unpack (expected 2, got 1)")
  /\ Forall quiet (run exampleWorld argsBadEnviron []).2
  /\ run exampleWorld argsBadEnviron [] =
       (Raise (ValueError "not enough values to unpack (expected 2, got 1)"),
        [Called (LoadConfig false None "~/.config/podenv/config.dhall" false)
                None;
         Called (GetEnv exampleConf "dev") None])
  /\ exitStatus (run exampleWorld argsBadEnviron []).1 = 1.
Proof.
  destruct (malformed_environ_raises_ValueError exampleWorld argsBadEnviron)
    as (H1 & _ & H2 & H3).
  - simpl. apply Exists_cons_tl, Exists_cons_hd. reflexivity.
  - split; [apply (H1 exampleEnv)|]. split; [exact H2|].
    eapply H3; vm_compute; reflexivity.
Defined.

(** C6, as the specification has it, at [--home /does/not/exist --list]:
    the table is printed before any override is looked at, the run
    returns and the exit status is 0. *)
Lemma missing_home_list_exits_0 :
  args_home argsBadHomeList = Some "/does/not/exist"
  /\ resolve_strict exampleHost "/does/not/exist"
     = Raise (FileNotFoundError
                "[Errno 2] No such file or directory: '/does/not/exist'")
  /\ run exampleWorld argsBadHomeList [] =
       (Ret tt,
        [Called (LoadConfig true None "~/.config/podenv/config.dhall" false)
                None;
         Print "NAME  DESCRIPTION";
         Print "dev   development shell"])
  /\ exitStatus (run exampleWorld argsBadHomeList []).1 = 0.
Proof. vm_compute. done. Qed.

(** C6 (amended): when the path given with [--home] expands but does
    not exist, override resolution fails with the path resolution error
    of [resolve(strict=True)], a [FileNotFoundError]; no operation of
    the runtime adapter is called in the invocation; a run that reaches
    override resolution (the configuration is loaded and the
    environment found, which a plain [--list] never does) ends with
    this exception, which no handler catches or reports, and the exit
    status is 1. *)
Theorem missing_home_fails_before_adapter
    (w : World) (args : Namespace) (h p msg : string) :
  args_home args = Some h -> h <> EmptyString ->
  expanduser (host w) h = Ret p ->
  resolve_strict (host w) p = Raise (FileNotFoundError msg) ->
  Forall wellFormed (environEntries args) ->
  (forall env,
      (applyCommandLineOverride (host w) args env).1
        = Raise (FileNotFoundError msg))
  /\ Forall quiet (run w args []).2
  /\ (forall a1 notify cacheDir tr0 a2 env tr1,
        startup w args [] = (Ret (a1, notify, cacheDir), tr0) ->
        resolveEnv w a1 tr0 = (Ret (Some (a2, env)), tr1) ->
        run w args [] = (Raise (FileNotFoundError msg), tr1)
        /\ exitStatus (run w args []).1 = 1).
Proof.
  intros Hh Hne Hp Hq Hwf.
  assert (forall env,
             (applyCommandLineOverride (host w) args env).1
               = Raise (FileNotFoundError msg)) as H.
  { intros env. rewrite applyCommandLineOverride_split.
    by eapply overrideOthers_home_fails. }
  split; [done|]. split; [by eapply run_without_context_quiet|].
  intros a1 notify cacheDir tr0 a2 env tr1 Hs Hr.
  destruct (run_override_raises w args _ _ _ _ _ _ _ _ Hs Hr (H env) eq_refl)
    as [-> F].
  done.
Qed.

Lemma missing_home_fails_before_adapter_witness :
  Forall quiet (run exampleWorld argsBadHome []).2
  /\ run exampleWorld argsBadHome [] =
       (Raise (FileNotFoundError
                 "[Errno 2] No such file or directory: '/does/not/exist'"),
        [Called (LoadConfig false None "~/.config/podenv/config.dhall" false)
                None;
         Called (GetEnv exampleConf "dev") None])
  /\ exitStatus (run exampleWorld argsBadHome []).1 = 1.
Proof.
  destruct (missing_home_fails_before_adapter exampleWorld argsBadHome
              "/does/not/exist" "/does/not/exist"
              "[Errno 2] No such file or directory: '/does/not/exist'")
    as (_ & H1 & H2); try (vm_compute; reflexivity).
  - intros E. discriminate E.
  - simpl. constructor.
  - split; [exact H1|]. eapply H2; vm_compute; reflexivity.
Defined.

(* ===================================================================== *)
(** ** Listing the environments *)
(* ===================================================================== *)

Lemma length_append (s t : string) :
  String.length (s +:+ t) = (String.length s + String.length t)%nat.
Proof. induction s as [|c s IH]; simpl; [done|]. by rewrite IH. Qed.

Lemma length_spaces n : String.length (spaces n) = n.
Proof. induction n; simpl; congruence. Qed.

Lemma length_ljust n s :
  (String.length s <= n)%nat -> String.length (ljust n s) = n.
Proof.
  intros H. unfold ljust. rewrite length_append, length_spaces. lia.
Qed.


Global Instance item_le_total : Total item_le.
Proof. intros a b. apply String.le_total. Qed.

Global Instance item_le_trans : Transitive item_le.
Proof. intros a b c. unfold item_le. apply transitivity. Qed.









(** The table printed for the two environments [web] and [dev]. *)
Example list_two_environments :
  run (withConf twoEnvConf exampleWorld) argsList [] =
    (Ret tt,
     [Called (LoadConfig true None "~/.config/podenv/config.dhall" false) None;
      Print "NAME  DESCRIPTION";
      Print "dev   development shell";
      Print "web   browser"]).
Proof. vm_compute. reflexivity. Qed.

(* ===================================================================== *)
(** ** The phases of [run] and the trace *)
(* ===================================================================== *)

Lemma bind_suffix {A B} (P : event -> Prop) (m : M trace A)
    (k : A -> M trace B) tr :
  (forall a, emitsOnly P (k a)) ->
  exists evs, (bind m k tr).2 = (m tr).2 ++ evs /\ Forall P evs.
Proof.
  intros Hk. unfold bind. destruct (m tr) as [[a|e] tr1]; simpl.
  - destruct (Hk a tr1) as (evs & E & F). eauto.
  - exists []. by rewrite app_nil_r.
Qed.

Lemma exceptRuntimeError_suffix {A} (P : event -> Prop) (body : M trace A)
    handler tr :
  (forall msg, emitsOnly P (handler msg)) ->
  exists evs,
    (exceptRuntimeError body handler tr).2 = (body tr).2 ++ evs /\ Forall P evs.
Proof.
  intros Hk. unfold exceptRuntimeError.
  destruct (body tr) as [[a|e] tr1]; simpl.
  - exists []. by rewrite app_nil_r.
  - destruct e; try (exists []; by rewrite app_nil_r).
    destruct (Hk msg tr1) as (evs & E & F). eauto.
Qed.

Section LifecycleTraces.
Variable w : World.
Variable P : event -> Prop.
Hypothesis P_output : forall ev, isOutput ev = true -> P ev.

Lemma fail_emitsOnly {A} notify msg code :
  emitsOnly P (@fail w A notify msg code).
Proof. unfold fail. emits; by apply P_output. Qed.

Lemma reportFailure_emitsOnly {A} args notify msg :
  emitsOnly P (@reportFailure w A args notify msg).
Proof. unfold reportFailure. emits; by apply P_output. Qed.

Lemma startup_emitsOnly args : emitsOnly P (startup w args).
Proof.
  unfold startup. emits. unfold applyEnvironOverride.
  emits; by apply P_output.
Qed.

Lemma showEnv_emitsOnly verbose debug env ctx :
  emitsOnly P (showEnv w verbose debug env ctx).
Proof. unfold showEnv. emits; by apply P_output. Qed.

Lemma updatePhase_emitsOnly args notify cacheDir ctx :
  (forall n c d o, P (Called (UpdateImage n c d) o)) ->
  emitsOnly P (updatePhase w args notify cacheDir ctx).
Proof.
  intros H. unfold updatePhase. emits; try done.
  apply reportFailure_emitsOnly.
Qed.

Lemma setupPhase_emitsOnly args notify cacheDir ctx :
  (forall n c r d o, P (Called (SetupImage n c r d) o)) ->
  (forall n c r o, P (Called (SetupPod n c r) o)) ->
  emitsOnly P (setupPhase w args notify cacheDir ctx).
Proof.
  intros H1 H2. unfold setupPhase. emits; try done.
  apply reportFailure_emitsOnly.
Qed.

Lemma executePhase_emitsOnly ctx :
  (forall t o, P (Called (ExecuteHostTasks t) o)) ->
  (forall n a i c o, P (Called (ExecutePod n a i c) o)) ->
  (forall n o, P (Called (KillPod n) o)) ->
  emitsOnly P (executePhase w ctx).
Proof.
  intros H1 H2 H3. unfold executePhase. apply emitsOnly_tryExcept.
  - emits; done.
  - intros e handler He. destruct e; simplify_eq; emits; done.
Qed.

Lemma postPhase_emitsOnly args notify ctx podResult :
  (forall t o, P (Called (ExecuteHostTasks t) o)) ->
  emitsOnly P (postPhase w args notify ctx podResult).
Proof.
  intros H. unfold postPhase. emits; try done; by apply P_output.
Qed.
End LifecycleTraces.

Section RunPhases.
Variable w : World.

Lemma prelude_spec args notify tr a2 env ctx tr1 :
  prelude w args notify tr = (Ret (Some (a2, env, ctx)), tr1) ->
  sameRequest args a2.
Proof.
  unfold prelude, exceptRuntimeError, bind at 1.
  destruct (resolveEnv w args tr) as [[[[a e]|]|e] tr'] eqn:Hr.
  - destruct (resolveEnv_spec _ _ _ _ _ _ Hr) as [S _].
    unfold bind, mutating, invoke, ret.
    repeat case_match; intros; simplify_eq; try done;
      handler_never_returns.
  - unfold ret. intros; simplify_eq.
  - destruct e; intros; simplify_eq.
    handler_never_returns.
Qed.

Lemma lifecycle_invalid_action args notify cacheDir ctx tr :
  args_update args = true -> args_rebuild args = true ->
  lifecycle w args notify cacheDir ctx tr =
    reportFailure w args notify "Invalid action --update --rebuild" tr.
Proof.
  intros Hu Hr. unfold lifecycle, bind at 1, updatePhase, exceptRuntimeError.
  rewrite Hu, Hr. simpl. unfold bind at 1, raise.
  destruct (reportFailure_raises w (A:=unit) args notify
              "Invalid action --update --rebuild" tr) as (e & tr' & ->).
  done.
Qed.

Lemma output_not_image ev : isOutput ev = true -> isImageCall ev = false.
Proof. by destruct ev as [[] ?| |]. Qed.

Lemma quiet_not_image ev : quiet ev -> isImageCall ev = false.
Proof. unfold quiet. by destruct ev as [[] ?| |]. Qed.

(** No event of a run with [--update --rebuild] is an image-mutating
    call. *)
Lemma run_update_rebuild_trace args :
  args_update args = true -> args_rebuild args = true ->
  emitsOnly (fun ev => isImageCall ev = false) (run w args).
Proof.
  intros Hu Hr. unfold run.
  apply (emitsOnly_bind_post _ (fun s => sameRequest args s.1.1)).
  { intros tr [[a1 n] c] tr' H. by apply startup_spec in H as [? _]. }
  { apply startup_emitsOnly, output_not_image. }
  intros [[a1 notify] cacheDir] S1. simpl in S1.
  apply (emitsOnly_bind_post _
           (fun r => forall a2 env ctx, r = Some (a2, env, ctx) ->
                                        sameRequest a1 a2)).
  { intros tr r tr' H a2 env ctx ->. by eapply prelude_spec. }
  { eapply emitsOnly_mono; [|apply prelude_quiet].
    apply quiet_not_image. }
  intros [[[a2 env] ctx]|] S2; [|apply emitsOnly_ret].
  specialize (S2 _ _ _ eq_refl).
  destruct (args_show a2).
  { apply showEnv_emitsOnly, output_not_image. }
  intros tr.
  rewrite lifecycle_invalid_action.
  - apply reportFailure_emitsOnly, output_not_image.
  - by rewrite (same_update _ _ S2), (same_update _ _ S1).
  - by rewrite (same_rebuild _ _ S2), (same_rebuild _ _ S1).
Qed.
End RunPhases.

Lemma showEnv_returns (w : World) verbose debug env ctx tr :
  (showEnv w verbose debug env ctx tr).1 = Ret tt.
Proof.
  unfold showEnv, bind, when, emit, ret.
  by destruct debug, verbose, (startswith "localhost/" (image env)),
    (truthy (ctx_containerFile ctx)), (truthy (containerUpdate ctx)).
Qed.

(** C4, as the specification has it, at [--update --rebuild --show]:
    the run shows the command line and returns; it does not fail, and
    the exit status is 0. *)
Lemma update_rebuild_show_returns :
  args_update argsUpdateRebuildShow = true
  /\ args_rebuild argsUpdateRebuildShow = true
  /\ run exampleWorld argsUpdateRebuildShow [] =
       (Ret tt,
        [Called (LoadConfig false None "~/.config/podenv/config.dhall" false)
                None;
         Called (GetEnv exampleConf "dev") None;
         Called (PrepareEnv exampleEnv []) None;
         Log "info" "Command line:";
         Print "podman run --rm --name dev localhost/dev /bin/sh"])
  /\ exitStatus (run exampleWorld argsUpdateRebuildShow []).1 = 0.
Proof. vm_compute. done. Qed.

(** C4 (amended): with [--update --rebuild], no update, setup-image or
    setup-pod operation is called in the whole invocation. A run that
    obtains its execution context fails at the update phase with the
    invalid-action error, unless [--show] is set: with [--debug] the
    [RuntimeError] is re-raised, otherwise [fail] reports it and the
    process exits with 1. With [--show] the run returns normally
    instead (exit status 0), and so does a run that ends with the table
    of [--list]: the check comes after both. *)
Theorem update_rebuild_rejected (w : World) (args : Namespace) :
  args_update args = true -> args_rebuild args = true ->
  Forall (fun ev => isImageCall ev = false) (run w args []).2
  /\ (forall a1 notify cacheDir tr0 a2 env ctx tr1,
        startup w args [] = (Ret (a1, notify, cacheDir), tr0) ->
        prelude w a1 notify tr0 = (Ret (Some (a2, env, ctx)), tr1) ->
        args_show args = false ->
        if args_debug args then
          run w args [] =
            (Raise (RuntimeError "Invalid action --update --rebuild"), tr1)
        else
          exists r evs,
            run w args [] = (r, tr1 ++ evs)
            /\ reportedFailure "Invalid action --update --rebuild" r evs)
  /\ (forall a1 notify cacheDir tr0 a2 env ctx tr1,
        startup w args [] = (Ret (a1, notify, cacheDir), tr0) ->
        prelude w a1 notify tr0 = (Ret (Some (a2, env, ctx)), tr1) ->
        args_show args = true ->
        (run w args []).1 = Ret tt /\ exitStatus (run w args []).1 = 0)
  /\ (forall a1 notify cacheDir tr0 tr1,
        startup w args [] = (Ret (a1, notify, cacheDir), tr0) ->
        prelude w a1 notify tr0 = (Ret None, tr1) ->
        run w args [] = (Ret tt, tr1) /\ exitStatus (run w args []).1 = 0).
Proof.
  intros Hu Hr. split; [|split; [|split]].
  - destruct (run_update_rebuild_trace w args Hu Hr []) as (evs & -> & F).
    done.
  - intros a1 notify cacheDir tr0 a2 env ctx tr1 Hs Hp Hshow.
    destruct (startup_spec _ _ _ _ _ _ _ Hs) as (S1 & _).
    pose proof (prelude_spec _ _ _ _ _ _ _ _ Hp) as S2.
    assert (run w args [] =
              reportFailure w a2 notify "Invalid action --update --rebuild"
                            tr1) as ->.
    { unfold run, bind at 1. rewrite Hs. unfold bind at 1. rewrite Hp.
      rewrite (same_show _ _ S2), (same_show _ _ S1), Hshow.
      apply lifecycle_invalid_action.
      - by rewrite (same_update _ _ S2), (same_update _ _ S1).
      - by rewrite (same_rebuild _ _ S2), (same_rebuild _ _ S1). }
    unfold reportFailure.
    rewrite (same_debug _ _ S2), (same_debug _ _ S1).
    destruct (args_debug args); [done|]. apply fail_1_reported.
  - intros a1 notify cacheDir tr0 a2 env ctx tr1 Hs Hp Hshow.
    destruct (startup_spec _ _ _ _ _ _ _ Hs) as (S1 & _).
    pose proof (prelude_spec _ _ _ _ _ _ _ _ Hp) as S2.
    assert ((run w args []).1 = Ret tt) as ->; [|done].
    unfold run, bind at 1. rewrite Hs. unfold bind at 1. rewrite Hp.
    rewrite (same_show _ _ S2), (same_show _ _ S1), Hshow.
    apply showEnv_returns.
  - intros a1 notify cacheDir tr0 tr1 Hs Hp.
    assert (run w args [] = (Ret tt, tr1)) as ->; [|done].
    unfold run, bind at 1. rewrite Hs. unfold bind at 1. by rewrite Hp.
Qed.

Lemma update_rebuild_rejected_witness :
  Forall (fun ev => isImageCall ev = false)
         (run exampleWorld argsUpdateRebuild []).2
  /\ exists r evs,
       run exampleWorld argsUpdateRebuild [] =
         (r,
          [Called (LoadConfig false None "~/.config/podenv/config.dhall"
                              false) None;
           Called (GetEnv exampleConf "dev") None;
           Called (PrepareEnv exampleEnv []) None] ++ evs)
       /\ reportedFailure "Invalid action --update --rebuild" r evs.
Proof.
  destruct (update_rebuild_rejected exampleWorld argsUpdateRebuild)
    as (H1 & H2 & _); [reflexivity|reflexivity|].
  split; [exact H1|].
  eapply (H2 argsUpdateRebuild); vm_compute; reflexivity.
Defined.

(* ===================================================================== *)
(** ** Choice of the environment *)
(* ===================================================================== *)

Section DefaultEnvironment.
Variable w : World.

Lemma run_extends_resolveEnv args a1 notify cacheDir tr0 :
  startup w args [] = (Ret (a1, notify, cacheDir), tr0) ->
  exists rest, (run w args []).2 = (resolveEnv w a1 tr0).2 ++ rest.
Proof.
  intros Hs. unfold run, bind at 1. rewrite Hs. cbv beta iota.
  lazymatch goal with
  | |- exists rest, (bind ?m ?k ?tr).2 = _ =>
      destruct (bind_suffix anyEvent m k tr) as (e2 & -> & _)
  end.
  { intros [[[a2 env] ctx]|]; [|apply emitsOnly_ret].
    destruct (args_show a2).
    - apply showEnv_emitsOnly. done.
    - unfold lifecycle.
      apply emitsOnly_bind; [by apply updatePhase_emitsOnly|intros _].
      apply emitsOnly_bind; [by apply setupPhase_emitsOnly|intros _].
      apply emitsOnly_bind; [by apply executePhase_emitsOnly|intros r].
      by apply postPhase_emitsOnly. }
  unfold prelude.
  lazymatch goal with
  | |- exists rest, (exceptRuntimeError ?m ?h ?tr).2 ++ _ = _ =>
      destruct (exceptRuntimeError_suffix anyEvent m h tr) as (e1 & -> & _)
  end.
  { intros msg. apply reportFailure_emitsOnly. done. }
  lazymatch goal with
  | |- exists rest, ((bind ?m ?k ?tr).2 ++ _) ++ _ = _ =>
      destruct (bind_suffix anyEvent m k tr) as (e0 & -> & _)
  end.
  { intros [[a2 env]|]; emits; done. }
  exists (e0 ++ e1 ++ e2). by rewrite <- !app_assoc.
Qed.
End DefaultEnvironment.

(** C10: without a positional environment name, and when the invocation
    is not a plain [--list], the run takes the only environment of the
    loaded configuration when there is exactly one and goes on to
    [getEnv] with its name; otherwise it prints the usage help and exits
    with 1, and neither [getEnv], [prepareEnv] nor an adapter operation
    was called. *)
Theorem default_environment
    (w : World) (args a1 : Namespace) (notify : UserNotif)
    (cacheDir : string) (tr0 : trace) (conf : Conf) :
  startup w args [] = (Ret (a1, notify, cacheDir), tr0) ->
  truthy (args_env args) = false ->
  args_list args && negb (args_show args) = false ->
  loadConfig w (args_list a1) (args_expr a1) (args_config a1) (args_debug a1)
    = Ret conf ->
  let loaded :=
    Called (LoadConfig (args_list a1) (args_expr a1) (args_config a1)
                       (args_debug a1)) None in
  match conf with
  | [(k, _)] =>
      let found := getEnv w conf k in
      resolveEnv w a1 tr0 =
        (match found with
         | Ret env => Ret (Some (set_env k a1, env))
         | Raise e => Raise e
         end,
         tr0 ++ [loaded; Called (GetEnv conf k) (outcome found)])
      /\ exists rest,
           (run w args []).2
           = tr0 ++ [loaded; Called (GetEnv conf k) (outcome found)] ++ rest
  | _ =>
      run w args [] =
        (Raise (SystemExit 1), tr0 ++ [loaded; Print (format_help w)])
      /\ exitStatus (run w args []).1 = 1
      /\ Forall (fun ev => isEnvResolution ev = false
                           /\ isAdapterCall ev = false)
                (run w args []).2
  end.
Proof.
  intros Hs Henv Hl Hconf loaded.
  destruct (startup_spec _ _ _ _ _ _ _ Hs) as (S1 & E1 & _ & _).
  assert (forall r tr',
             (match conf with
              | [(k, _)] => False
              | _ => True
              end) ->
             resolveEnv w a1 tr0 = (r, tr') ->
             r = Raise (SystemExit 1)
             /\ tr' = tr0 ++ [loaded; Print (format_help w)]) as Hhelp.
  { intros r tr' Hc. unfold resolveEnv.
    rewrite E1, Henv, (same_list _ _ S1), (same_show _ _ S1), Hl.
    rewrite orb_false_r. rewrite <- (same_list _ _ S1).
    unfold bind at 1, invoke. rewrite Hconf. simpl.
    destruct conf as [|[k e] [|kv rest]]; try done;
      unfold bind, emit, raise, ret; rewrite <- app_assoc;
      by intros [= <- <-]. }
  assert (Forall (fun ev => isEnvResolution ev = false
                            /\ isAdapterCall ev = false) tr0) as Htr0.
  { destruct (startup_emitsOnly w
                (fun ev => isEnvResolution ev = false
                           /\ isAdapterCall ev = false) ltac:(by intros [[]| |])
                args []) as (evs & E & F).
    rewrite Hs in E. simpl in E. by subst. }
  assert (match conf with [(k, _)] => False | _ => True end ->
          run w args [] =
            (Raise (SystemExit 1), tr0 ++ [loaded; Print (format_help w)]))
    as Hrun.
  { intros Hc. unfold run, bind at 1. rewrite Hs.
    unfold bind at 1, prelude, exceptRuntimeError, bind at 1.
    destruct (resolveEnv w a1 tr0) as [r tr'] eqn:Hr.
    by destruct (Hhelp _ _ Hc eq_refl) as [-> ->]. }
  destruct conf as [|[k e] [|kv rest]].
  - rewrite Hrun by done. repeat split. apply Forall_app. split; [done|].
    by repeat constructor.
  - simpl.
    assert (resolveEnv w a1 tr0 =
              (match getEnv w [(k, e)] k with
               | Ret env => Ret (Some (set_env k a1, env))
               | Raise e => Raise e
               end,
               tr0 ++ [loaded; Called (GetEnv [(k, e)] k)
                                      (outcome (getEnv w [(k, e)] k))]))
      as Hres.
    { unfold resolveEnv.
      rewrite E1, Henv, (same_list _ _ S1), (same_show _ _ S1), Hl.
      rewrite orb_false_r. rewrite <- (same_list _ _ S1).
      unfold bind at 1, invoke. rewrite Hconf. simpl.
      unfold bind, ret. rewrite <- app_assoc. simpl.
      by destruct (getEnv w [(k, e)] k). }
    split; [done|].
    destruct (run_extends_resolveEnv w _ _ _ _ _ Hs) as (rest & ->).
    rewrite Hres. simpl. exists rest. by rewrite <- app_assoc.
  - rewrite Hrun by done. repeat split. apply Forall_app. split; [done|].
    by repeat constructor.
Qed.

Lemma default_environment_witness :
  (run (withConf twoEnvConf exampleWorld) noArgs [] =
     (Raise (SystemExit 1),
      [] ++ [Called (LoadConfig false None "~/.config/podenv/config.dhall"
                                false) None;
             Print (format_help exampleWorld)])
   /\ exitStatus (run (withConf twoEnvConf exampleWorld) noArgs []).1 = 1
   /\ Forall (fun ev => isEnvResolution ev = false /\ isAdapterCall ev = false)
             (run (withConf twoEnvConf exampleWorld) noArgs []).2)
  /\ (resolveEnv exampleWorld noArgs [] =
        (Ret (Some (set_env "dev" noArgs, exampleEnv)),
         [] ++ [Called (LoadConfig false None "~/.config/podenv/config.dhall"
                                   false) None;
                Called (GetEnv exampleConf "dev") None])
      /\ exists rest,
           (run exampleWorld noArgs []).2 =
             [] ++ [Called (LoadConfig false None
                              "~/.config/podenv/config.dhall" false) None;
                    Called (GetEnv exampleConf "dev") None] ++ rest).
Proof.
  split.
  - apply (default_environment (withConf twoEnvConf exampleWorld) noArgs
             noArgs printStderr "/home/user/.cache/podenv" [] twoEnvConf);
      reflexivity.
  - apply (default_environment exampleWorld noArgs
             noArgs printStderr "/home/user/.cache/podenv" [] exampleConf);
      reflexivity.
Defined.

(* ===================================================================== *)
(** ** Execution, interrupt and post-tasks *)
(* ===================================================================== *)

Section Counting.
Variable f : event -> bool.

Lemma emitsAtMost_quiet {A} (m : M trace A) :
  emitsOnly (fun ev => f ev = false) m -> emitsAtMost 0 f m.
Proof.
  intros H tr. destruct (H tr) as (evs & E & F). exists evs.
  split; [done|]. clear E.
  induction F as [|ev evs Hev _ IH]; simpl; [done|]. by rewrite Hev.
Qed.

Lemma emitsAtMost_mono {A} n k (m : M trace A) :
  (n <= k)%nat -> emitsAtMost n f m -> emitsAtMost k f m.
Proof.
  intros Hle H tr. destruct (H tr) as (evs & E & F). exists evs.
  split; [done|lia].
Qed.

Lemma emitsAtMost_bind {A B} n k (m : M trace A) (c : A -> M trace B) :
  emitsAtMost n f m -> (forall a, emitsAtMost k f (c a)) ->
  emitsAtMost (n + k) f (bind m c).
Proof.
  intros Hm Hc tr. unfold bind. destruct (Hm tr) as (e1 & E1 & F1).
  destruct (m tr) as [[a|e] tr1]; simpl in E1; subst tr1.
  - destruct (Hc a (tr ++ e1)) as (e2 & E2 & F2).
    exists (e1 ++ e2). rewrite E2, app_assoc. split; [done|].
    rewrite List.filter_app, length_app. lia.
  - exists e1. split; [done|lia].
Qed.

Lemma emitsAtMost_tryExcept {A} n k (body : M trace A) handlers :
  emitsAtMost n f body ->
  (forall e handler, handlers e = Some handler -> emitsAtMost k f handler) ->
  emitsAtMost (n + k) f (tryExcept body handlers).
Proof.
  intros Hm Hc tr. unfold tryExcept. destruct (Hm tr) as (e1 & E1 & F1).
  destruct (body tr) as [[a|e] tr1]; simpl in E1; subst tr1.
  - exists e1. split; [done|lia].
  - destruct (handlers e) as [handler|] eqn:Hh; [|exists e1; split; [done|lia]].
    destruct (Hc e handler Hh (tr ++ e1)) as (e2 & E2 & F2).
    exists (e1 ++ e2). rewrite E2, app_assoc. split; [done|].
    rewrite List.filter_app, length_app. lia.
Qed.

Lemma emitsAtMost_perform w c : emitsAtMost 1 f (perform w c).
Proof.
  intros tr. unfold perform.
  destruct (pod w c tr); eexists [_]; (split; [done|]); simpl;
    destruct (f _); simpl; lia.
Qed.
End Counting.

Section KillCount.
Variable w : World.

Lemma emitsAtMost_ret {A} f n (a : A) : emitsAtMost n f (ret a).
Proof. intros tr. exists []. rewrite app_nil_r. split; [done|simpl; lia]. Qed.

Lemma emitsAtMost_exceptRuntimeError {A} f n k (body : M trace A) handler :
  emitsAtMost n f body -> (forall msg, emitsAtMost k f (handler msg)) ->
  emitsAtMost (n + k) f (exceptRuntimeError body handler).
Proof.
  intros Hm Hc tr. unfold exceptRuntimeError.
  destruct (Hm tr) as (e1 & E1 & F1).
  destruct (body tr) as [[a|e] tr1]; simpl in E1; subst tr1.
  - exists e1. split; [done|lia].
  - destruct e; try (exists e1; split; [done|lia]).
    destruct (Hc msg (tr ++ e1)) as (e2 & E2 & F2).
    exists (e1 ++ e2). rewrite E2, app_assoc. split; [done|].
    rewrite List.filter_app, length_app. lia.
Qed.

Lemma output_not_kill ev : isOutput ev = true -> isKill ev = false.
Proof. by destruct ev as [[] ?| |]. Qed.

Lemma quiet_not_kill ev : quiet ev -> isKill ev = false.
Proof. unfold quiet. by destruct ev as [[] ?| |]. Qed.

Lemma executePhase_kills_at_most_once ctx :
  emitsAtMost 1 isKill (executePhase w ctx).
Proof.
  unfold executePhase. apply (emitsAtMost_tryExcept _ 0 1).
  - apply emitsAtMost_quiet. emits; done.
  - intros e handler He. destruct e; simplify_eq.
    + apply emitsAtMost_ret.
    + apply (emitsAtMost_bind _ 1 0); [|intros; apply emitsAtMost_ret].
      apply (emitsAtMost_exceptRuntimeError _ 1 0).
      * apply emitsAtMost_perform.
      * intros; apply emitsAtMost_ret.
Qed.

Lemma lifecycle_kills_at_most_once args notify cacheDir ctx :
  emitsAtMost 1 isKill (lifecycle w args notify cacheDir ctx).
Proof.
  unfold lifecycle.
  apply (emitsAtMost_bind _ 0 1).
  { apply emitsAtMost_quiet, updatePhase_emitsOnly;
      [apply output_not_kill|done]. }
  intros _. apply (emitsAtMost_bind _ 0 1).
  { apply emitsAtMost_quiet, setupPhase_emitsOnly;
      [apply output_not_kill|done..]. }
  intros _. apply (emitsAtMost_bind _ 1 0).
  { apply executePhase_kills_at_most_once. }
  intros r. apply emitsAtMost_quiet, postPhase_emitsOnly;
    [apply output_not_kill|done].
Qed.

(** [killPod] is called at most once in a run, whatever happens. *)
Lemma run_kills_at_most_once args :
  (List.length (List.filter isKill (run w args []).2) <= 1)%nat.
Proof.
  assert (emitsAtMost 1 isKill (run w args)) as H.
  { unfold run. apply (emitsAtMost_bind _ 0 1).
    { apply emitsAtMost_quiet, startup_emitsOnly, output_not_kill. }
    intros [[a1 notify] cacheDir]. apply (emitsAtMost_bind _ 0 1).
    { apply emitsAtMost_quiet. eapply emitsOnly_mono; [|apply prelude_quiet].
      apply quiet_not_kill. }
    intros [[[a2 env] ctx]|]; [|apply emitsAtMost_ret].
    destruct (args_show a2).
    - eapply emitsAtMost_mono;
        [|apply emitsAtMost_quiet, showEnv_emitsOnly, output_not_kill]. lia.
    - apply lifecycle_kills_at_most_once. }
  by destruct (H []) as (evs & -> & F).
Qed.

Lemma run_reachesExecute args a notify ctx tr :
  reachesExecute w args a notify ctx tr ->
  run w args [] = bind (executePhase w ctx) (postPhase w a notify ctx) tr
  /\ args_debug a = args_debug args.
Proof.
  intros (a1 & cacheDir & tr0 & env & tr1 & tr2 & Hs & Hp & Hshow & Hu & Hi).
  destruct (startup_spec _ _ _ _ _ _ _ Hs) as (S1 & _).
  pose proof (prelude_spec _ _ _ _ _ _ _ _ Hp) as S2.
  split; [|by rewrite (same_debug _ _ S2), (same_debug _ _ S1)].
  unfold run, bind at 1. rewrite Hs. unfold bind at 1. rewrite Hp.
  rewrite (same_show _ _ S2), (same_show _ _ S1), Hshow.
  unfold lifecycle, bind at 1. rewrite Hu. unfold bind at 1. by rewrite Hi.
Qed.
End KillCount.

(** C5: when the pod execution of a run is interrupted
    ([KeyboardInterrupt] out of [executePod]), [killPod] is called once
    and no more in the whole run; if it fails with a [RuntimeError] the
    failure is dropped: the [try] block ends normally with
    [podResult = 1] and the run goes on with the post-tasks; the exit
    status is not 0 (provided the post-tasks do not themselves leave the
    process with [exit(0)]). *)
Theorem interrupt_kills_once
    (w : World) (args a : Namespace) (notify : UserNotif)
    (ctx : ExecContext) (tr : trace) :
  let pre := Called (ExecuteHostTasks (hostPreTasks ctx)) None in
  let exec :=
    Called (ExecutePod (name ctx) (getArgs ctx) (imageName ctx)
                       (commandArgs ctx)) (Some KeyboardInterrupt) in
  let killed := pod w (KillPod (name ctx)) (tr ++ [pre; exec]) in
  let kill := Called (KillPod (name ctx)) killed in
  reachesExecute w args a notify ctx tr ->
  pod w (ExecuteHostTasks (hostPreTasks ctx)) tr = None ->
  pod w (ExecutePod (name ctx) (getArgs ctx) (imageName ctx)
                    (commandArgs ctx)) (tr ++ [pre])
    = Some KeyboardInterrupt ->
  (forall e, killed = Some e -> isRuntimeError e = true) ->
  pod w (ExecuteHostTasks (hostPostTasks ctx)) (tr ++ [pre; exec; kill])
    <> Some (SystemExit 0) ->
  executePhase w ctx tr = (Ret 1, tr ++ [pre; exec; kill])
  /\ run w args [] = postPhase w a notify ctx 1 (tr ++ [pre; exec; kill])
  /\ (List.length (List.filter isKill (run w args []).2) <= 1)%nat
  /\ exitStatus (run w args []).1 <> 0.
Proof.
  intros pre exec killed kill Hreach Hpre Hexec Hkill Hpost.
  destruct (run_reachesExecute w _ _ _ _ _ Hreach) as [Hrun Hd].
  assert (executePhase w ctx tr = (Ret 1, tr ++ [pre; exec; kill])) as He.
  { unfold executePhase, tryExcept, bind at 1, perform at 1. rewrite Hpre.
    unfold bind at 1, perform at 1. fold pre. rewrite Hexec.
    unfold bind at 1, exceptRuntimeError, perform.
    rewrite <- app_assoc. simpl. fold pre exec killed.
    subst kill. destruct killed as [e|] eqn:Hk.
    - specialize (Hkill e eq_refl). destruct e; try discriminate Hkill.
      unfold ret. by rewrite <- app_assoc.
    - unfold ret. by rewrite <- app_assoc. }
  split; [done|].
  assert (run w args [] = postPhase w a notify ctx 1 (tr ++ [pre; exec; kill]))
    as Hrun'.
  { rewrite Hrun. unfold bind at 1. by rewrite He. }
  split; [done|]. split; [apply run_kills_at_most_once|].
  rewrite Hrun'. unfold postPhase, bind, exceptRuntimeError, perform.
  destruct (pod w (ExecuteHostTasks (hostPostTasks ctx))
              (tr ++ [pre; exec; kill])) as [e|] eqn:Hp; simpl; [|done].
  destruct e; simpl; try done.
  - destruct (args_debug a); simpl; done.
  - intros ->. done.
Qed.

Lemma interrupt_kills_once_witness :
  let ctx := {| name := "dev"; imageName := "localhost/dev";
                getArgs := ["--rm"; "--name"; "dev"];
                commandArgs := ["/bin/sh"];
                ctx_containerFile := None; containerUpdate := None;
                hostPreTasks := ["mkdir -p ~/.cache/podenv"];
                hostPostTasks := ["rm -f /tmp/podenv.sock"] |} in
  exists tr,
    executePhase interruptedWorld ctx tr =
      (Ret 1,
       tr ++ [Called (ExecuteHostTasks ["mkdir -p ~/.cache/podenv"]) None;
              Called (ExecutePod "dev" ["--rm"; "--name"; "dev"]
                                 "localhost/dev" ["/bin/sh"])
                     (Some KeyboardInterrupt);
              Called (KillPod "dev")
                     (Some (RuntimeError "failed: podman kill dev"))])
    /\ (List.length
          (List.filter isKill (run interruptedWorld noArgs []).2) <= 1)%nat
    /\ exitStatus (run interruptedWorld noArgs []).1 <> 0.
Proof.
  intros ctx.
  eexists.
  edestruct (interrupt_kills_once interruptedWorld noArgs
               (set_env "dev" noArgs) printStderr ctx) as (H1 & _ & H2 & H3).
  - exists noArgs, "/home/user/.cache/podenv". do 4 eexists.
    repeat split; vm_compute; reflexivity.
  - reflexivity.
  - reflexivity.
  - intros e [= <-]. reflexivity.
  - discriminate.
  - split; [exact H1|]. split; [exact H2|exact H3].
Defined.

(** C8, as the specification has it, at [--debug] with a pod that runs
    fine and a post-task that fails: the [RuntimeError] of the post-task
    is re-raised and the process ends with status 1, not with the 0 that
    the execution had determined. *)
Lemma debug_post_task_failure_changes_exit_code :
  run postFailWorld argsDebug [] =
    (Raise (RuntimeError "failed: rm -f /tmp/podenv.sock"),
     [Called (LoadConfig false None "~/.config/podenv/config.dhall" true)
             None;
      Called (GetEnv exampleConf "dev") None;
      Called (PrepareEnv exampleEnv []) None;
      Called (SetupImage logInfo
                {| name := "dev"; imageName := "localhost/dev";
                   getArgs := ["--rm"; "--name"; "dev"];
                   commandArgs := ["/bin/sh"];
                   ctx_containerFile := None; containerUpdate := None;
                   hostPreTasks := ["mkdir -p ~/.cache/podenv"];
                   hostPostTasks := ["rm -f /tmp/podenv.sock"] |}
                false "/home/user/.cache/podenv") None;
      Called (SetupPod logInfo
                {| name := "dev"; imageName := "localhost/dev";
                   getArgs := ["--rm"; "--name"; "dev"];
                   commandArgs := ["/bin/sh"];
                   ctx_containerFile := None; containerUpdate := None;
                   hostPreTasks := ["mkdir -p ~/.cache/podenv"];
                   hostPostTasks := ["rm -f /tmp/podenv.sock"] |}
                false) None;
      Called (ExecuteHostTasks ["mkdir -p ~/.cache/podenv"]) None;
      Called (ExecutePod "dev" ["--rm"; "--name"; "dev"] "localhost/dev"
                         ["/bin/sh"]) None;
      Called (ExecuteHostTasks ["rm -f /tmp/podenv.sock"])
             (Some (RuntimeError "failed: rm -f /tmp/podenv.sock"))])
  /\ exitStatus (run postFailWorld argsDebug []).1 = 1.
Proof. vm_compute. done. Qed.

(** C8 (amended): in a run that reaches the post-task phase without
    [--debug], a [RuntimeError] of the host post-tasks is printed and
    the process exits with the [podResult] of the execution phase, so a
    successful pod run stays 0; with [--debug] the error is re-raised
    and the process ends with status 1. *)
Theorem post_task_failure_keeps_exit_code
    (w : World) (args a : Namespace) (notify : UserNotif)
    (ctx : ExecContext) (tr tr' : trace) (podResult : Z) (msg : string) :
  let failed :=
    Called (ExecuteHostTasks (hostPostTasks ctx))
           (Some (RuntimeError msg)) in
  reachesExecute w args a notify ctx tr ->
  executePhase w ctx tr = (Ret podResult, tr') ->
  pod w (ExecuteHostTasks (hostPostTasks ctx)) tr' = Some (RuntimeError msg) ->
  if args_debug args then
    run w args [] = (Raise (RuntimeError msg), tr' ++ [failed])
    /\ exitStatus (run w args []).1 = 1
  else
    run w args [] =
      (Raise (SystemExit podResult),
       tr' ++ [failed; Print msg; Log "debug" "Complete"])
    /\ exitStatus (run w args []).1 = podResult.
Proof.
  intros failed Hreach He Hp.
  destruct (run_reachesExecute w _ _ _ _ _ Hreach) as [Hrun Hd].
  assert (run w args [] =
            if args_debug args then (Raise (RuntimeError msg), tr' ++ [failed])
            else (Raise (SystemExit podResult),
                  tr' ++ [failed; Print msg; Log "debug" "Complete"])) as ->.
  { rewrite Hrun. unfold bind at 1. rewrite He.
    unfold postPhase, bind at 1, exceptRuntimeError, perform. rewrite Hp.
    rewrite Hd. destruct (args_debug args); [done|].
    unfold bind, emit, ret, raise. simpl. by rewrite <- !app_assoc. }
  by destruct (args_debug args).
Qed.

Lemma post_task_failure_keeps_exit_code_witness :
  exists tr',
    run postFailWorld noArgs [] =
      (Raise (SystemExit 0),
       tr' ++ [Called (ExecuteHostTasks ["rm -f /tmp/podenv.sock"])
                      (Some (RuntimeError "failed: rm -f /tmp/podenv.sock"));
               Print "failed: rm -f /tmp/podenv.sock";
               Log "debug" "Complete"])
    /\ exitStatus (run postFailWorld noArgs []).1 = 0.
Proof.
  eexists.
  eapply (post_task_failure_keeps_exit_code postFailWorld noArgs
            (set_env "dev" noArgs) printStderr
            {| name := "dev"; imageName := "localhost/dev";
               getArgs := ["--rm"; "--name"; "dev"];
               commandArgs := ["/bin/sh"];
               ctx_containerFile := None; containerUpdate := None;
               hostPreTasks := ["mkdir -p ~/.cache/podenv"];
               hostPostTasks := ["rm -f /tmp/podenv.sock"] |}).
  - exists noArgs, "/home/user/.cache/podenv". do 4 eexists.
    repeat split; vm_compute; reflexivity.
  - vm_compute. reflexivity.
  - reflexivity.
Defined.

(* ===================================================================== *)
(** ** Further properties of override resolution *)
(* ===================================================================== *)

Section Keeps.
Context {S B : Type} (f : S -> B).

Lemma keeps_ret {A} (a : A) : keeps f (ret a).
Proof. done. Qed.

Lemma keeps_raise {A} e : keeps f (@raise S A e).
Proof. done. Qed.

Lemma keeps_liftResult {A} (r : result A) : keeps f (liftResult r).
Proof. done. Qed.

Lemma keeps_modify (g : S -> S) :
  (forall s, f (g s) = f s) -> keeps f (modify g).
Proof. intros H s. apply H. Qed.

Lemma keeps_bind {A C} (m : M S A) (k : A -> M S C) :
  keeps f m -> (forall a, keeps f (k a)) -> keeps f (bind m k).
Proof.
  intros Hm Hk s. unfold bind. specialize (Hm s).
  destruct (m s) as [[a|e] s1]; simpl in *; [|done].
  by rewrite Hk.
Qed.

Lemma keeps_when b (m : M S unit) : keeps f m -> keeps f (when b m).
Proof. by destruct b. Qed.

Lemma keeps_forEach {A} (l : list A) (body : A -> M S unit) :
  (forall a, keeps f (body a)) -> keeps f (forEach l body).
Proof.
  intros H. induction l as [|a l IH]; simpl; [done|].
  apply keeps_bind; auto.
Qed.
End Keeps.

Ltac keeps_tac :=
  repeat first
    [ match goal with
      | |- keeps _ (bind _ _) => apply keeps_bind
      | |- keeps _ (when _ _) => apply keeps_when
      | |- keeps _ (forEach _ _) => apply keeps_forEach
      | |- keeps _ (ret _) => apply keeps_ret
      | |- keeps _ (raise _) => apply keeps_raise
      | |- keeps _ (liftResult _) => apply keeps_liftResult
      | |- keeps _ (modify _) => apply keeps_modify
      | |- keeps _ (match ?x with _ => _ end) => destruct x
      | |- forall _, _ => intro
      end
    | reflexivity ].

Lemma split1_join (k v : string) :
  contains "=" k = false -> split1 "=" (k +:+ "=" +:+ v) = [k; v].
Proof.
  induction k as [|c k IH]; simpl; [done|].
  destruct (Ascii.eqb c "=") eqn:E; simpl; [discriminate|].
  intros H. by rewrite (IH H).
Qed.

Lemma split1_key (s k v : string) :
  split1 "=" s = [k; v] -> s = k +:+ "=" +:+ v /\ contains "=" k = false.
Proof.
  revert k. induction s as [|c s IH]; intros k; simpl; [discriminate|].
  destruct (Ascii.eqb c "=") eqn:E.
  - intros [= <- <-]. apply Ascii.eqb_eq in E as ->. done.
  - destruct (split1 "=" s) as [|k' [|v' [|]]] eqn:Hs; intros [= <- <-].
    destruct (IH k' eq_refl) as [-> Hk]. simpl. by rewrite E.
Qed.

(** X1: an [-e] entry is cut at its first [=]: for a key without [=],
    the entry [key=value] sets the variable [key] to [value] (which may
    itself hold [=] signs, or be empty), creates the dict of variables
    when there is none, and changes nothing else of the environment. *)
Theorem environ_entry_splits_at_first_equals (k v : string) (env : Env) :
  contains "=" k = false ->
  overrideEnviron (k +:+ "=" +:+ v) env =
    (Ret tt, set_environ (Some (<[k := v]> (default ∅ (environ env)))) env).
Proof.
  intros Hk. unfold overrideEnviron, bind, unpack2, modify, ret.
  rewrite (split1_join k v Hk). simpl.
  destruct (environ env) as [m|] eqn:He; simpl.
  - destruct (bool_decide (m = ∅)) eqn:Hm; simpl; [|by rewrite He].
    apply bool_decide_eq_true_1 in Hm as ->. done.
  - done.
Qed.

Lemma environ_entry_splits_at_first_equals_witness :
  overrideEnviron ("OPTS" +:+ "=" +:+ "-O2 --jobs=4") exampleEnv =
    (Ret tt,
     set_environ (Some (<["OPTS" := "-O2 --jobs=4"]>
                          (default ∅ (environ exampleEnv)))) exampleEnv).
Proof.
  apply (environ_entry_splits_at_first_equals "OPTS" "-O2 --jobs=4").
  reflexivity.
Defined.

Section EnvironMerge.
Variable host : Host.
Variable args : Namespace.

Lemma overrideEnviron_lookup s :
  wellFormed s ->
  exists v, forall env, exists env',
    overrideEnviron s env = (Ret tt, env')
    /\ forall k, lookupEnviron env' k =
                 if decide (k = entryKey s) then Some v
                 else lookupEnviron env k.
Proof.
  intros H. destruct (split1_wellFormed s H) as (k0 & v & E).
  destruct (split1_key _ _ _ E) as [-> Hk].
  exists v. intros env. eexists.
  split; [by apply environ_entry_splits_at_first_equals|].
  intros k. unfold entryKey. rewrite E. simpl. unfold lookupEnviron. simpl.
  destruct (decide (k = k0)) as [->|Hne].
  - by rewrite lookup_insert_eq.
  - rewrite lookup_insert_ne by done. by destruct (environ env).
Qed.

Lemma forEach_environ_other l k env :
  Forall wellFormed l -> Forall (fun s => entryKey s <> k) l ->
  lookupEnviron (forEach l overrideEnviron env).2 k = lookupEnviron env k.
Proof.
  intros Hwf. revert env.
  induction Hwf as [|s l Hs _ IH]; intros env Hk; simpl; [done|].
  apply Forall_cons in Hk as [Hsk Hk].
  destruct (overrideEnviron_lookup s Hs) as (v & Hv).
  destruct (Hv env) as (e1 & E1 & L1).
  unfold bind. rewrite E1. rewrite IH by done. rewrite L1.
  by destruct (decide (k = entryKey s)).
Qed.

Lemma forEach_app_ret {S A} (l1 l2 : list A) (body : A -> M S unit) s s1 :
  forEach l1 body s = (Ret tt, s1) ->
  forEach (l1 ++ l2) body s = forEach l2 body s1.
Proof.
  revert s. induction l1 as [|a l1 IH]; intros s; simpl.
  - by intros [= ->].
  - unfold bind. destruct (body a s) as [[[]|e] s']; [|done]. apply IH.
Qed.

Lemma overrideOthers_environ env :
  environ (overrideOthers host args env).2 = environ (environStep args env).2.
Proof.
  unfold overrideOthers.
  match goal with
  | |- context [bind (environStep args) ?k] =>
      assert (keeps environ (k tt)) as Hk; [cbv beta; keeps_tac|]
  end.
  unfold bind at 1.
  destruct (environStep args env) as [[[]|e] e1]; [|done]. apply Hk.
Qed.

Lemma applyCommandLineOverride_environ env :
  environ (applyCommandLineOverride host args env).2 =
    environ (forEach (environEntries args) overrideEnviron env).2.
Proof.
  rewrite applyCommandLineOverride_split, overrideOthers_environ.
  rewrite environStep_forEach.
  destruct (overrideCapabilities_spec host args env) as (e1 & E1 & _).
  assert (environ e1 = environ env) as He.
  { change e1 with (Ret tt, e1).2. rewrite <- E1.
    unfold overrideCapabilities.
    apply (keeps_forEach environ). intros c. unfold overrideCapability.
    keeps_tac. }
  rewrite E1. simpl. clear E1.
  (* the entries act on the variables only *)
  generalize (environEntries args). intros l. revert e1 env He.
  induction l as [|s l IH]; intros e1 env He; simpl; [done|].
  unfold bind, overrideEnviron at 1 3, bind, unpack2.
  destruct (split1 "=" s) as [|k [|v [|]]]; simpl; try done.
  apply IH. unfold modify. simpl. rewrite He.
  destruct (truthyDict (environ env)); [by rewrite He|done].
Qed.
End EnvironMerge.

(** X2: the well-formed [-e] entries are merged into the variables of
    the environment: a variable that no entry names keeps its value,
    and among the entries that name a variable the last one wins. *)
Theorem environ_entries_merge
    (host : Host) (args : Namespace) (env : Env) :
  Forall wellFormed (environEntries args) ->
  let final := (applyCommandLineOverride host args env).2 in
  (forall k, Forall (fun s => entryKey s <> k) (environEntries args) ->
             lookupEnviron final k = lookupEnviron env k)
  /\ (forall l1 k v l2,
         environEntries args = l1 ++ (k +:+ "=" +:+ v) :: l2 ->
         contains "=" k = false ->
         Forall (fun s => entryKey s <> k) l2 ->
         lookupEnviron final k = Some v).
Proof.
  intros Hwf final.
  assert (forall k, lookupEnviron final k =
                    lookupEnviron
                      (forEach (environEntries args) overrideEnviron env).2 k)
    as Hfinal.
  { intros k. unfold lookupEnviron, final.
    by rewrite applyCommandLineOverride_environ. }
  split.
  - intros k Hk. rewrite Hfinal. by apply forEach_environ_other.
  - intros l1 k v l2 Hl Hk Hl2. rewrite Hfinal, Hl. rewrite Hl in Hwf.
    apply Forall_app in Hwf as [Hwf1 Hwf2].
    apply Forall_cons in Hwf2 as [_ Hwf2].
    destruct (forEach_environ_wellFormed l1 env Hwf1) as (e1 & E1 & _).
    rewrite (forEach_app_ret _ _ _ _ _ E1). simpl. unfold bind.
    rewrite (environ_entry_splits_at_first_equals k v e1 Hk).
    rewrite forEach_environ_other by done.
    unfold lookupEnviron. simpl. apply lookup_insert_eq.
Qed.

Lemma environ_entries_merge_witness :
  lookupEnviron
    (applyCommandLineOverride exampleHost argsThreeEnviron envWithVars).2
    "TERM" = Some "xterm"
  /\ lookupEnviron
       (applyCommandLineOverride exampleHost argsThreeEnviron envWithVars).2
       "LANG" = Some "fr_FR".
Proof.
  destruct (environ_entries_merge exampleHost argsThreeEnviron envWithVars)
    as [H1 H2].
  - simpl. repeat constructor.
  - split.
    + rewrite H1; [vm_compute; reflexivity|].
      simpl. repeat constructor; vm_compute; discriminate.
    + apply (H2 ["LANG=C"; "PATH=/bin"] "LANG" "fr_FR" []);
        [reflexivity|reflexivity|constructor].
Defined.

Section FlagLoop.
Variable host : Host.
Variable args : Namespace.

Lemma forEach_no_flag (l : list (string * string)) env :
  (forall n, n ∈ l.*1 ->
     getattr args (replace "-" "_" n) = false
     /\ getattr args ("no_" +:+ replace "-" "_" n) = false) ->
  forEach l (fun c => overrideCapability args c.1) env = (Ret tt, env).
Proof.
  revert env. induction l as [|[n d] l IH]; intros env H; simpl; [done|].
  destruct (H n) as [H1 H2]; [rewrite fmap_cons; by left|].
  unfold bind, overrideCapability at 1, bind, when. simpl.
  rewrite H1, H2. simpl. apply IH.
  intros m Hm. apply H. rewrite fmap_cons. by right.
Qed.
End FlagLoop.

(** X3: a command line that sets no flag of the capability table, no
    [-e] entry, no [--shell] and no (or an empty) [--image], [--net] and
    [--home] leaves the environment exactly as the configuration gave
    it, and the call returns normally. *)
Theorem no_override_is_identity
    (host : Host) (args : Namespace) (env : Env) :
  noCapabilityFlag host args ->
  environEntries args = [] ->
  args_shell args = false ->
  truthy (args_image args) = false ->
  truthy (args_net args) = false ->
  truthy (args_home args) = false ->
  applyCommandLineOverride host args env = (Ret tt, env).
Proof.
  intros Hflags Hl Hs Hi Hn Hh.
  rewrite applyCommandLineOverride_split.
  unfold overrideCapabilities. rewrite (forEach_no_flag args _ env Hflags).
  simpl. unfold overrideOthers. rewrite environStep_forEach, Hl, Hs.
  unfold bind, when, ret. simpl.
  destruct (args_image args) as [i|]; simpl in *; rewrite ?Hi;
    destruct (args_net args) as [n|]; simpl in *; rewrite ?Hn;
    destruct (args_home args) as [h|]; simpl in *; rewrite ?Hh; done.
Qed.

Lemma no_override_is_identity_witness :
  applyCommandLineOverride exampleHost noArgs envWithVars
  = (Ret tt, envWithVars).
Proof.
  apply no_override_is_identity; try reflexivity.
  intros n Hn. split; reflexivity.
Defined.

(** X4: the flag loop looks at the capabilities of the table only:
    a capability outside the table keeps its state whatever attributes
    the namespace has; inside the table, the enable flag alone turns the
    capability on, and without either flag the state of the
    configuration stays ([terminal] with [--shell] set apart). *)
Theorem capability_flags_effect
    (host : Host) (args : Namespace) (env : Env) (n : string) :
  n <> "terminal" \/ args_shell args = false ->
  let final := (applyCommandLineOverride host args env).2 in
  let enable := getattr args (replace "-" "_" n) in
  let disable := getattr args ("no_" +:+ replace "-" "_" n) in
  (n ∉ (Capabilities host).*1 ->
   capabilities final !! n = capabilities env !! n)
  /\ (n ∈ (Capabilities host).*1 -> enable = true -> disable = false ->
      capabilities final !! n = Some true)
  /\ (n ∈ (Capabilities host).*1 -> enable = false -> disable = false ->
      capabilities final !! n = capabilities env !! n).
Proof.
  intros Hn final enable disable. subst final enable disable.
  rewrite applyCommandLineOverride_split.
  rewrite overrideOthers_capabilities by done.
  destruct (overrideCapabilities_spec host args env) as (e1 & -> & C1 & _).
  simpl. rewrite C1. unfold flagState.
  repeat split; intros; case_bool_decide; try done;
    repeat match goal with H : getattr _ _ = _ |- _ => rewrite H end; done.
Qed.

Lemma capability_flags_effect_witness :
  capabilities
    (applyCommandLineOverride exampleHost argsTerminalX11 envWithVars).2
    !! "x11" = None
  /\ capabilities
       (applyCommandLineOverride exampleHost argsTerminalX11 envWithVars).2
       !! "terminal" = Some true
  /\ capabilities
       (applyCommandLineOverride exampleHost argsTerminalX11 envWithVars).2
       !! "network" = Some true.
Proof.
  split; [|split].
  - destruct (capability_flags_effect exampleHost argsTerminalX11
                envWithVars "x11") as (H & _ & _); [by left|].
    rewrite H; [reflexivity|].
    vm_compute. intros H'. apply list_elem_of_In in H'. simpl in H'.
    intuition discriminate.
  - destruct (capability_flags_effect exampleHost argsTerminalX11
                envWithVars "terminal") as (_ & H & _); [by right|].
    apply H; [simpl; apply list_elem_of_here|reflexivity|reflexivity].
  - destruct (capability_flags_effect exampleHost argsTerminalX11
                envWithVars "network") as (_ & _ & H); [by left|].
    rewrite H; [reflexivity| |reflexivity|reflexivity].
    simpl. apply list_elem_of_further, list_elem_of_here.
Defined.

(** X5: whatever the command line, and also when it raises, override
    resolution never renames the environment nor touches its
    description, its raw declaration or its build recipe. *)
Theorem override_keeps_declaration
    (host : Host) (args : Namespace) (env : Env) :
  let final := (applyCommandLineOverride host args env).2 in
  envName final = envName env
  /\ description final = description env
  /\ original final = original env
  /\ containerFile final = containerFile env.
Proof.
  intros final.
  assert (keeps (fun e => (envName e, description e, original e,
                           containerFile e))
                (applyCommandLineOverride host args)) as H.
  { unfold applyCommandLineOverride, overrideCapabilities, overrideOthers,
      environStep, overrideCapability, overrideEnviron, unpack2.
    keeps_tac. by destruct (truthyDict _). }
  specialize (H env). fold final in H. by simplify_eq.
Qed.

Section ImageNetworkHome.
Variable host : Host.
Variable args : Namespace.

(** The steps before the image override leave image, network and home
    alone. *)
Lemma before_image_keeps env :
  Forall wellFormed (environEntries args) ->
  exists e2,
    (bind (overrideCapabilities host args) (fun _ =>
     bind (environStep args) (fun _ =>
     when (args_shell args)
          (bind (modify (set_capability "terminal" true))
                (fun _ => modify (set_command ["/bin/bash"]))))) env)
    = (Ret tt, e2)
    /\ image e2 = image env /\ network e2 = network env
    /\ home e2 = home env.
Proof.
  intros Hwf.
  destruct (overrideCapabilities_spec host args env) as (e1 & E1 & _).
  assert (keeps (fun e => (image e, network e, home e))
                (overrideCapabilities host args)) as K1.
  { unfold overrideCapabilities, overrideCapability. keeps_tac. }
  specialize (K1 env). rewrite E1 in K1. simpl in K1.
  destruct (forEach_environ_wellFormed _ e1 Hwf) as (e2 & E2 & _).
  assert (keeps (fun e => (image e, network e, home e))
                (forEach (environEntries args) overrideEnviron)) as K2.
  { unfold overrideEnviron, unpack2. keeps_tac. by destruct (truthyDict _). }
  specialize (K2 e1). rewrite E2 in K2. simpl in K2.
  unfold bind at 1. rewrite E1. unfold bind at 1.
  rewrite environStep_forEach, E2.
  injection K1 as ? ? ?. injection K2 as ? ? ?.
  destruct (args_shell args); simpl; eexists; (split; [reflexivity|]);
    simpl; repeat split; congruence.
Qed.
End ImageNetworkHome.

(** X6: with well-formed [-e] entries, a non-empty [--image] replaces
    the image verbatim and a non-empty [--net] the network, also when the
    home override that follows fails; an absent or empty value leaves
    the field alone; a [--home] that expands and resolves makes the
    resolved path the home of the environment. *)
Theorem image_network_home_overrides
    (host : Host) (args : Namespace) (env : Env) :
  Forall wellFormed (environEntries args) ->
  let final := (applyCommandLineOverride host args env).2 in
  image final
    = (if truthy (args_image args) then default EmptyString (args_image args)
       else image env)
  /\ network final
     = (if truthy (args_net args) then args_net args else network env)
  /\ (truthy (args_home args) = false ->
      home final = home env
      /\ (applyCommandLineOverride host args env).1 = Ret tt)
  /\ (forall h p q,
         args_home args = Some h -> h <> EmptyString ->
         expanduser host h = Ret p -> resolve_strict host p = Ret q ->
         home final = Some q
         /\ (applyCommandLineOverride host args env).1 = Ret tt).
Proof.
  intros Hwf final. subst final.
  destruct (before_image_keeps host args env Hwf) as (e2 & E2 & Hi & Hn & Hh).
  assert (applyCommandLineOverride host args env =
            bind (match args_image args with
                  | Some i => when (truthy (Some i)) (modify (set_image i))
                  | None => ret tt
                  end) (fun _ =>
            bind (match args_net args with
                  | Some n => when (truthy (Some n)) (modify (set_network n))
                  | None => ret tt
                  end) (fun _ =>
            match args_home args with
            | Some h =>
                when (truthy (Some h))
                     (bind (liftResult (expanduser host h)) (fun p =>
                      bind (liftResult (resolve_strict host p)) (fun q =>
                      modify (set_home q))))
            | None => ret tt
            end)) e2) as ->.
  { revert E2. unfold applyCommandLineOverride, overrideOthers, bind.
    destruct (overrideCapabilities host args env) as [[[]|] e1]; [|done].
    destruct (environStep args e1) as [[[]|] e1']; [|done].
    destruct (when (args_shell args) _ e1') as [[[]|] e1'']; [|done].
    by intros [= ->]. }
  unfold bind, when, modify, ret, liftResult.
  split; [|split; [|split]].
  - destruct (args_image args) as [i|]; simpl;
      [destruct (negb (i =? EmptyString)%string)|]; simpl;
      (destruct (args_net args) as [n|]; simpl;
        [destruct (negb (n =? EmptyString)%string)|]); simpl;
      (destruct (args_home args) as [h|]; simpl;
        [destruct (negb (h =? EmptyString)%string)|]); simpl;
      try destruct (expanduser host h) as [p|]; simpl;
      try destruct (resolve_strict host p); simpl; done.
  - destruct (args_image args) as [i|]; simpl;
      [destruct (negb (i =? EmptyString)%string)|]; simpl;
      (destruct (args_net args) as [n|]; simpl;
        [destruct (negb (n =? EmptyString)%string)|]); simpl;
      (destruct (args_home args) as [h|]; simpl;
        [destruct (negb (h =? EmptyString)%string)|]); simpl;
      try destruct (expanduser host h) as [p|]; simpl;
      try destruct (resolve_strict host p); simpl; done.
  - intros Ht.
    destruct (args_image args) as [i|]; simpl;
      [destruct (negb (i =? EmptyString)%string)|]; simpl;
      (destruct (args_net args) as [n|]; simpl;
        [destruct (negb (n =? EmptyString)%string)|]); simpl;
      (destruct (args_home args) as [h|]; simpl in *;
        [rewrite Ht|]); simpl; done.
  - intros h p q Hh' Hne Hp Hq. rewrite Hh'. simpl.
    assert (negb (h =? EmptyString)%string = true) as ->
      by (apply negb_true_iff; by apply String.eqb_neq).
    rewrite Hp, Hq.
    destruct (args_image args) as [i|]; simpl;
      [destruct (negb (i =? EmptyString)%string)|]; simpl;
      (destruct (args_net args) as [n|]; simpl;
        [destruct (negb (n =? EmptyString)%string)|]); simpl; done.
Qed.

Lemma image_network_home_overrides_witness :
  let final :=
    (applyCommandLineOverride exampleHost argsImageNetHome exampleEnv).2 in
  image final = "fedora"
  /\ network final = Some "host"
  /\ home final = Some "/home/user/work"
  /\ (applyCommandLineOverride exampleHost argsImageNetHome exampleEnv).1
     = Ret tt.
Proof.
  destruct (image_network_home_overrides exampleHost argsImageNetHome
              exampleEnv) as (H1 & H2 & _ & H3).
  - simpl. constructor.
  - split; [exact H1|]. split; [exact H2|].
    apply (H3 "~/work" "/home/user/work" "/home/user/work");
      [reflexivity|discriminate|reflexivity|reflexivity].
Defined.

(* ===================================================================== *)
(** ** Further properties of the first [try] block of [run] *)
(* ===================================================================== *)

Section PreludeFailures.
Variable w : World.

Lemma fail_reported {A} notify msg tr :
  exists e evs,
    @fail w A notify msg 1 tr = (Raise e, tr ++ evs)
    /\ reportedFailure msg (Raise e) evs.
Proof.
  unfold fail, bind, perform, emit, raise, reportedFailure.
  destruct notify; try (do 2 eexists; split; [reflexivity|]; by eauto).
  destruct (pod w (DesktopNotification msg) tr);
    do 2 eexists; (split; [reflexivity|]); eauto.
Qed.

(** How [run] ends when its first [try] block hands a [RuntimeError] to
    the handler. *)
Lemma run_prelude_failure args a1 notify cacheDir tr0 msg tr1 :
  startup w args [] = (Ret (a1, notify, cacheDir), tr0) ->
  prelude w a1 notify tr0 = reportFailure w a1 notify msg tr1 ->
  if args_debug args then run w args [] = (Raise (RuntimeError msg), tr1)
  else exists r evs,
      run w args [] = (r, tr1 ++ evs) /\ reportedFailure msg r evs.
Proof.
  intros Hs Hp.
  destruct (startup_spec _ _ _ _ _ _ _ Hs) as (S1 & _).
  assert (forall e tr,
             @reportFailure w (option (Namespace * Env * ExecContext))
               a1 notify msg tr1 = (Raise e, tr) ->
             run w args [] = (Raise e, tr)) as Hrun.
  { intros e tr H. unfold run, bind at 1. rewrite Hs. unfold bind at 1.
    by rewrite Hp, H. }
  unfold reportFailure in Hrun. rewrite (same_debug _ _ S1) in Hrun.
  destruct (args_debug args); [by apply Hrun|].
  destruct (fail_reported (A:=option (Namespace * Env * ExecContext))
              notify msg tr1) as (e & evs & E & Hrep).
  exists (Raise e), evs. split; [by apply Hrun|done].
Qed.

Lemma prelude_resolveEnv_raises a1 notify tr0 msg tr1 :
  resolveEnv w a1 tr0 = (Raise (RuntimeError msg), tr1) ->
  prelude w a1 notify tr0 = reportFailure w a1 notify msg tr1.
Proof.
  intros H. unfold prelude, exceptRuntimeError, bind at 1. by rewrite H.
Qed.
End PreludeFailures.

(** X7: when the config loader fails with a [RuntimeError], nothing else
    is called: with [--debug] the error is re-raised as it is, otherwise
    its message goes to the user through [fail] and the process exits
    with 1. *)
Theorem load_failure_reported
    (w : World) (args a1 : Namespace) (notify : UserNotif)
    (cacheDir : string) (tr0 : trace) (msg : string) :
  let skipLocal := args_list a1 || truthy (args_env a1) in
  let loading :=
    LoadConfig skipLocal (args_expr a1) (args_config a1) (args_debug a1) in
  startup w args [] = (Ret (a1, notify, cacheDir), tr0) ->
  loadConfig w skipLocal (args_expr a1) (args_config a1) (args_debug a1)
    = Raise (RuntimeError msg) ->
  let tr1 := tr0 ++ [Called loading (Some (RuntimeError msg))] in
  if args_debug args then run w args [] = (Raise (RuntimeError msg), tr1)
  else exists r evs,
      run w args [] = (r, tr1 ++ evs) /\ reportedFailure msg r evs.
Proof.
  intros skipLocal loading Hs Hl tr1.
  apply (run_prelude_failure w args a1 notify cacheDir tr0 msg tr1 Hs).
  apply prelude_resolveEnv_raises.
  unfold resolveEnv, bind, invoke. fold skipLocal. by rewrite Hl.
Qed.

(** X8: when the environment named on the command line is not one the
    configuration defines ([getEnv] fails with a [RuntimeError]), no
    override is applied and nothing is prepared or run: the error is
    re-raised with [--debug] and otherwise reported, exit code 1. *)
Theorem unknown_environment_reported
    (w : World) (args a1 : Namespace) (notify : UserNotif)
    (cacheDir : string) (tr0 : trace) (conf : Conf) (n msg : string) :
  let loading :=
    LoadConfig true (args_expr a1) (args_config a1) (args_debug a1) in
  startup w args [] = (Ret (a1, notify, cacheDir), tr0) ->
  args_env args = Some n -> n <> EmptyString ->
  args_list args && negb (args_show args) = false ->
  loadConfig w true (args_expr a1) (args_config a1) (args_debug a1)
    = Ret conf ->
  getEnv w conf n = Raise (RuntimeError msg) ->
  let tr1 := tr0 ++ [Called loading None;
                     Called (GetEnv conf n) (Some (RuntimeError msg))] in
  if args_debug args then run w args [] = (Raise (RuntimeError msg), tr1)
  else exists r evs,
      run w args [] = (r, tr1 ++ evs) /\ reportedFailure msg r evs.
Proof.
  intros loading Hs Hn Hne Hlist Hl Hg tr1.
  destruct (startup_spec _ _ _ _ _ _ _ Hs) as (S1 & E1 & _).
  apply (run_prelude_failure w args a1 notify cacheDir tr0 msg tr1 Hs).
  apply prelude_resolveEnv_raises.
  assert (truthy (args_env a1) = true) as Ht.
  { rewrite E1, Hn. simpl. apply negb_true_iff. by apply String.eqb_neq. }
  unfold resolveEnv. rewrite Ht, orb_true_r.
  unfold bind at 1, invoke at 1. rewrite Hl.
  rewrite (same_list _ _ S1), (same_show _ _ S1), Hlist. simpl.
  unfold bind, ret, invoke. rewrite E1, Hn. simpl. rewrite Hg. simpl.
  unfold tr1. by rewrite <- app_assoc.
Qed.

(** X9: unlike a path that does not exist, a [--home] whose tilde
    expansion fails with a [RuntimeError] (no home directory for the
    user named after the tilde) is caught by the handler of the first
    [try] block: it is re-raised with [--debug] and otherwise reported,
    exit code 1, and [prepareEnv] is not called. *)
Theorem home_expansion_failure_reported
    (w : World) (args a1 a2 : Namespace) (notify : UserNotif)
    (cacheDir : string) (tr0 tr1 : trace) (env : Env) (h msg : string) :
  startup w args [] = (Ret (a1, notify, cacheDir), tr0) ->
  resolveEnv w a1 tr0 = (Ret (Some (a2, env)), tr1) ->
  Forall wellFormed (environEntries args) ->
  args_home args = Some h -> h <> EmptyString ->
  expanduser (host w) h = Raise (RuntimeError msg) ->
  if args_debug args then run w args [] = (Raise (RuntimeError msg), tr1)
  else exists r evs,
      run w args [] = (r, tr1 ++ evs) /\ reportedFailure msg r evs.
Proof.
  intros Hs Hr Hwf Hh Hne He.
  destruct (startup_spec _ _ _ _ _ _ _ Hs) as (S1 & _).
  destruct (resolveEnv_spec _ _ _ _ _ _ Hr) as (S2 & _).
  apply (run_prelude_failure w args a1 notify cacheDir tr0 msg tr1 Hs).
  unfold prelude, exceptRuntimeError, bind at 1. rewrite Hr.
  unfold bind at 1, mutating.
  rewrite (applyCommandLineOverride_ext _ args a2)
    by (eapply sameRequest_trans; eauto).
  assert ((applyCommandLineOverride (host w) args env).1
          = Raise (RuntimeError msg)) as Ho.
  { rewrite applyCommandLineOverride_split. unfold overrideOthers.
    rewrite environStep_forEach.
    destruct (forEach_environ_wellFormed _
                (overrideCapabilities (host w) args env).2 Hwf)
      as (e1 & E1 & _).
    unfold bind at 1. rewrite E1. rewrite Hh.
    assert (truthy (Some h) = true) as ->.
    { simpl. apply negb_true_iff. by apply String.eqb_neq. }
    unfold bind, when, modify, ret, liftResult. rewrite He.
    repeat case_match; by simplify_eq. }
  destruct (applyCommandLineOverride (host w) args env) as [[[]|e'] env'];
    simpl in Ho; [done|]. by simplify_eq.
Qed.

Lemma load_failure_reported_witness :
  exists r evs,
    run brokenConfigWorld noArgs [] =
      (r,
       ([] ++ [Called (LoadConfig false None "~/.config/podenv/config.dhall"
                                  false)
                      (Some (RuntimeError
                               "~/.config/podenv/config.dhall: No such file or directory"))])
       ++ evs)
    /\ reportedFailure
         "~/.config/podenv/config.dhall: No such file or directory" r evs.
Proof.
  apply (load_failure_reported brokenConfigWorld noArgs noArgs printStderr
           "/home/user/.cache/podenv" []); reflexivity.
Defined.

Lemma unknown_environment_reported_witness :
  exists r evs,
    run exampleWorld argsProd [] =
      (r,
       ([] ++ [Called (LoadConfig true None "~/.config/podenv/config.dhall"
                                  false) None;
               Called (GetEnv exampleConf "prod")
                      (Some (RuntimeError
                               "prod: couldn't find environment"))])
       ++ evs)
    /\ reportedFailure "prod: couldn't find environment" r evs.
Proof.
  apply (unknown_environment_reported exampleWorld argsProd argsProd
           printStderr "/home/user/.cache/podenv" [] exampleConf "prod");
    try reflexivity.
  discriminate.
Defined.

Lemma home_expansion_failure_reported_witness :
  exists r evs,
    run noHomeWorld argsNobodyHome [] =
      (r,
       [Called (LoadConfig false None "~/.config/podenv/config.dhall" false)
               None;
        Called (GetEnv exampleConf "dev") None] ++ evs)
    /\ reportedFailure "Could not determine home directory." r evs.
Proof.
  eapply (home_expansion_failure_reported noHomeWorld argsNobodyHome
            argsNobodyHome (set_env "dev" argsNobodyHome) printStderr
            "/home/user/.cache/podenv" [] _ exampleEnv "~nobody/work");
    try reflexivity.
  - simpl. constructor.
  - discriminate.
Defined.

(* ===================================================================== *)
(** ** Further properties of the start of [run] *)
(* ===================================================================== *)

(** X10: [applyEnvironOverride] always returns and rewrites nothing but
    [args.config]: a non-empty [PODENV_CONFIG] becomes the configuration
    path whatever [-c] gave, an unset or empty one changes nothing and
    prints nothing; applying it a second time changes nothing and
    prints nothing more. *)
Theorem environ_override_idempotent
    (w : World) (args : Namespace) (tr : trace) :
  exists a1 evs,
    applyEnvironOverride w args tr = (Ret a1, tr ++ evs)
    /\ sameRequest args a1
    /\ args_verbose a1 = args_verbose args
    /\ args_env a1 = args_env args
    /\ (if truthy (os_environ w !! "PODENV_CONFIG")
        then Some (args_config a1) = os_environ w !! "PODENV_CONFIG"
        else a1 = args /\ evs = [])
    /\ applyEnvironOverride w a1 (tr ++ evs) = (Ret a1, tr ++ evs).
Proof.
  unfold applyEnvironOverride, bind, when, emit, ret.
  destruct (os_environ w !! "PODENV_CONFIG") as [v|] eqn:Hv; simpl.
  - destruct (negb (v =? EmptyString)%string) eqn:Hne; simpl.
    + destruct (negb (args_config args =? "~/.config/podenv/config.dhall")%string
                && negb (args_config args =? v)%string); simpl;
        [ exists (set_config v args),
            [Print (args_config args
                      +:+ " is overriden by environ PODENV_CONFIG=" +:+ v)]
        | exists (set_config v args), []; rewrite app_nil_r ];
        (split; [reflexivity|]); simpl;
        rewrite String.eqb_refl, andb_false_r; simpl;
        repeat split; done.
    + exists args, []. rewrite app_nil_r. repeat split; done.
  - exists args, []. rewrite app_nil_r. repeat split; done.
Qed.

(** X11: when [PODENV_CONFIG] is set, the notice that it overrides the
    command line is printed exactly when [-c] named a file that is
    neither the default path nor the value of [PODENV_CONFIG]: a [-c]
    that spells out the default path is overridden without notice. *)
Theorem podenv_config_notice
    (w : World) (args : Namespace) (tr : trace) (v : string) :
  os_environ w !! "PODENV_CONFIG" = Some v -> v <> EmptyString ->
  let notice :=
    Print (args_config args +:+ " is overriden by environ PODENV_CONFIG="
             +:+ v) in
  (args_config args <> "~/.config/podenv/config.dhall"
   /\ args_config args <> v ->
   applyEnvironOverride w args tr = (Ret (set_config v args), tr ++ [notice]))
  /\ (args_config args = "~/.config/podenv/config.dhall"
      \/ args_config args = v ->
      applyEnvironOverride w args tr = (Ret (set_config v args), tr)).
Proof.
  intros Hv Hne notice. unfold applyEnvironOverride. rewrite Hv. simpl.
  assert (negb (v =? EmptyString)%string = true) as ->
    by (apply negb_true_iff; by apply String.eqb_neq).
  unfold bind, when, emit, ret. split.
  - intros [H1 H2].
    apply String.eqb_neq in H1 as ->. apply String.eqb_neq in H2 as ->. done.
  - intros [H|H]; apply String.eqb_eq in H; rewrite H; simpl;
      rewrite ?andb_false_r; done.
Qed.

Lemma podenv_config_notice_witness :
  applyEnvironOverride podenvConfigWorld argsMyConfig [] =
    (Ret (set_config "/etc/podenv.dhall" argsMyConfig),
     [] ++ [Print ("./my.dhall" +:+ " is overriden by environ PODENV_CONFIG="
                     +:+ "/etc/podenv.dhall")])
  /\ applyEnvironOverride podenvConfigWorld noArgs [] =
       (Ret (set_config "/etc/podenv.dhall" noArgs), []).
Proof.
  split.
  - apply (podenv_config_notice podenvConfigWorld argsMyConfig []
             "/etc/podenv.dhall"); [reflexivity|discriminate|].
    split; discriminate.
  - apply (podenv_config_notice podenvConfigWorld noArgs []
             "/etc/podenv.dhall"); [reflexivity|discriminate|].
    by left.
Defined.

(** X12: the notification callable: on a terminal it is the logger with
    [--verbose] and the plain printer without, never the desktop
    notification; off a terminal the choice does not depend on
    [--verbose] and is never the logger: the desktop notification when
    a session bus is found, the plain printer otherwise. *)
Theorem notification_sink_choice (w : World) (verbose : bool) :
  (stdout_isatty w = true ->
   getUserNotificationProc w verbose
   = (if verbose then logInfo else printStderr))
  /\ (stdout_isatty w = false ->
      getUserNotificationProc w verbose
      = getUserNotificationProc w (negb verbose)
      /\ getUserNotificationProc w verbose <> logInfo
      /\ (getUserNotificationProc w verbose = desktopNotification <->
          truthy (os_environ w !! "DBUS_SESSION_BUS_ADDRESS") = true
          \/ (exists dir, os_environ w !! "XDG_RUNTIME_DIR" = Some dir
                          /\ dir <> EmptyString
                          /\ bus_exists w dir = true))).
Proof.
  unfold getUserNotificationProc. split; intros ->; simpl; [done|].
  destruct (truthy (os_environ w !! "DBUS_SESSION_BUS_ADDRESS")); simpl.
  { repeat split; try done. intros _. by left. }
  destruct (os_environ w !! "XDG_RUNTIME_DIR") as [dir|]; simpl.
  - destruct (negb (dir =? EmptyString)%string) eqn:Hd; simpl.
    + apply negb_true_iff, String.eqb_neq in Hd.
      destruct (bus_exists w dir) eqn:Hb; repeat split; try done.
      * intros _. right. eauto.
      * intros [|(d & [= <-] & _ & Hb')]; congruence.
    + apply negb_false_iff, String.eqb_eq in Hd as ->.
      repeat split; try done. intros [|(d & [= <-] & Hd & _)]; done.
  - repeat split; try done. intros [|(d & ? & _)]; done.
Qed.

Lemma notification_sink_choice_witness :
  getUserNotificationProc exampleWorld true = logInfo
  /\ getUserNotificationProc exampleWorld false = printStderr.
Proof.
  split; apply (notification_sink_choice exampleWorld); reflexivity.
Defined.

(** X13: [--list] (without [--show]) on a configuration that defines
    no environment: [listEnv] takes the maximum of an empty sequence;
    the [ValueError] is not a [RuntimeError], so the handler of the
    [try] block does not catch it and it leaves [run] after the
    configuration was loaded, with nothing printed. *)
Theorem list_empty_configuration_raises
    (w : World) (args a1 : Namespace) (notify : UserNotif)
    (cacheDir : string) (tr0 : trace) :
  startup w args [] = (Ret (a1, notify, cacheDir), tr0) ->
  args_list args = true -> args_show args = false ->
  loadConfig w true (args_expr a1) (args_config a1) (args_debug a1)
    = Ret [] ->
  exists msg,
    run w args [] =
      (Raise (ValueError msg),
       tr0 ++ [Called (LoadConfig true (args_expr a1) (args_config a1)
                                  (args_debug a1)) None])
    /\ exitStatus (run w args []).1 = 1.
Proof.
  intros Hs Hl Hshow Hconf.
  destruct (startup_spec _ _ _ _ _ _ _ Hs) as (S1 & _ & _ & _).
  eexists.
  assert (run w args [] =
            (Raise (ValueError "max() arg is an empty sequence"),
             tr0 ++ [Called (LoadConfig true (args_expr a1) (args_config a1)
                                        (args_debug a1)) None])) as ->.
  { unfold run, bind at 1. rewrite Hs.
    unfold bind at 1, prelude, exceptRuntimeError, bind at 1.
    unfold resolveEnv, bind at 1, invoke.
    rewrite (same_list _ _ S1), (same_show _ _ S1), Hl, Hshow. simpl.
    by rewrite Hconf. }
  done.
Qed.

Lemma list_empty_configuration_raises_witness :
  exists msg,
    run (withConf [] exampleWorld) argsList [] =
      (Raise (ValueError msg),
       [] ++ [Called (LoadConfig true None "~/.config/podenv/config.dhall"
                                 false) None])
    /\ exitStatus (run (withConf [] exampleWorld) argsList []).1 = 1.
Proof.
  apply (list_empty_configuration_raises (withConf [] exampleWorld)
           argsList argsList printStderr "/home/user/.cache/podenv" []);
    reflexivity.
Defined.

(* ===================================================================== *)
(** ** Further properties of [showEnv] and [--show] *)
(* ===================================================================== *)

Lemma output_quiet ev : isOutput ev = true -> quiet ev.
Proof. unfold quiet. by destruct ev as [[] ?| |]. Qed.

Ltac trace_eq := rewrite <- ?app_assoc; simpl; reflexivity.

Lemma showEnv_trace (w : World) verbose debug env ctx tr :
    showEnv w verbose debug env ctx tr =
      (Ret tt,
       tr ++ showSections w verbose debug env ctx ++
         [Log "info" "Command line:";
          Print ("podman run "
                   +:+ prettyCmd w (getArgs ctx ++ [imageName ctx]
                                      ++ commandArgs ctx))]).
Proof.
  unfold showEnv, showSections, bind, when, emit, ret.
  destruct debug, verbose, (startswith "localhost/" (image env)),
    (truthy (ctx_containerFile ctx)), (truthy (containerUpdate ctx)); 
   cbn [andb app]; rewrite <- ?app_assoc; reflexivity.
Qed.

Lemma showSections_output w verbose debug env ctx :
  Forall (fun ev => isOutput ev = true) (showSections w verbose debug env ctx).
Proof.
  unfold showSections.
  repeat apply Forall_app_2;
    match goal with |- Forall _ (if ?b then _ else _) => destruct b end;
    by repeat constructor.
Qed.

Lemma elem_of_section (b : bool) (ev a c : event) :
  ev ∈ (if b then [a; c] else []) <-> b = true /\ (ev = a \/ ev = c).
Proof.
  destruct b; rewrite ?elem_of_cons, ?elem_of_nil; naive_solver.
Qed.

(** X14: a run with [--show] that obtains its execution context returns
    normally (exit status 0) without calling any adapter operation or
    host task: after the first [try] block it only writes output, and
    the last two events are the [Command line:] record and the
    [podman run] line built from the context. *)
Theorem show_prints_command_line
    (w : World) (args a1 a : Namespace) (notify : UserNotif)
    (cacheDir : string) (tr0 tr1 : trace) (env : Env) (ctx : ExecContext) :
  startup w args [] = (Ret (a1, notify, cacheDir), tr0) ->
  prelude w a1 notify tr0 = (Ret (Some (a, env, ctx)), tr1) ->
  args_show args = true ->
  exists evs,
    run w args [] =
      (Ret tt,
       tr1 ++ evs ++
         [Log "info" "Command line:";
          Print ("podman run "
                   +:+ prettyCmd w (getArgs ctx ++ [imageName ctx]
                                      ++ commandArgs ctx))])
    /\ Forall (fun ev => isOutput ev = true) evs
    /\ exitStatus (run w args []).1 = 0
    /\ Forall quiet (run w args []).2.
Proof.
  intros Hs Hp Hshow.
  destruct (startup_spec _ _ _ _ _ _ _ Hs) as (S1 & _ & _ & q0 & E0 & Q0).
  pose proof (prelude_spec _ _ _ _ _ _ _ _ Hp) as S2.
  destruct (prelude_quiet w a1 notify tr0) as (q1 & E1 & Q1).
  rewrite Hp in E1. simpl in E1, E0.
  pose proof (showEnv_trace w (args_verbose a) (args_debug a) env ctx tr1)
    as E.
  pose proof (showSections_output w (args_verbose a) (args_debug a) env ctx)
    as Hout.
  exists (showSections w (args_verbose a) (args_debug a) env ctx).
  assert (run w args [] =
            (Ret tt,
             tr1 ++ showSections w (args_verbose a) (args_debug a) env ctx ++
               [Log "info" "Command line:";
                Print ("podman run "
                         +:+ prettyCmd w (getArgs ctx ++ [imageName ctx]
                                            ++ commandArgs ctx))])) as ->.
  { unfold run, bind at 1. rewrite Hs. unfold bind at 1. rewrite Hp.
    by rewrite (same_show _ _ S2), (same_show _ _ S1), Hshow. }
  split; [done|]. split; [done|]. split; [done|]. cbn [snd]. subst tr1 tr0.
  apply Forall_app_2; [by apply Forall_app_2|].
  apply Forall_app_2.
  - eapply Forall_impl; [exact Hout|]. apply output_quiet.
  - by repeat constructor.
Qed.

Lemma show_prints_command_line_witness :
  exists evs,
    run exampleWorld argsShow [] =
      (Ret tt,
       [Called (LoadConfig false None "~/.config/podenv/config.dhall" false)
               None;
        Called (GetEnv exampleConf "dev") None;
        Called (PrepareEnv exampleEnv []) None]
       ++ evs ++
         [Log "info" "Command line:";
          Print ("podman run "
                   +:+ prettyCmd exampleWorld
                         (getArgs exampleCtx ++ [imageName exampleCtx]
                            ++ commandArgs exampleCtx))])
    /\ Forall (fun ev => isOutput ev = true) evs
    /\ exitStatus (run exampleWorld argsShow []).1 = 0
    /\ Forall quiet (run exampleWorld argsShow []).2.
Proof.
  apply (show_prints_command_line exampleWorld argsShow argsShow
           (set_env "dev" argsShow) printStderr "/home/user/.cache/podenv"
           [] _ exampleEnv exampleCtx); reflexivity.
Defined.

(** X15: which sections [showEnv] writes: the [Containerfile:] record
    exactly for a [localhost/] image whose context has a non-empty
    container file; the [Containerfile for update:] record exactly when,
    moreover, [verbose] is set and the context has a non-empty update
    recipe; the [Schema:] record exactly with [debug] and the
    [Environment:] record exactly with [verbose]. *)
Theorem show_sections
    (w : World) (verbose debug : bool) (env : Env) (ctx : ExecContext) :
  let shown := (showEnv w verbose debug env ctx []).2 in
  let localImage := startswith "localhost/" (image env) in
  (Log "info" "Containerfile:" ∈ shown <->
   localImage = true /\ truthy (ctx_containerFile ctx) = true)
  /\ (Log "info" "Containerfile for update:" ∈ shown <->
      verbose = true /\ localImage = true
      /\ truthy (containerUpdate ctx) = true)
  /\ (Log "debug" "Schema:" ∈ shown <-> debug = true)
  /\ (Log "debug" "Environment:" ∈ shown <-> verbose = true).
Proof.
  rewrite showEnv_trace. unfold showSections. cbn [snd app].
  rewrite !elem_of_app, !elem_of_section, !elem_of_cons, !elem_of_nil,
    !andb_true_iff.
  split; [|split; [|split]];
    (split;
     [ intros H; destruct_or?; destruct_and?; destruct_or?;
       try discriminate; try done; auto
     | intros H; destruct_and?; auto 12 ]).
Qed.

(* ===================================================================== *)
(** ** Further properties of the life cycle of the pod *)
(* ===================================================================== *)

Section LifecycleFacts.
Variable w : World.

Lemma perform_eq c tr :
  perform w c tr =
    (match pod w c tr with None => Ret tt | Some e => Raise e end,
     tr ++ [Called c (pod w c tr)]).
Proof. unfold perform. by destruct (pod w c tr). Qed.

Lemma run_reachesLifecycle args a notify cacheDir ctx tr :
  reachesLifecycle w args a notify cacheDir ctx tr ->
  run w args [] = lifecycle w a notify cacheDir ctx tr
  /\ sameRequest args a.
Proof.
  intros (a1 & tr0 & env & Hs & Hp & Hshow).
  destruct (startup_spec _ _ _ _ _ _ _ Hs) as (S1 & _).
  pose proof (prelude_spec _ _ _ _ _ _ _ _ Hp) as S2.
  split; [|by eapply sameRequest_trans].
  unfold run, bind at 1. rewrite Hs. unfold bind at 1. rewrite Hp.
  by rewrite (same_show _ _ S2), (same_show _ _ S1), Hshow.
Qed.

Lemma phase_failure_outcome args a notify msg trF
    (ran : result unit * trace) :
  args_debug a = args_debug args ->
  (forall e tr', @reportFailure w unit a notify msg trF = (Raise e, tr') ->
                 ran = (Raise e, tr')) ->
  if args_debug args then ran = (Raise (RuntimeError msg), trF)
  else exists r evs, ran = (r, trF ++ evs) /\ reportedFailure msg r evs.
Proof.
  intros Hd Hran. unfold reportFailure in Hran. rewrite Hd in Hran.
  destruct (args_debug args); [by apply Hran|].
  destruct (fail_reported w (A:=unit) notify msg trF) as (e & evs & E & Hrep).
  exists (Raise e), evs. split; [by apply Hran|done].
Qed.

Lemma postPhase_trace a notify ctx z tr :
  exists r evs,
    postPhase w a notify ctx z tr =
      (r, tr ++ Called (postTasksCall ctx) (pod w (postTasksCall ctx) tr)
             :: evs)
    /\ Forall (fun ev => isOutput ev = true) evs
    /\ (pod w (postTasksCall ctx) tr = None ->
        r = Raise (SystemExit z) /\ evs = [Log "debug" "Complete"]).
Proof.
  unfold postPhase, postTasksCall, bind at 1, exceptRuntimeError.
  rewrite perform_eq.
  destruct (pod w (ExecuteHostTasks (hostPostTasks ctx)) tr) as [e|] eqn:Hp.
  - destruct e;
      try (exists (Raise e0), []; split; [done|]; split; [constructor|done]);
      try (eexists _, []; split; [reflexivity|]; split; [constructor|done]).
    destruct (args_debug a).
    + eexists _, []. split; [reflexivity|]. split; [constructor|done].
    + unfold bind, emit, ret, raise.
      eexists _, [_; _]. split; [trace_eq|]. split; [|done].
      by repeat constructor.
  - unfold bind, emit, ret, raise.
    eexists _, [_]. split; [trace_eq|]. split; [by repeat constructor|done].
Qed.

Lemma bind_never_returns {A B} (m : M trace A) (k : A -> M trace B) tr :
  (forall a tr1, exists e tr', k a tr1 = (Raise e, tr')) ->
  exists e tr', bind m k tr = (Raise e, tr').
Proof. intros Hk. unfold bind. destruct (m tr) as [[a|e] tr1]; eauto. Qed.

Lemma postPhase_never_returns a notify ctx z tr :
  exists e tr', postPhase w a notify ctx z tr = (Raise e, tr').
Proof.
  unfold postPhase. do 3 (apply bind_never_returns; intros).
  unfold raise. eauto.
Qed.

Lemma lifecycle_never_returns a notify cacheDir ctx tr :
  exists e tr', lifecycle w a notify cacheDir ctx tr = (Raise e, tr').
Proof.
  unfold lifecycle. do 3 (apply bind_never_returns; intros).
  apply postPhase_never_returns.
Qed.

Lemma resolveEnv_none a tr tr' :
  resolveEnv w a tr = (Ret None, tr') ->
  args_list a && negb (args_show a) = true.
Proof.
  unfold resolveEnv, bind at 1, invoke.
  destruct (loadConfig w _ _ _ _) as [conf|e]; [|discriminate].
  destruct (args_list a && negb (args_show a)); [done|].
  unfold bind, ret, raise, emit, invoke.
  destruct (negb (truthy (args_env a)));
    [destruct conf as [|[k v] [|]]|]; try discriminate;
    by destruct (getEnv w _ _).
Qed.

Lemma prelude_none a1 notify tr tr' :
  prelude w a1 notify tr = (Ret None, tr') ->
  args_list a1 && negb (args_show a1) = true.
Proof.
  unfold prelude, exceptRuntimeError, bind at 1.
  destruct (resolveEnv w a1 tr) as [[[[a2 env]|]|e] tr1] eqn:Hr.
  - unfold bind, mutating, invoke, ret.
    destruct (applyCommandLineOverride (host w) a2 env) as [[[]|e] env'].
    + simpl. destruct (prepareEnv w env' (args_args a2)) as [ctx|e];
        [discriminate|].
      destruct e; intros; simplify_eq. handler_never_returns.
    + destruct e; intros; simplify_eq. handler_never_returns.
  - intros _. by eapply resolveEnv_none.
  - destruct e; intros; simplify_eq. handler_never_returns.
Qed.
End LifecycleFacts.

(** X16: a run in which every adapter operation returns calls them in
    the order update (only with [--update]), setup-image, setup-pod,
    pre-tasks, pod, post-tasks, logs [Complete] and exits with 0. *)
Theorem successful_run_order
    (w : World) (args a : Namespace) (notify : UserNotif)
    (cacheDir : string) (ctx : ExecContext) (tr : trace) :
  reachesLifecycle w args a notify cacheDir ctx tr ->
  (forall c tr', pod w c tr' = None) ->
  args_update args && args_rebuild args = false ->
  run w args [] =
    (Raise (SystemExit 0),
     tr ++ (if args_update args
            then [Called (UpdateImage notify ctx cacheDir) None] else [])
        ++ [Called (SetupImage notify ctx (args_rebuild args) cacheDir) None;
            Called (SetupPod notify ctx (args_rebuild args)) None;
            Called (preTasksCall ctx) None;
            Called (podCall ctx) None;
            Called (postTasksCall ctx) None;
            Log "debug" "Complete"])
  /\ exitStatus (run w args []).1 = 0.
Proof.
  intros Hreach Hpod Hur.
  destruct (run_reachesLifecycle w _ _ _ _ _ _ Hreach) as [Hrun S].
  rewrite Hrun.
  unfold lifecycle, updatePhase, setupPhase, executePhase, postPhase,
    preTasksCall, podCall, postTasksCall.
  rewrite (same_update _ _ S), (same_rebuild _ _ S).
  unfold bind, exceptRuntimeError, tryExcept, when, ret, raise, emit.
  destruct (args_update args), (args_rebuild args); try discriminate;
    repeat (rewrite perform_eq, Hpod; cbv beta iota);
    rewrite <- ?app_assoc; done.
Qed.

Lemma successful_run_order_witness :
  run exampleWorld noArgs [] =
    (Raise (SystemExit 0),
     [Called (LoadConfig false None "~/.config/podenv/config.dhall" false)
             None;
      Called (GetEnv exampleConf "dev") None;
      Called (PrepareEnv exampleEnv []) None]
     ++ (if args_update noArgs
         then [Called (UpdateImage printStderr exampleCtx
                                   "/home/user/.cache/podenv") None]
         else [])
     ++ [Called (SetupImage printStderr exampleCtx (args_rebuild noArgs)
                            "/home/user/.cache/podenv") None;
         Called (SetupPod printStderr exampleCtx (args_rebuild noArgs)) None;
         Called (preTasksCall exampleCtx) None;
         Called (podCall exampleCtx) None;
         Called (postTasksCall exampleCtx) None;
         Log "debug" "Complete"])
  /\ exitStatus (run exampleWorld noArgs []).1 = 0.
Proof.
  apply (successful_run_order exampleWorld noArgs (set_env "dev" noArgs)
           printStderr "/home/user/.cache/podenv" exampleCtx).
  - exists noArgs, [], exampleEnv. repeat split; reflexivity.
  - reflexivity.
  - reflexivity.
Defined.

(** X17: with [--update] (and no [--rebuild]), when [updateImage] fails
    with a [RuntimeError] the run ends there: with [--debug] the error
    is re-raised, otherwise it is reported through [fail]; neither
    setup-image, setup-pod, a host task nor the pod is called. *)
Theorem update_failure_stops_run
    (w : World) (args a : Namespace) (notify : UserNotif)
    (cacheDir : string) (ctx : ExecContext) (tr : trace) (msg : string) :
  let failed :=
    Called (UpdateImage notify ctx cacheDir) (Some (RuntimeError msg)) in
  reachesLifecycle w args a notify cacheDir ctx tr ->
  args_update args = true -> args_rebuild args = false ->
  pod w (UpdateImage notify ctx cacheDir) tr = Some (RuntimeError msg) ->
  if args_debug args then
    run w args [] = (Raise (RuntimeError msg), tr ++ [failed])
  else
    exists r evs,
      run w args [] = (r, (tr ++ [failed]) ++ evs)
      /\ reportedFailure msg r evs.
Proof.
  intros failed Hreach Hu Hr Hp.
  destruct (run_reachesLifecycle w _ _ _ _ _ _ Hreach) as [Hrun S].
  apply (phase_failure_outcome w args a notify msg);
    [apply (same_debug _ _ S)|].
  intros e tr' E. rewrite Hrun.
  unfold lifecycle, bind at 1, updatePhase, exceptRuntimeError.
  rewrite (same_update _ _ S), (same_rebuild _ _ S), Hu, Hr.
  unfold when, bind at 1, ret. rewrite perform_eq, Hp. fold failed.
  by rewrite E.
Qed.

Lemma update_failure_stops_run_witness :
  exists r evs,
    run (failingWorld isUpdateImage "failed: buildah run") argsUpdate [] =
      (r,
       ([Called (LoadConfig false None "~/.config/podenv/config.dhall" false)
                None;
         Called (GetEnv exampleConf "dev") None;
         Called (PrepareEnv exampleEnv []) None]
        ++ [Called (UpdateImage printStderr exampleCtx
                                "/home/user/.cache/podenv")
                   (Some (RuntimeError "failed: buildah run"))])
       ++ evs)
    /\ reportedFailure "failed: buildah run" r evs.
Proof.
  apply (update_failure_stops_run
           (failingWorld isUpdateImage "failed: buildah run")
           argsUpdate (set_env "dev" argsUpdate) printStderr
           "/home/user/.cache/podenv" exampleCtx); try reflexivity.
  exists argsUpdate, [], exampleEnv. repeat split; reflexivity.
Defined.

(** X18: without [--update], when [setupImage], or [setupPod] after it,
    fails with a [RuntimeError] the run ends there, re-raising with
    [--debug] and reporting through [fail] otherwise: after a failed
    setup-image there is no setup-pod, and after either failure neither
    a host task nor the pod is called. *)
Theorem setup_failure_stops_run
    (w : World) (args a : Namespace) (notify : UserNotif)
    (cacheDir : string) (ctx : ExecContext) (tr : trace) (msg : string) :
  let image := SetupImage notify ctx (args_rebuild args) cacheDir in
  let setup := SetupPod notify ctx (args_rebuild args) in
  reachesLifecycle w args a notify cacheDir ctx tr ->
  args_update args = false ->
  forall failed : list event,
    (pod w image tr = Some (RuntimeError msg)
     /\ failed = [Called image (Some (RuntimeError msg))])
    \/ (pod w image tr = None
        /\ pod w setup (tr ++ [Called image None]) = Some (RuntimeError msg)
        /\ failed = [Called image None;
                     Called setup (Some (RuntimeError msg))]) ->
    if args_debug args then
      run w args [] = (Raise (RuntimeError msg), tr ++ failed)
    else
      exists r evs,
        run w args [] = (r, (tr ++ failed) ++ evs)
        /\ reportedFailure msg r evs.
Proof.
  intros image setup Hreach Hu failed Hfail.
  destruct (run_reachesLifecycle w _ _ _ _ _ _ Hreach) as [Hrun S].
  apply (phase_failure_outcome w args a notify msg);
    [apply (same_debug _ _ S)|].
  intros e tr' E. rewrite Hrun.
  unfold lifecycle, bind at 1, updatePhase, exceptRuntimeError.
  rewrite (same_update _ _ S), Hu. unfold when, ret.
  unfold bind at 1, setupPhase, exceptRuntimeError.
  rewrite (same_rebuild _ _ S). fold image setup.
  unfold bind at 1. rewrite perform_eq.
  destruct Hfail as [[Hp ->]|(Hi & Hp & ->)].
  - rewrite Hp. by rewrite E.
  - rewrite Hi, perform_eq, Hp.
    replace (tr ++ [Called image None; Called setup (Some (RuntimeError msg))])
      with ((tr ++ [Called image None])
              ++ [Called setup (Some (RuntimeError msg))]) in E
      by (by rewrite <- app_assoc).
    by rewrite E.
Qed.

Lemma setup_failure_stops_run_witness :
  exists r evs,
    run (failingWorld isSetupPod "failed: podman create") noArgs [] =
      (r,
       ([Called (LoadConfig false None "~/.config/podenv/config.dhall" false)
                None;
         Called (GetEnv exampleConf "dev") None;
         Called (PrepareEnv exampleEnv []) None]
        ++ [Called (SetupImage printStderr exampleCtx false
                               "/home/user/.cache/podenv") None;
            Called (SetupPod printStderr exampleCtx false)
                   (Some (RuntimeError "failed: podman create"))])
       ++ evs)
    /\ reportedFailure "failed: podman create" r evs.
Proof.
  apply (setup_failure_stops_run
           (failingWorld isSetupPod "failed: podman create")
           noArgs (set_env "dev" noArgs) printStderr
           "/home/user/.cache/podenv" exampleCtx).
  - exists noArgs, [], exampleEnv. repeat split; reflexivity.
  - reflexivity.
  - right. repeat split; reflexivity.
Defined.

Section ExecuteFacts.
Variable w : World.

Lemma run_after_execute args a notify ctx tr z tr' :
  reachesExecute w args a notify ctx tr ->
  executePhase w ctx tr = (Ret z, tr') ->
  exists r evs,
    run w args [] =
      (r, tr' ++ Called (postTasksCall ctx) (pod w (postTasksCall ctx) tr')
              :: evs)
    /\ Forall (fun ev => isOutput ev = true) evs
    /\ (pod w (postTasksCall ctx) tr' = None ->
        r = Raise (SystemExit z) /\ evs = [Log "debug" "Complete"]).
Proof.
  intros Hreach He.
  destruct (run_reachesExecute w _ _ _ _ _ Hreach) as [Hrun _].
  rewrite Hrun. unfold bind at 1. rewrite He. apply postPhase_trace.
Qed.

Lemma run_execute_raises args a notify ctx tr e tr' :
  reachesExecute w args a notify ctx tr ->
  executePhase w ctx tr = (Raise e, tr') ->
  run w args [] = (Raise e, tr').
Proof.
  intros Hreach He.
  destruct (run_reachesExecute w _ _ _ _ _ Hreach) as [Hrun _].
  rewrite Hrun. unfold bind at 1. by rewrite He.
Qed.
End ExecuteFacts.

(** X19: when the host pre-tasks fail with a [RuntimeError], the pod is
    not executed and [killPod] is not called; the error is dropped
    without a message and the run goes on with the host post-tasks;
    when these return, the run logs [Complete] and exits with 1. *)
Theorem pre_task_failure_skips_pod
    (w : World) (args a : Namespace) (notify : UserNotif)
    (ctx : ExecContext) (tr : trace) (msg : string) :
  let tr' := tr ++ [Called (preTasksCall ctx) (Some (RuntimeError msg))] in
  let post := pod w (postTasksCall ctx) tr' in
  reachesExecute w args a notify ctx tr ->
  pod w (preTasksCall ctx) tr = Some (RuntimeError msg) ->
  exists r evs,
    run w args [] = (r, tr' ++ Called (postTasksCall ctx) post :: evs)
    /\ Forall (fun ev => isOutput ev = true) evs
    /\ (post = None ->
        r = Raise (SystemExit 1) /\ evs = [Log "debug" "Complete"]).
Proof.
  intros tr' post Hreach Hp.
  apply (run_after_execute w args a notify ctx tr); [done|].
  unfold executePhase, tryExcept, bind at 1. fold (preTasksCall ctx).
  by rewrite perform_eq, Hp.
Qed.

Lemma pre_task_failure_skips_pod_witness :
  run (failingWorld isPreTasks "failed: mkdir") noArgs [] =
    (Raise (SystemExit 1),
     ([Called (LoadConfig false None "~/.config/podenv/config.dhall" false)
              None;
       Called (GetEnv exampleConf "dev") None;
       Called (PrepareEnv exampleEnv []) None;
       Called (SetupImage printStderr exampleCtx false
                          "/home/user/.cache/podenv") None;
       Called (SetupPod printStderr exampleCtx false) None]
      ++ [Called (preTasksCall exampleCtx)
                (Some (RuntimeError "failed: mkdir"))])
     ++ [Called (postTasksCall exampleCtx) None; Log "debug" "Complete"]).
Proof.
  destruct (pre_task_failure_skips_pod (failingWorld isPreTasks "failed: mkdir") noArgs
              (set_env "dev" noArgs) printStderr exampleCtx
              [Called (LoadConfig false None "~/.config/podenv/config.dhall" false)
                     None;
              Called (GetEnv exampleConf "dev") None;
              Called (PrepareEnv exampleEnv []) None;
              Called (SetupImage printStderr exampleCtx false
                                 "/home/user/.cache/podenv") None;
              Called (SetupPod printStderr exampleCtx false) None]
              "failed: mkdir")
    as (r & evs & E & _ & H).
  - exists noArgs, "/home/user/.cache/podenv". do 4 eexists.
    repeat split; vm_compute; reflexivity.
  - reflexivity.
  - destruct (H eq_refl) as [-> ->]. exact E.
Defined.

(** X20: when the pod fails with a [RuntimeError], [killPod] is not
    called and no message is written; the run goes on with the host
    post-tasks and, when these return, logs [Complete] and exits
    with 1. *)
Theorem pod_failure_exits_1
    (w : World) (args a : Namespace) (notify : UserNotif)
    (ctx : ExecContext) (tr : trace) (msg : string) :
  let tr' := tr ++ [Called (preTasksCall ctx) None;
                    Called (podCall ctx) (Some (RuntimeError msg))] in
  let post := pod w (postTasksCall ctx) tr' in
  reachesExecute w args a notify ctx tr ->
  pod w (preTasksCall ctx) tr = None ->
  pod w (podCall ctx) (tr ++ [Called (preTasksCall ctx) None])
    = Some (RuntimeError msg) ->
  exists r evs,
    run w args [] = (r, tr' ++ Called (postTasksCall ctx) post :: evs)
    /\ Forall (fun ev => isOutput ev = true) evs
    /\ (post = None ->
        r = Raise (SystemExit 1) /\ evs = [Log "debug" "Complete"]).
Proof.
  intros tr' post Hreach Hpre Hp.
  apply (run_after_execute w args a notify ctx tr); [done|].
  unfold executePhase, tryExcept, bind at 1.
  fold (preTasksCall ctx) (podCall ctx).
  rewrite perform_eq, Hpre. unfold bind at 1. rewrite perform_eq, Hp.
  unfold tr'. by rewrite <- app_assoc.
Qed.

Lemma pod_failure_exits_1_witness :
  run (failingWorld isExecutePod "failed: podman run") noArgs [] =
    (Raise (SystemExit 1),
     ([Called (LoadConfig false None "~/.config/podenv/config.dhall" false)
              None;
       Called (GetEnv exampleConf "dev") None;
       Called (PrepareEnv exampleEnv []) None;
       Called (SetupImage printStderr exampleCtx false
                          "/home/user/.cache/podenv") None;
       Called (SetupPod printStderr exampleCtx false) None]
      ++ [Called (preTasksCall exampleCtx) None;
         Called (podCall exampleCtx)
                (Some (RuntimeError "failed: podman run"))])
     ++ [Called (postTasksCall exampleCtx) None; Log "debug" "Complete"]).
Proof.
  destruct (pod_failure_exits_1 (failingWorld isExecutePod "failed: podman run") noArgs
              (set_env "dev" noArgs) printStderr exampleCtx
              [Called (LoadConfig false None "~/.config/podenv/config.dhall" false)
                     None;
              Called (GetEnv exampleConf "dev") None;
              Called (PrepareEnv exampleEnv []) None;
              Called (SetupImage printStderr exampleCtx false
                                 "/home/user/.cache/podenv") None;
              Called (SetupPod printStderr exampleCtx false) None]
              "failed: podman run")
    as (r & evs & E & _ & H).
  - exists noArgs, "/home/user/.cache/podenv". do 4 eexists.
    repeat split; vm_compute; reflexivity.
  - reflexivity.
  - reflexivity.
  - destruct (H eq_refl) as [-> ->]. exact E.
Defined.

(** X21: an exception of the host pre-tasks or of the pod that is
    neither a [RuntimeError] nor a [KeyboardInterrupt] is not handled:
    it leaves [run] at once; [killPod] is not called, the host
    post-tasks are not run and nothing is written. *)
Theorem other_exception_skips_post_tasks
    (w : World) (args a : Namespace) (notify : UserNotif)
    (ctx : ExecContext) (tr : trace) (e : exn) (failed : list event) :
  reachesExecute w args a notify ctx tr ->
  isRuntimeError e = false -> e <> KeyboardInterrupt ->
  (pod w (preTasksCall ctx) tr = Some e
   /\ failed = [Called (preTasksCall ctx) (Some e)])
  \/ (pod w (preTasksCall ctx) tr = None
      /\ pod w (podCall ctx) (tr ++ [Called (preTasksCall ctx) None])
         = Some e
      /\ failed = [Called (preTasksCall ctx) None;
                   Called (podCall ctx) (Some e)]) ->
  run w args [] = (Raise e, tr ++ failed).
Proof.
  intros Hreach Hrt Hki Hfail.
  apply (run_execute_raises w args a notify ctx tr); [done|].
  unfold executePhase, tryExcept, bind at 1.
  fold (preTasksCall ctx) (podCall ctx). rewrite perform_eq.
  destruct Hfail as [[Hp ->]|(Hpre & Hp & ->)].
  - rewrite Hp. by destruct e.
  - rewrite Hpre. unfold bind at 1. rewrite perform_eq, Hp.
    rewrite <- app_assoc. by destruct e.
Qed.

Lemma other_exception_skips_post_tasks_witness :
  run diskFullWorld noArgs [] =
    (Raise (OtherError "OSError" "[Errno 28] No space left on device"),
     [Called (LoadConfig false None "~/.config/podenv/config.dhall" false)
             None;
      Called (GetEnv exampleConf "dev") None;
      Called (PrepareEnv exampleEnv []) None;
      Called (SetupImage printStderr exampleCtx false
                         "/home/user/.cache/podenv") None;
      Called (SetupPod printStderr exampleCtx false) None]
     ++ [Called (preTasksCall exampleCtx) None;
         Called (podCall exampleCtx)
                (Some (OtherError "OSError"
                                  "[Errno 28] No space left on device"))]).
Proof.
  apply (other_exception_skips_post_tasks diskFullWorld noArgs
           (set_env "dev" noArgs) printStderr exampleCtx).
  - exists noArgs, "/home/user/.cache/podenv". do 4 eexists.
    repeat split; vm_compute; reflexivity.
  - reflexivity.
  - discriminate.
  - right. repeat split; reflexivity.
Defined.

(** X22: when the host pre-tasks are interrupted ([KeyboardInterrupt]),
    the pod is never executed, yet [killPod] is called for it; if the
    kill returns or fails with a [RuntimeError], the run goes on with
    the host post-tasks and, when these return, exits with 1. *)
Theorem interrupted_pre_tasks_kill_pod
    (w : World) (args a : Namespace) (notify : UserNotif)
    (ctx : ExecContext) (tr : trace) :
  let interrupted := Called (preTasksCall ctx) (Some KeyboardInterrupt) in
  let killed := pod w (KillPod (name ctx)) (tr ++ [interrupted]) in
  let tr' := tr ++ [interrupted; Called (KillPod (name ctx)) killed] in
  let post := pod w (postTasksCall ctx) tr' in
  reachesExecute w args a notify ctx tr ->
  pod w (preTasksCall ctx) tr = Some KeyboardInterrupt ->
  (forall e, killed = Some e -> isRuntimeError e = true) ->
  exists r evs,
    run w args [] = (r, tr' ++ Called (postTasksCall ctx) post :: evs)
    /\ Forall (fun ev => isOutput ev = true) evs
    /\ (post = None ->
        r = Raise (SystemExit 1) /\ evs = [Log "debug" "Complete"]).
Proof.
  intros interrupted killed tr' post Hreach Hp Hk.
  apply (run_after_execute w args a notify ctx tr); [done|].
  unfold executePhase, tryExcept, bind at 1. fold (preTasksCall ctx).
  rewrite perform_eq, Hp. fold interrupted.
  unfold bind at 1, exceptRuntimeError. rewrite perform_eq. fold killed.
  unfold tr'. replace (tr ++ [interrupted; Called (KillPod (name ctx)) killed])
    with ((tr ++ [interrupted]) ++ [Called (KillPod (name ctx)) killed])
    by (by rewrite <- app_assoc).
  destruct killed as [e|]; [|done].
  specialize (Hk e eq_refl). by destruct e.
Qed.

Lemma interrupted_pre_tasks_kill_pod_witness :
  run interruptedPreTasksWorld noArgs [] =
    (Raise (SystemExit 1),
     ([Called (LoadConfig false None "~/.config/podenv/config.dhall" false)
              None;
       Called (GetEnv exampleConf "dev") None;
       Called (PrepareEnv exampleEnv []) None;
       Called (SetupImage printStderr exampleCtx false
                          "/home/user/.cache/podenv") None;
       Called (SetupPod printStderr exampleCtx false) None]
      ++ [Called (preTasksCall exampleCtx) (Some KeyboardInterrupt);
         Called (KillPod "dev") None])
     ++ [Called (postTasksCall exampleCtx) None; Log "debug" "Complete"]).
Proof.
  destruct (interrupted_pre_tasks_kill_pod interruptedPreTasksWorld noArgs
              (set_env "dev" noArgs) printStderr exampleCtx
              [Called (LoadConfig false None "~/.config/podenv/config.dhall" false)
                     None;
              Called (GetEnv exampleConf "dev") None;
              Called (PrepareEnv exampleEnv []) None;
              Called (SetupImage printStderr exampleCtx false
                                 "/home/user/.cache/podenv") None;
              Called (SetupPod printStderr exampleCtx false) None])
    as (r & evs & E & _ & H).
  - exists noArgs, "/home/user/.cache/podenv". do 4 eexists.
    repeat split; vm_compute; reflexivity.
  - reflexivity.
  - discriminate.
  - destruct (H eq_refl) as [-> ->]. exact E.
Defined.

(** X23: when the pod is interrupted and [killPod] raises anything but
    a [RuntimeError] (a second interrupt, say), that exception leaves
    [run] at once: the host post-tasks are not run. *)
Theorem kill_failure_propagates
    (w : World) (args a : Namespace) (notify : UserNotif)
    (ctx : ExecContext) (tr : trace) (e : exn) :
  let tr' := tr ++ [Called (preTasksCall ctx) None;
                    Called (podCall ctx) (Some KeyboardInterrupt)] in
  reachesExecute w args a notify ctx tr ->
  pod w (preTasksCall ctx) tr = None ->
  pod w (podCall ctx) (tr ++ [Called (preTasksCall ctx) None])
    = Some KeyboardInterrupt ->
  pod w (KillPod (name ctx)) tr' = Some e ->
  isRuntimeError e = false ->
  run w args [] = (Raise e, tr' ++ [Called (KillPod (name ctx)) (Some e)]).
Proof.
  intros tr' Hreach Hpre Hp Hk Hrt.
  apply (run_execute_raises w args a notify ctx tr); [done|].
  unfold executePhase, tryExcept, bind at 1.
  fold (preTasksCall ctx) (podCall ctx).
  rewrite perform_eq, Hpre. unfold bind at 1. rewrite perform_eq, Hp.
  rewrite <- app_assoc. cbn [app]. fold tr'.
  unfold bind at 1, exceptRuntimeError. rewrite perform_eq, Hk.
  by destruct e.
Qed.

Lemma kill_failure_propagates_witness :
  run interruptedTwiceWorld noArgs [] =
    (Raise KeyboardInterrupt,
     ([Called (LoadConfig false None "~/.config/podenv/config.dhall" false)
              None;
       Called (GetEnv exampleConf "dev") None;
       Called (PrepareEnv exampleEnv []) None;
       Called (SetupImage printStderr exampleCtx false
                          "/home/user/.cache/podenv") None;
       Called (SetupPod printStderr exampleCtx false) None]
      ++ [Called (preTasksCall exampleCtx) None;
          Called (podCall exampleCtx) (Some KeyboardInterrupt)])
     ++ [Called (KillPod (name exampleCtx)) (Some KeyboardInterrupt)]).
Proof.
  apply (kill_failure_propagates interruptedTwiceWorld noArgs
           (set_env "dev" noArgs) printStderr exampleCtx).
  - exists noArgs, "/home/user/.cache/podenv". do 4 eexists.
    repeat split; vm_compute; reflexivity.
  - reflexivity.
  - reflexivity.
  - reflexivity.
  - reflexivity.
Defined.

(** X24: for a run that reaches the execution phase, and provided no
    adapter operation leaves the process through [exit], the exit
    status is 0 exactly when the host pre-tasks and the pod both
    return and the host post-tasks either return or, without
    [--debug], fail with a [RuntimeError]. *)
Theorem exit_status_zero_iff
    (w : World) (args a : Namespace) (notify : UserNotif)
    (ctx : ExecContext) (tr : trace) :
  let tr' := tr ++ [Called (preTasksCall ctx) None;
                    Called (podCall ctx) None] in
  reachesExecute w args a notify ctx tr ->
  (forall c tr0 code, pod w c tr0 <> Some (SystemExit code)) ->
  exitStatus (run w args []).1 = 0 <->
  pod w (preTasksCall ctx) tr = None
  /\ pod w (podCall ctx) (tr ++ [Called (preTasksCall ctx) None]) = None
  /\ (pod w (postTasksCall ctx) tr' = None
      \/ (args_debug args = false
          /\ exists msg,
               pod w (postTasksCall ctx) tr' = Some (RuntimeError msg))).
Proof.
  intros tr' Hreach Hexit.
  destruct (run_reachesExecute w _ _ _ _ _ Hreach) as [Hrun Hd].
  rewrite Hrun, <- Hd. clear Hrun Hd Hreach. subst tr'.
  unfold bind at 1, executePhase, tryExcept, bind at 1.
  fold (preTasksCall ctx) (podCall ctx). rewrite perform_eq.
  assert (forall z tr1,
             exitStatus (postPhase w a notify ctx z tr1).1 = 0 <->
             z = 0
             /\ (pod w (postTasksCall ctx) tr1 = None
                 \/ (args_debug a = false
                     /\ exists msg,
                          pod w (postTasksCall ctx) tr1
                          = Some (RuntimeError msg)))) as Hpost.
  { intros z tr1. unfold postPhase, bind at 1, exceptRuntimeError.
    fold (postTasksCall ctx). rewrite perform_eq.
    destruct (pod w (postTasksCall ctx) tr1) as [e|] eqn:Hp.
    - destruct e; cbv beta iota;
        try (simpl; split; [done|by intros (_ & [|(_ & ? & ?)])]).
      + destruct (args_debug a); simpl.
        * split; [done|by intros (_ & [|(? & _)])].
        * split; [eauto 6|by intros [-> _]].
      + by destruct (Hexit _ _ _ Hp).
    - simpl. split; [auto|by intros [-> _]]. }
  assert (forall (e : exn) (tr1 : trace) (Q : Prop),
             (forall code, e <> SystemExit code) ->
             exitStatus (@Raise unit e, tr1).1 = 0 <-> False /\ Q) as Hraise.
  { intros e tr1 Q He. destruct e; simpl; try (split; [done|tauto]).
    split; [|tauto]. intros ->. by destruct (He 0). }
  destruct (pod w (preTasksCall ctx) tr) as [e|] eqn:Hpre.
  - assert (forall Q : Prop, (Some e = None /\ Q) <-> (False /\ Q)) as ->
      by (intros; split; intros [? _]; done).
    assert (forall code, e <> SystemExit code) as He
      by (intros code ->; by eapply Hexit).
    destruct e; cbv beta iota delta [ret]; try (by apply Hraise).
    + rewrite Hpost. split; [by intros [? _]|tauto].
    + unfold bind at 1, exceptRuntimeError. rewrite perform_eq.
      destruct (pod w (KillPod (name ctx)) _) as [e|] eqn:Hk.
      * assert (forall code, e <> SystemExit code) as He'
          by (intros code ->; by eapply Hexit).
        destruct e; cbv beta iota delta [ret]; try (by apply Hraise).
        rewrite Hpost. split; [by intros [? _]|tauto].
      * cbv beta iota delta [ret]. rewrite Hpost. split; [by intros [? _]|tauto].
  - unfold bind at 1. rewrite perform_eq, <- app_assoc. cbn [app].
    destruct (pod w (podCall ctx) _) as [e|] eqn:Hp.
    + assert (forall Q : Prop,
                 (@None exn = None /\ Some e = None /\ Q) <-> (False /\ Q))
        as -> by (intros; split; [intros (_ & ? & _)|intros [? _]]; done).
      assert (forall code, e <> SystemExit code) as He
        by (intros code ->; by eapply Hexit).
      destruct e; cbv beta iota delta [ret]; try (by apply Hraise).
      * rewrite Hpost. split; [by intros [? _]|tauto].
      * unfold bind at 1, exceptRuntimeError. rewrite perform_eq.
        destruct (pod w (KillPod (name ctx)) _) as [e|] eqn:Hk.
        -- assert (forall code, e <> SystemExit code) as He'
             by (intros code ->; by eapply Hexit).
           destruct e; cbv beta iota delta [ret]; try (by apply Hraise).
           rewrite Hpost. split; [by intros [? _]|tauto].
        -- cbv beta iota delta [ret]. rewrite Hpost. split; [by intros [? _]|tauto].
    + cbv beta iota delta [ret]. rewrite Hpost. tauto.
Qed.

Lemma exit_status_zero_iff_witness :
  exitStatus (run exampleWorld noArgs []).1 = 0.
Proof.
  apply (exit_status_zero_iff exampleWorld noArgs (set_env "dev" noArgs)
           printStderr exampleCtx
           [Called (LoadConfig false None "~/.config/podenv/config.dhall"
                               false) None;
            Called (GetEnv exampleConf "dev") None;
            Called (PrepareEnv exampleEnv []) None;
            Called (SetupImage printStderr exampleCtx false
                               "/home/user/.cache/podenv") None;
            Called (SetupPod printStderr exampleCtx false) None]).
  - exists noArgs, "/home/user/.cache/podenv". do 4 eexists.
    repeat split; vm_compute; reflexivity.
  - discriminate.
  - split; [reflexivity|]. split; [reflexivity|]. left. reflexivity.
Defined.

(** X25: [run] returns to its caller only with [--list] or [--show]:
    every other run ends in [exit] or in an exception. *)
Theorem run_returns_only_for_list_and_show (w : World) (args : Namespace) :
  (run w args []).1 = Ret tt ->
  args_show args = true \/ args_list args = true.
Proof.
  unfold run, bind at 1.
  destruct (startup w args []) as [[[[a1 notify] cacheDir]|e] tr0] eqn:Hs;
    [|discriminate].
  destruct (startup_spec _ _ _ _ _ _ _ Hs) as (S1 & _).
  unfold bind at 1.
  destruct (prelude w a1 notify tr0) as [[[[[a env] ctx]|]|e] tr1] eqn:Hp;
    [| |discriminate].
  - pose proof (prelude_spec _ _ _ _ _ _ _ _ Hp) as S2.
    destruct (args_show a) eqn:Hshow.
    + intros _. left. by rewrite <- (same_show _ _ S1), <- (same_show _ _ S2).
    + destruct (lifecycle_never_returns w a notify cacheDir ctx tr1)
        as (e & tr' & ->). discriminate.
  - intros _. right. apply prelude_none in Hp.
    apply andb_true_iff in Hp as [Hl _].
    by rewrite <- (same_list _ _ S1).
Qed.

Lemma run_returns_only_for_list_and_show_witness :
  args_show argsList = true \/ args_list argsList = true.
Proof.
  apply (run_returns_only_for_list_and_show exampleWorld argsList).
  reflexivity.
Defined.

(* ===================================================================== *)
(** ** Further properties of [usageParser] *)
(* ===================================================================== *)

Lemma declareOptions_spec :
  declareOptions newParser = (Ret tt, optionsParser).
Proof. vm_compute. reflexivity. Qed.

Lemma optionsParser_NoDup : NoDup (registeredOptions optionsParser).
Proof. apply (bool_decide_unpack _). vm_compute. reflexivity. Qed.

Lemma add_argument_flag (f : string) act d (p : Parser) :
  add_argument [f] act d p =
    if String.eqb (lstripDash f) EmptyString then
      (Raise (ValueError ("dest= is required for options like '"
                            +:+ f +:+ "'")), p)
    else if bool_decide (f ∈ registeredOptions p) then
      (Raise (OtherError "ArgumentError"
                ("argument " +:+ f +:+ ": conflicting option string: "
                   +:+ f)), p)
    else (Ret tt,
          p ++ [mkArgument [f] (replace "-" "_" (lstripDash f)) act d]).
Proof.
  unfold add_argument, bind, liftResult, optionalDest.
  assert (match List.filter isLongOption [f] with
          | l :: _ => l
          | [] => hd EmptyString [f]
          end = f) as ->.
  { simpl. by destruct (isLongOption f). }
  destruct (String.eqb (lstripDash f) EmptyString); [done|].
  simpl. by destruct (bool_decide (f ∈ registeredOptions p)).
Qed.

Lemma registeredOptions_app p q :
  registeredOptions (p ++ q) = registeredOptions p ++ registeredOptions q.
Proof. unfold registeredOptions. apply flat_map_app. Qed.

Lemma disable_flag_differs (n : string) : "--no-" +:+ n <> "--" +:+ n.
Proof.
  intros H. apply (f_equal String.length) in H. simpl in H.
  assert (forall a b, String.length (a +:+ b)
                      = (String.length a + String.length b)%nat) as L.
  { induction a; simpl; intros; [done|]. by rewrite IHa. }
  simplify_eq/=. lia.
Qed.

Lemma declareCapability_ok c p :
  lstripDash c.1 <> EmptyString ->
  ("--" +:+ c.1) ∉ registeredOptions p ->
  ("--no-" +:+ c.1) ∉ registeredOptions p ->
  declareCapability c p = (Ret tt, p ++ capabilityArguments [c]).
Proof.
  intros Hd H1 H2. unfold declareCapability, bind.
  rewrite add_argument_flag.
  change (lstripDash ("--" +:+ c.1)) with (lstripDash c.1).
  destruct (String.eqb_spec (lstripDash c.1) EmptyString); [done|].
  rewrite bool_decide_false by done.
  rewrite add_argument_flag.
  change (lstripDash ("--no-" +:+ c.1)) with ("no-" +:+ c.1).
  change (String.eqb ("no-" +:+ c.1) EmptyString) with false. cbv iota.
  rewrite registeredOptions_app.
  change (registeredOptions [_]) with ["--" +:+ c.1].
  rewrite bool_decide_false; [by rewrite <- app_assoc|].
  intros [?|?%list_elem_of_singleton]%elem_of_app; [done|].
  by apply (disable_flag_differs c.1).
Qed.

Lemma declareCapability_ret c p p' :
  declareCapability c p = (Ret tt, p') ->
  lstripDash c.1 <> EmptyString
  /\ (("--" +:+ c.1) ∉ registeredOptions p)
  /\ (("--no-" +:+ c.1) ∉ registeredOptions p).
Proof.
  unfold declareCapability, bind. rewrite add_argument_flag.
  change (lstripDash ("--" +:+ c.1)) with (lstripDash c.1).
  destruct (String.eqb_spec (lstripDash c.1) EmptyString) as [E|E];
    [discriminate|].
  case_bool_decide as H1; [discriminate|].
  rewrite add_argument_flag.
  change (lstripDash ("--no-" +:+ c.1)) with ("no-" +:+ c.1).
  change (String.eqb ("no-" +:+ c.1) EmptyString) with false. cbv iota.
  rewrite registeredOptions_app.
  case_bool_decide as H2; [discriminate|].
  intros _. split; [done|]. split; [done|].
  intros H3. apply H2. apply elem_of_app. by left.
Qed.

Lemma capabilityFlags_arguments caps :
  registeredOptions (capabilityArguments caps) = capabilityFlags caps.
Proof.
  induction caps as [|c caps IH]; [done|].
  change (capabilityArguments (c :: caps))
    with (capabilityArguments [c] ++ capabilityArguments caps).
  rewrite registeredOptions_app, IH. done.
Qed.

Lemma elem_of_two_more (x y f : string) (l : list string) :
  f ∈ l ++ [x; y] <-> f ∈ l \/ f = x \/ f = y.
Proof. rewrite elem_of_app, !elem_of_cons, elem_of_nil. tauto. Qed.

Lemma forEach_declareCapability_ret caps : forall p p',
  forEach caps declareCapability p = (Ret tt, p') ->
  Forall (fun c => lstripDash c.1 <> EmptyString) caps
  /\ NoDup (capabilityFlags caps)
  /\ (forall f, f ∈ capabilityFlags caps -> f ∉ registeredOptions p)
  /\ p' = p ++ capabilityArguments caps.
Proof.
  induction caps as [|c caps IH]; intros p p'.
  { intros [= <-]. split; [constructor|]. split; [constructor|].
    split; [by intros f ?%elem_of_nil|by rewrite app_nil_r]. }
  cbn [forEach]. unfold bind at 1.
  change (capabilityFlags (c :: caps))
    with (("--" +:+ c.1) :: ("--no-" +:+ c.1) :: capabilityFlags caps).
  change (capabilityArguments (c :: caps))
    with (capabilityArguments [c] ++ capabilityArguments caps).
  destruct (declareCapability c p) as [[[]|e] p1] eqn:Hc; [|discriminate].
  destruct (declareCapability_ret _ _ _ Hc) as (Hd & H1 & H2).
  rewrite (declareCapability_ok _ _ Hd H1 H2) in Hc.
  injection Hc as <-.
  intros (HF & HN & Hfresh & ->)%IH.
  rewrite registeredOptions_app in Hfresh.
  change (registeredOptions [_; _])
    with ["--" +:+ c.1; "--no-" +:+ c.1] in Hfresh.
  pose proof (disable_flag_differs c.1) as Hne.
  split; [by constructor|]. split; [|split; [|by rewrite <- app_assoc]].
  - rewrite !NoDup_cons. split; [|split; [|done]].
    + intros [Heq|Hin]%elem_of_cons; [by destruct Hne|].
      apply (Hfresh _ Hin), elem_of_two_more. auto.
    + intros Hin. apply (Hfresh _ Hin), elem_of_two_more. auto.
  - intros f [->|[->|Hin]%elem_of_cons]%elem_of_cons; [done|done|].
    intros Hp. apply (Hfresh _ Hin), elem_of_two_more. auto.
Qed.

Lemma forEach_declareCapability_ok caps : forall p,
  Forall (fun c => lstripDash c.1 <> EmptyString) caps ->
  NoDup (capabilityFlags caps) ->
  (forall f, f ∈ capabilityFlags caps -> f ∉ registeredOptions p) ->
  forEach caps declareCapability p = (Ret tt, p ++ capabilityArguments caps).
Proof.
  induction caps as [|c caps IH]; intros p HF HN Hfresh.
  { cbn. by rewrite app_nil_r. }
  cbn [forEach]. unfold bind at 1.
  change (capabilityFlags (c :: caps))
    with (("--" +:+ c.1) :: ("--no-" +:+ c.1) :: capabilityFlags caps)
    in HN, Hfresh.
  change (capabilityArguments (c :: caps))
    with (capabilityArguments [c] ++ capabilityArguments caps).
  apply Forall_cons in HF as [Hd HF].
  apply NoDup_cons in HN as [Hn1 [Hn2 HN]%NoDup_cons].
  rewrite declareCapability_ok;
    [|done|apply Hfresh, list_elem_of_here
     |apply Hfresh, list_elem_of_further, list_elem_of_here].
  rewrite IH; [by rewrite <- app_assoc|done|done|].
  intros f Hin. rewrite registeredOptions_app.
  change (registeredOptions (capabilityArguments [c]))
    with ["--" +:+ c.1; "--no-" +:+ c.1].
  intros [Hp|[->| ->]]%elem_of_two_more.
  - apply (Hfresh f); [|done]. by do 2 apply list_elem_of_further.
  - apply Hn1. by apply list_elem_of_further.
  - by apply Hn2.
Qed.

Lemma reservedOptions_spec :
  registeredOptions optionsParser = reservedOptions.
Proof. vm_compute. reflexivity. Qed.

Lemma usageParser_spec caps p :
  usageParser caps = Ret p <->
  Forall (fun c => lstripDash c.1 <> EmptyString) caps
  /\ NoDup (reservedOptions ++ capabilityFlags caps)
  /\ p = optionsParser ++ capabilityArguments caps ++ positionalArguments.
Proof.
  unfold usageParser, declareArguments, bind at 1.
  rewrite declareOptions_spec. unfold bind at 1.
  rewrite NoDup_app.
  assert (NoDup reservedOptions) as Hres
    by (rewrite <- reservedOptions_spec; apply optionsParser_NoDup).
  split.
  - destruct (forEach caps declareCapability optionsParser)
      as [[[]|e] p1] eqn:Hl; [|discriminate].
    apply forEach_declareCapability_ret in Hl as (HF & HN & Hfresh & ->).
    rewrite reservedOptions_spec in Hfresh.
    unfold bind, add_positional, modify. cbn [fst snd].
    intros [= <-]. split; [done|]. split; [|by rewrite <- !app_assoc].
    split; [done|]. split; [|done].
    intros f Hr Hf. by apply (Hfresh f).
  - intros (HF & (_ & Hfresh & HN) & ->).
    rewrite forEach_declareCapability_ok; [|done|done|].
    + unfold bind, add_positional, modify. cbn [fst snd].
      by rewrite <- !app_assoc.
    + rewrite reservedOptions_spec. intros f Hf Hr. by apply (Hfresh f).
Qed.

(** X26: when the parser can be built, it has for every capability
    [name] of the table that does not start with a dash the flags
    [--name] and [--no-name], both [store_true] with default [False],
    filed under the attributes [name] and [no_name] with dashes
    replaced by underscores: the attributes [applyCommandLineOverride]
    reads. *)
Theorem capability_flags_declared
    (caps : list (string * string)) (p : Parser) (n : string) :
  usageParser caps = Ret p ->
  n ∈ caps.*1 ->
  lstripDash n = n ->
  mkArgument ["--" +:+ n] (replace "-" "_" n)
             action_store_true (PyBool false) ∈ p
  /\ mkArgument ["--no-" +:+ n] ("no_" +:+ replace "-" "_" n)
                action_store_true (PyBool false) ∈ p.
Proof.
  intros (_ & _ & ->)%usageParser_spec Hn Hdash.
  apply list_elem_of_fmap in Hn as ([n' d] & -> & Hin). simpl in Hdash.
  assert (forall a, a ∈ capabilityArguments [(n', d)] ->
                    a ∈ optionsParser ++ capabilityArguments caps
                          ++ positionalArguments) as Hsub.
  { intros a Ha. apply elem_of_app. right. apply elem_of_app. left.
    unfold capabilityArguments in *. apply list_elem_of_In, in_flat_map.
    exists (n', d). split; [by apply list_elem_of_In|].
    apply list_elem_of_In. revert Ha. cbn [flat_map]. by rewrite app_nil_r. }
  split; apply Hsub; unfold capabilityArguments; cbn [flat_map app fst];
    rewrite Hdash.
  - apply list_elem_of_here.
  - apply list_elem_of_further, list_elem_of_here.
Qed.

Lemma capability_flags_declared_witness :
  mkArgument ["--" +:+ "large-shm"] (replace "-" "_" "large-shm")
             action_store_true (PyBool false)
    ∈ optionsParser ++ capabilityArguments (Capabilities exampleHost)
        ++ positionalArguments
  /\ mkArgument ["--no-" +:+ "large-shm"]
                ("no_" +:+ replace "-" "_" "large-shm")
                action_store_true (PyBool false)
       ∈ optionsParser ++ capabilityArguments (Capabilities exampleHost)
           ++ positionalArguments.
Proof.
  apply (capability_flags_declared (Capabilities exampleHost)).
  - vm_compute. reflexivity.
  - apply (bool_decide_unpack _). vm_compute. reflexivity.
  - reflexivity.
Defined.

(** X27: [usageParser] returns a parser exactly when no capability name
    consists of dashes only (or is empty) and the option strings
    [--name] and [--no-name] of the capabilities are distinct from one
    another and from the options every invocation has; otherwise
    [add_argument] raises. The parser then holds the fixed options, the
    flags of the capabilities in table order and the two positional
    arguments. *)
Theorem usageParser_rejects_clashes (caps : list (string * string)) :
  ((exists p, usageParser caps = Ret p) <->
   Forall (fun c => lstripDash c.1 <> EmptyString) caps
   /\ NoDup (reservedOptions ++ capabilityFlags caps))
  /\ (forall p, usageParser caps = Ret p ->
        p = optionsParser ++ capabilityArguments caps
              ++ positionalArguments).
Proof.
  split; [split|].
  - intros [p (HF & HN & _)%usageParser_spec]. done.
  - intros [HF HN]. eexists. by apply usageParser_spec.
  - by intros p (_ & _ & ->)%usageParser_spec.
Qed.

Lemma usageParser_rejects_clashes_witness :
  exists p, usageParser (Capabilities exampleHost) = Ret p.
Proof.
  apply (usageParser_rejects_clashes (Capabilities exampleHost)).
  split.
  - repeat constructor; discriminate.
  - apply (bool_decide_unpack _). vm_compute. reflexivity.
Defined.
